(** * Kestrel IR graph, segmenter and in-memory evaluator

    A shallow embedding of
      - [kestrel/ir/graph.py]       (IRGraph, IRGraphEvaluable, compose, union)
      - [kestrel/cache/inmemory.py] (InMemoryCache)
      - [kestrel/exceptions.py]
    together with the properties of the engine's specification.

    Conventions.
      - An [Instruction] object is identified with its [id] (a uuid4 drawn at
        creation; [__eq__] and [__hash__] of instructions are by id).  The
        object store [Heap] maps an id to the current attributes of the
        object, so that an in-place update ([nv.version += ...]) is seen by
        every graph that holds the object.
      - A graph ([networkx.DiGraph]) is the insertion-ordered list of its
        nodes and the insertion-ordered list of its edges.
      - Python sets are lists without repetition; the iteration order of a
        set is unspecified in Python and the model fixes one.
      - A method that mutates [self] or an instruction is a computation in
        the monad [M]: it threads the heap and [self], and an exception
        leaves the effects performed before it in place. *)

From Stdlib Require Import ZArith NArith List String Bool Lia Arith Permutation.
Import ListNotations.
Local Open Scope Z_scope.
Local Open Scope string_scope.
Local Open Scope list_scope.

Set Implicit Arguments.

(* ------------------------------------------------------------------ *)
(** ** Exceptions ([kestrel/exceptions.py] and the Python built-ins used) *)

Inductive Error : Type :=
| InstructionNotFound
| InvalidInstruction
| InvalidSeralizedGraph
| InvalidSeralizedInstruction
| InvalidDataSource
| VariableNotFound
| ReferenceNotFound
| DataSourceNotFound
| DuplicatedVariable
| DuplicatedReference
| DuplicatedDataSource
| DuplicatedSingletonInstruction
| MultiInterfacesInGraph
| InvalidSerializedDatasourceInterfaceCacheCatalog
| InevaluableInstruction
| InterfaceNotFound
| InterfaceNameCollision
(* Python and networkx exceptions that the embedded code can raise *)
| StopIteration
| NotImplementedError
| KeyError
| NetworkXError
| RecursionError
| BackendError
(* a call without a required argument *)
| TypeError
(* an argument that the [@typechecked] decorator refuses
   ([typeguard.TypeCheckError]) *)
| TypeCheckError.

Inductive result (A : Type) : Type :=
| Ok (a : A)
| Raise (e : Error).
Arguments Ok {A} a.
Arguments Raise {A} e.

(** [KestrelError] subclasses: everything declared in [exceptions.py]. *)
Definition is_KestrelError (e : Error) : bool :=
  match e with
  | StopIteration | NotImplementedError | KeyError | NetworkXError
  | RecursionError | BackendError | TypeError | TypeCheckError => false
  | _ => true
  end.

(* ------------------------------------------------------------------ *)
(** ** Instruction model *)

Definition UUID := N.

(** Modelled from the spec: [kestrel/ir/instructions.py] is missing from the
    sources.  Section 3.1 gives the closed sum of node kinds and their
    attributes: [DataSource] (the SourceInstruction); [Variable'] (the class
    Variable; the bare word is reserved), [Return] and the row-level
    operators (the TransformingInstructions); [Reference] (the only
    IntermediateInstruction).  The node id is the key of the object in the
    [Heap]. *)
Inductive Instruction : Type :=
| DataSource (interface datasource : string)
| Variable' (name : string) (version : Z)
| Return (sequence : Z)
| Reference (name : string)
| Operator (op params : string).

Inductive PyType : Type :=
| TInstruction
| TTransformingInstruction
| TSourceInstruction
| TIntermediateInstruction
| TVariable
| TDataSource
| TReference
| TReturn.

(** [isinstance(i, t)] over the three-level class hierarchy of section 3.1. *)
Definition isinstance (i : Instruction) (t : PyType) : bool :=
  match t, i with
  | TInstruction, _ => true
  | TTransformingInstruction, (Variable' _ _ | Return _ | Operator _ _) => true
  | TSourceInstruction, DataSource _ _ => true
  | TIntermediateInstruction, Reference _ => true
  | TVariable, Variable' _ _ => true
  | TDataSource, DataSource _ _ => true
  | TReference, Reference _ => true
  | TReturn, Return _ => true
  | _, _ => false
  end.

(** Modelled from the spec: [Instruction.has_same_content_as] (section 4.1,
    content equality rules; the id is not compared). *)
Definition has_same_content_as (x y : Instruction) : bool :=
  match x, y with
  | DataSource i d, DataSource i' d' => String.eqb i i' && String.eqb d d'
  | Reference n, Reference n' => String.eqb n n'
  | Variable' n v, Variable' n' v' => String.eqb n n' && Z.eqb v v'
  | Return s, Return s' => Z.eqb s s'
  | Operator o p, Operator o' p' => String.eqb o o' && String.eqb p p'
  | _, _ => false
  end.

(** Attribute values, for [getattr(n, k, None) == v]. *)
Inductive pyval : Type :=
| VStr (s : string)
| VInt (z : Z).

Definition pyval_eqb (a b : pyval) : bool :=
  match a, b with
  | VStr s, VStr t => String.eqb s t
  | VInt x, VInt y => Z.eqb x y
  | _, _ => false
  end.

Definition getattr (i : Instruction) (k : string) : option pyval :=
  match i with
  | DataSource itf ds =>
      if String.eqb k "interface" then Some (VStr itf)
      else if String.eqb k "datasource" then Some (VStr ds) else None
  | Variable' n v =>
      if String.eqb k "name" then Some (VStr n)
      else if String.eqb k "version" then Some (VInt v) else None
  | Return s => if String.eqb k "sequence" then Some (VInt s) else None
  | Reference n => if String.eqb k "name" then Some (VStr n) else None
  | Operator o p =>
      if String.eqb k "op" then Some (VStr o)
      else if String.eqb k "params" then Some (VStr p) else None
  end.

(** [n.name], [n.version], [n.sequence], [n.interface] on nodes that are
    known to carry the attribute (0 and the empty string otherwise). *)
Definition name_of (i : Instruction) : string :=
  match i with
  | Variable' n _ | Reference n => n
  | _ => ""
  end.

Definition version_of (i : Instruction) : Z :=
  match i with Variable' _ v => v | _ => 0 end.

Definition sequence_of (i : Instruction) : Z :=
  match i with Return s => s | _ => 0 end.

Definition interface_of (i : Instruction) : string :=
  match i with DataSource itf _ => itf | _ => "" end.

(** The object store: id of the object -> its current attributes. *)
Definition Heap := UUID -> Instruction.

Definition upd (H : Heap) (n : UUID) (i : Instruction) : Heap :=
  fun m => if N.eqb m n then i else H m.

(* ------------------------------------------------------------------ *)
(** ** Graph store (the part of [networkx.DiGraph] that the code uses) *)

Inductive PyClass : Type := cIRGraph | cIRGraphEvaluable.

(** [g_interface] is the attribute [self.interface] of an IRGraphEvaluable
    ([None] until a source instruction sets it). *)
Record IRGraph : Type := mkGraph {
  g_class : PyClass;
  g_nodes : list UUID;
  g_edges : list (UUID * UUID);
  g_interface : option string
}.

Definition mem (n : UUID) (l : list UUID) : bool := existsb (N.eqb n) l.

Definition edge_eqb (e f : UUID * UUID) : bool :=
  N.eqb (fst e) (fst f) && N.eqb (snd e) (snd f).

Definition mem_edge (e : UUID * UUID) (l : list (UUID * UUID)) : bool :=
  existsb (edge_eqb e) l.

(** [n in g] *)
Definition has_node (g : IRGraph) (n : UUID) : bool := mem n (g_nodes g).

Definition set_nodes (g : IRGraph) (ns : list UUID) : IRGraph :=
  mkGraph (g_class g) ns (g_edges g) (g_interface g).

Definition set_edges (g : IRGraph) (es : list (UUID * UUID)) : IRGraph :=
  mkGraph (g_class g) (g_nodes g) es (g_interface g).

Definition set_interface (g : IRGraph) (i : option string) : IRGraph :=
  mkGraph (g_class g) (g_nodes g) (g_edges g) i.

(** [networkx.DiGraph.add_node] *)
Definition nx_add_node (g : IRGraph) (n : UUID) : IRGraph :=
  if has_node g n then g else set_nodes g (g_nodes g ++ [n]).

(** [networkx.DiGraph.add_edge]: both endpoints are added when absent. *)
Definition nx_add_edge (g : IRGraph) (u v : UUID) : IRGraph :=
  let g1 := nx_add_node (nx_add_node g u) v in
  if mem_edge (u, v) (g_edges g1) then g1
  else set_edges g1 (g_edges g1 ++ [(u, v)]).

(** The adjacency of a node of the graph: the keys of [g._pred[n]] and of
    [g._succ[n]], in insertion order. *)
Definition nx_pred (g : IRGraph) (n : UUID) : list UUID :=
  map fst (filter (fun e => N.eqb (snd e) n) (g_edges g)).

Definition nx_succ (g : IRGraph) (n : UUID) : list UUID :=
  map snd (filter (fun e => N.eqb (fst e) n) (g_edges g)).

(** [g.predecessors(n)]: raises when [n] is not a node of the graph. *)
Definition predecessors (g : IRGraph) (n : UUID) : result (list UUID) :=
  if has_node g n then Ok (nx_pred g n) else Raise NetworkXError.

(** [next(g.predecessors(n))] *)
Definition next_predecessor (g : IRGraph) (n : UUID) : result UUID :=
  match predecessors g n with
  | Raise e => Raise e
  | Ok [] => Raise StopIteration
  | Ok (p :: _) => Ok p
  end.

(** [g.in_degree(n)] and [g.out_degree(n)], which the code takes of the
    nodes of [g] only. *)
Definition in_degree (g : IRGraph) (n : UUID) : nat :=
  List.length (nx_pred g n).

Definition out_degree (g : IRGraph) (n : UUID) : nat :=
  List.length (nx_succ g n).

Definition degree (g : IRGraph) (n : UUID) : nat :=
  (in_degree g n + out_degree g n)%nat.

(** [g.in_edges(n)], for a node [n] of [g]. *)
Definition in_edges (g : IRGraph) (n : UUID) : list (UUID * UUID) :=
  map (fun u => (u, n)) (nx_pred g n).

(** [g.edges()]: by source node in node order, then by insertion. *)
Definition nx_edges (g : IRGraph) : list (UUID * UUID) :=
  flat_map (fun u => map (fun v => (u, v)) (nx_succ g u)) (g_nodes g).

(** [g.remove_edges_from(es)] *)
Definition remove_edges_from (g : IRGraph) (es : list (UUID * UUID)) : IRGraph :=
  set_edges g (filter (fun e => negb (mem_edge e es)) (g_edges g)).

(** What the view of an [IRGraph] on the nodes [ns] shows: the nodes of
    [g] that are in [ns] and the edges of [g] between them (the nodes are
    shared with [g]). *)
Definition induced_subgraph (g : IRGraph) (ns : list UUID) : IRGraph :=
  mkGraph cIRGraph
    (filter (fun n => mem n ns) (g_nodes g))
    (filter (fun e => mem (fst e) ns && mem (snd e) ns) (g_edges g))
    None.

(** [g.subgraph(ns)]: networkx builds the view in a new object of the
    class of [g], [g.__class__()].  [IRGraph()] is a graph without node;
    [IRGraphEvaluable()] lacks the argument [graph] of its constructor. *)
Definition subgraph (g : IRGraph) (ns : list UUID) : result IRGraph :=
  match g_class g with
  | cIRGraph => Ok (induced_subgraph g ns)
  | cIRGraphEvaluable => Raise TypeError
  end.

(** Backward and forward closure, one breadth-first layer per round; the
    number of rounds is bounded by the number of nodes. *)
Fixpoint closure (next : UUID -> list UUID) (universe : list UUID)
         (fuel : nat) (seen : list UUID) : list UUID :=
  match fuel with
  | O => seen
  | S fuel' =>
      let layer :=
        filter (fun u => negb (mem u seen) &&
                         existsb (fun v => mem v seen) (next u)) universe in
      match layer with
      | [] => seen
      | _ => closure next universe fuel' (seen ++ layer)
      end
  end.

(** [networkx.ancestors(g, n)]: nodes with a path to [n], without [n]. *)
Definition ancestors (g : IRGraph) (n : UUID) : result (list UUID) :=
  if has_node g n then
    Ok (filter (fun u => negb (N.eqb u n))
          (closure (nx_succ g) (g_nodes g) (List.length (g_nodes g)) [n]))
  else Raise NetworkXError.

(** [networkx.descendants(g, n)]: nodes reachable from [n], without [n]. *)
Definition descendants (g : IRGraph) (n : UUID) : result (list UUID) :=
  if has_node g n then
    Ok (filter (fun u => negb (N.eqb u n))
          (closure (nx_pred g) (g_nodes g) (List.length (g_nodes g)) [n]))
  else Raise NetworkXError.

(** A fresh [IRGraph()]. *)
Definition empty_graph : IRGraph := mkGraph cIRGraph [] [] None.

(* ------------------------------------------------------------------ *)
(** ** Read-only queries of [IRGraph] *)

(** [sorted(xs, key=...)] and [xs.sort(key=...)]: a stable sort. *)
Fixpoint insert_by (key : UUID -> Z) (x : UUID) (l : list UUID) : list UUID :=
  match l with
  | [] => [x]
  | y :: l' => if Z.leb (key x) (key y) then x :: y :: l'
               else y :: insert_by key x l'
  end.

Fixpoint sort_by (key : UUID -> Z) (l : list UUID) : list UUID :=
  match l with
  | [] => []
  | x :: l' => insert_by key x (sort_by key l')
  end.

(** [[f(x) for x in xs]] where [f] may raise. *)
Fixpoint map_result {A B : Type} (f : A -> result B) (l : list A)
  : result (list B) :=
  match l with
  | [] => Ok []
  | x :: l' =>
      match f x with
      | Raise e => Raise e
      | Ok y => match map_result f l' with
                | Raise e => Raise e
                | Ok ys => Ok (y :: ys)
                end
      end
  end.

Section Queries.
Variable H : Heap.
Variable g : IRGraph.

Definition get_nodes_by_type (ntype : PyType) : list UUID :=
  filter (fun n => isinstance (H n) ntype) (g_nodes g).

Definition attr_match (n : UUID) (kv : string * pyval) : bool :=
  match getattr (H n) (fst kv) with
  | Some v => pyval_eqb v (snd kv)
  | None => false
  end.

Definition get_nodes_by_type_and_attributes
           (ntype : PyType) (attr2val : list (string * pyval)) : list UUID :=
  filter (fun n => forallb (attr_match n) attr2val) (get_nodes_by_type ntype).

Definition get_variable (var_name : string) : result UUID :=
  let xs := get_nodes_by_type_and_attributes TVariable
              [("name", VStr var_name)] in
  match xs with
  | [] => Raise VariableNotFound
  | _ :: _ =>
      if (List.length (nodup Z.eq_dec (map (fun x => version_of (H x)) xs))
          <? List.length xs)%nat
      then Raise DuplicatedVariable
      else Ok (last (sort_by (fun x => version_of (H x)) xs) 0%N)
  end.

Definition get_variables : result (list UUID) :=
  let var_names :=
    nodup string_dec (map (fun v => name_of (H v)) (get_nodes_by_type TVariable)) in
  map_result get_variable var_names.

Definition get_reference (ref_name : string) : result UUID :=
  let xs := get_nodes_by_type_and_attributes TReference
              [("name", VStr ref_name)] in
  match xs with
  | [] => Raise ReferenceNotFound
  | [x] => Ok x
  | _ :: _ :: _ => Raise DuplicatedReference
  end.

Definition get_references : result (list UUID) :=
  let ref_names :=
    nodup string_dec (map (fun r => name_of (H r)) (get_nodes_by_type TReference)) in
  map_result get_reference ref_names.

Definition get_datasource (interface datasource : string) : result UUID :=
  let xs := get_nodes_by_type_and_attributes TDataSource
              [("interface", VStr interface); ("datasource", VStr datasource)] in
  match xs with
  | [] => Raise DataSourceNotFound
  | [x] => Ok x
  | _ :: _ :: _ => Raise DuplicatedDataSource
  end.

Definition get_returns : list UUID :=
  sort_by (fun x => sequence_of (H x)) (get_nodes_by_type TReturn).

(** [max(map(lambda x: x.sequence, self.get_returns()), default=-1)] *)
Definition get_max_return_sequence : Z :=
  match map (fun x => sequence_of (H x)) get_returns with
  | [] => -1
  | s :: ss => fold_left Z.max ss s
  end.

Definition get_sink_nodes : list UUID :=
  filter (fun n => (out_degree g n =? 0)%nat) (g_nodes g).

(** [next(filter(lambda n: n.id == u, self.nodes()))] *)
Definition get_node_by_id (u : UUID) : result UUID :=
  match find (fun n => N.eqb n u) (g_nodes g) with
  | Some n => Ok n
  | None => Raise InstructionNotFound
  end.
End Queries.

(* ------------------------------------------------------------------ *)
(** ** The state and exception monad of the mutating methods *)

Record World : Type := mkWorld { heap : Heap; self : IRGraph }.

Definition M (A : Type) : Type := World -> World * result A.

Definition ret {A : Type} (a : A) : M A := fun w => (w, Ok a).

Definition raise {A : Type} (e : Error) : M A := fun w => (w, Raise e).

Definition bind {A B : Type} (c : M A) (k : A -> M B) : M B :=
  fun w => match c w with
           | (w', Ok a) => k a w'
           | (w', Raise e) => (w', Raise e)
           end.

Declare Scope py_scope.
Delimit Scope py_scope with py.
Notation "x <- c ;; k" := (bind c (fun x => k))
  (at level 61, c at next level, right associativity) : py_scope.
Notation "c ;;; k" := (bind c (fun _ => k))
  (at level 61, right associativity) : py_scope.
Local Open Scope py_scope.

Definition get_world : M World := fun w => (w, Ok w).

Definition lift {A : Type} (r : result A) : M A := fun w => (w, r).

Definition modify_self (f : IRGraph -> IRGraph) : M unit :=
  fun w => (mkWorld (heap w) (f (self w)), Ok tt).

Definition modify_heap (f : Heap -> Heap) : M unit :=
  fun w => (mkWorld (f (heap w)) (self w), Ok tt).

(** [for x in xs: body(x)] and [[body(x) for x in xs]] *)
Fixpoint forM {A B : Type} (xs : list A) (body : A -> M B) : M (list B) :=
  match xs with
  | [] => ret []
  | x :: xs' => y <- body x ;; ys <- forM xs' body ;; ret (y :: ys)
  end.

Fixpoint forM_ {A : Type} (xs : list A) (body : A -> M unit) : M unit :=
  match xs with
  | [] => ret tt
  | x :: xs' => body x ;;; forM_ xs' body
  end.

(** A Python dictionary built by a comprehension or by [dict.update], kept
    as the list of its bindings in the order they were made: a later
    binding of a key wins. *)
Fixpoint dict_get {K V : Type} (eqb : K -> K -> bool)
         (d : list (K * V)) (k : K) : option V :=
  match d with
  | [] => None
  | (k', v) :: d' =>
      match dict_get eqb d' k with
      | Some v' => Some v'
      | None => if eqb k' k then Some v else None
      end
  end.

Definition dict_mem {K V : Type} (eqb : K -> K -> bool)
           (d : list (K * V)) (k : K) : bool :=
  existsb (fun kv => eqb (fst kv) k) d.

(* ------------------------------------------------------------------ *)
(** ** Graph algebra: the mutating methods of [IRGraph] *)

(** Modelled from the spec: the constant [CACHE_INTERFACE_IDENTIFIER] of
    [kestrel/config/internal.py], which is missing from the sources; the
    spec names the reserved interface identifier CACHE. *)
Definition CACHE_INTERFACE_IDENTIFIER : string := "CACHE".

Definition set_version (i : Instruction) (v : Z) : Instruction :=
  match i with Variable' n _ => Variable' n v | _ => i end.

Definition set_sequence (i : Instruction) (s : Z) : Instruction :=
  match i with Return _ => Return s | _ => i end.

(** Truth value of [self.interface]: [None] and the empty string are false. *)
Definition truthy (o : option string) : bool :=
  match o with
  | Some s => negb (String.eqb s "")
  | None => false
  end.

Definition _add_singleton_instruction (node : UUID) : M UUID :=
  w <- get_world ;;
  let xs := filter (fun x => has_same_content_as (heap w x) (heap w node)
                             && Nat.eqb (in_degree (self w) x) 0)
                   (g_nodes (self w)) in
  match xs with
  | [] => modify_self (fun g => nx_add_node g node) ;;; ret node
  | [x] => ret x
  | _ :: _ :: _ => raise DuplicatedSingletonInstruction
  end.

(** [IRGraph._add_node] *)
Definition IRGraph__add_node (node : UUID) (deref : bool) : M UUID :=
  w <- get_world ;;
  if negb (has_node (self w) node) then
    if isinstance (heap w node) TIntermediateInstruction then
      if isinstance (heap w node) TReference then
        if deref then
          match get_variable (heap w) (self w) (name_of (heap w node)) with
          | Raise VariableNotFound => _add_singleton_instruction node
          | Raise e => raise e
          | Ok v => ret v
          end
        else _add_singleton_instruction node
      else raise NotImplementedError
    else if isinstance (heap w node) TSourceInstruction then
      _add_singleton_instruction node
    else modify_self (fun g => nx_add_node g node) ;;; ret node
  else ret node.

(** [IRGraphEvaluable._add_node] *)
Definition IRGraphEvaluable__add_node (node : UUID) (deref : bool) : M UUID :=
  w <- get_world ;;
  (if isinstance (heap w node) TIntermediateInstruction then
     raise InevaluableInstruction
   else if isinstance (heap w node) TSourceInstruction then
     if truthy (g_interface (self w)) then
       if negb (match g_interface (self w) with
                | Some s => String.eqb (interface_of (heap w node)) s
                | None => false
                end)
       then raise MultiInterfacesInGraph
       else ret tt
     else modify_self
            (fun g => set_interface g (Some (interface_of (heap w node))))
   else ret tt) ;;;
  IRGraph__add_node node deref.

(** [self._add_node(node, deref)], dispatched on the class of [self]. *)
Definition _add_node (node : UUID) (deref : bool) : M UUID :=
  w <- get_world ;;
  match g_class (self w) with
  | cIRGraph => IRGraph__add_node node deref
  | cIRGraphEvaluable => IRGraphEvaluable__add_node node deref
  end.

Definition add_nodes_from (nodes : list UUID) (deref : bool) : M unit :=
  forM_ nodes (fun node => _add_node node deref ;;; ret tt).

Definition add_edge (u v : UUID) (deref : bool) : M unit :=
  ux <- _add_node u deref ;;
  vx <- _add_node v deref ;;
  modify_self (fun g => nx_add_edge g ux vx).

Definition add_edges_from (edges : list (UUID * UUID)) (deref : bool) : M unit :=
  forM_ edges (fun e => add_edge (fst e) (snd e) deref).

(** [dependent_node] is annotated [Instruction]: the [None] that
    [add_node] passes on by default is refused by the decorator before
    the body runs. *)
Definition _add_node_with_dependent_node
           (node : UUID) (dependent_node : option UUID) : M UUID :=
  w <- get_world ;;
  match dependent_node with
  | Some d =>
      if has_node (self w) d then
        if negb (has_node (self w) node) then
          (if isinstance (heap w node) TVariable then
             match get_variable (heap w) (self w) (name_of (heap w node)) with
             | Raise VariableNotFound =>
                 modify_heap (fun H => upd H node (set_version (H node) 0))
             | Raise e => raise e
             | Ok ve =>
                 modify_heap (fun H => upd H node
                                (set_version (H node) (version_of (H ve) + 1)))
             end
           else ret tt) ;;;
          (if isinstance (heap w node) TReturn then
             modify_heap (fun H => upd H node
               (set_sequence (H node)
                  (get_max_return_sequence H (self w) + 1)))
           else ret tt) ;;;
          add_edge d node false ;;;
          ret node
        else ret node
      else raise InstructionNotFound
  | None => raise TypeCheckError
  end.

Definition add_node (node : UUID) (dependent_node : option UUID)
           (deref : bool) : M UUID :=
  w <- get_world ;;
  if negb (has_node (self w) node) then
    if isinstance (heap w node) TTransformingInstruction then
      _add_node_with_dependent_node node dependent_node
    else _add_node node deref
  else ret node.

Definition add_variable (v : UUID) (dependent_node : UUID) : M UUID :=
  add_node v (Some dependent_node) true.

Definition add_datasource (s : UUID) : M UUID := add_node s None true.

(** [add_return]: the fresh [Return()] object is the caller's [r]. *)
Definition add_return (r : UUID) (dependent_node : UUID) : M UUID :=
  add_node r (Some dependent_node) true.

Definition update (ng : IRGraph) : M unit :=
  w <- get_world ;;
  ovs <- lift (get_variables (heap w) (self w)) ;;
  let original_variables := map (fun v => (name_of (heap w v), v)) ovs in
  forM_ (get_nodes_by_type (heap w) ng TVariable)
        (fun nv => modify_heap (fun H =>
           match dict_get String.eqb original_variables (name_of (H nv)) with
           | Some ov =>
               upd H nv (set_version (H nv)
                           (version_of (H nv) + (version_of (H ov) + 1)))
           | None => H
           end)) ;;;
  w1 <- get_world ;;
  let return_max_sequence := get_max_return_sequence (heap w1) (self w1) in
  forM_ (get_returns (heap w1) ng)
        (fun nr => modify_heap (fun H =>
           upd H nr (set_sequence (H nr)
                       (sequence_of (H nr) + (return_max_sequence + 1))))) ;;;
  w2 <- get_world ;;
  refs <- lift (get_references (heap w2) ng) ;;
  o2n_refs <- forM refs (fun n => n' <- _add_node n true ;; ret (n, n')) ;;
  o2n_nonrefs <- forM (filter (fun n => negb (dict_mem N.eqb o2n_refs n))
                              (g_nodes ng))
                      (fun n => n' <- _add_node n true ;; ret (n, n')) ;;
  let o2n := o2n_refs ++ o2n_nonrefs in
  es <- lift (map_result
                (fun e => match dict_get N.eqb o2n (fst e),
                                dict_get N.eqb o2n (snd e) with
                          | Some u, Some v => Ok (u, v)
                          | _, _ => Raise KeyError
                          end)
                (nx_edges ng)) ;;
  add_edges_from es false.

(** [compose(g, h)] and [union(g, h)]: [g] is the [self] of the world. *)
Definition compose (h : IRGraph) : M unit := update h.

Definition union (h : IRGraph) : M unit := compose h.

(** A constructor call: run [c] on a new graph object, return the object. *)
Definition construct (H : Heap) (g0 : IRGraph) (c : M unit)
  : Heap * result IRGraph :=
  match c (mkWorld H g0) with
  | (w, Ok _) => (heap w, Ok (self w))
  | (w, Raise e) => (heap w, Raise e)
  end.

(** [IRGraph.copy] *)
Definition copy (H : Heap) (g : IRGraph) : Heap * result IRGraph :=
  construct H empty_graph (update g).

(** [IRGraphEvaluable.__init__] *)
Definition IRGraphEvaluable (H : Heap) (graph : IRGraph)
  : Heap * result IRGraph :=
  construct H (mkGraph cIRGraphEvaluable [] [] None)
    (update graph ;;;
     w <- get_world ;;
     if negb (truthy (g_interface (self w))) then
       modify_self (fun g => set_interface g (Some CACHE_INTERFACE_IDENTIFIER))
     else ret tt).

(* ------------------------------------------------------------------ *)
(** ** Segmenter *)

(** Python sets of nodes. *)
Definition set_add (x : UUID) (s : list UUID) : list UUID :=
  if mem x s then s else s ++ [x].

Definition set_union (s xs : list UUID) : list UUID :=
  fold_left (fun acc x => set_add x acc) xs s.

Definition set_inter (s t : list UUID) : list UUID :=
  filter (fun x => mem x t) s.

Definition set_diff (s t : list UUID) : list UUID :=
  filter (fun x => negb (mem x t)) s.

(** [itertools.combinations(l, 2)] *)
Fixpoint combinations2 {X : Type} (l : list X) : list (X * X) :=
  match l with
  | [] => []
  | x :: l' => map (fun y => (x, y)) l' ++ combinations2 l'
  end.

(** [a2ns[k].update(xs)] on a [defaultdict(set)] *)
Fixpoint bucket_update (a2ns : list (string * list UUID)) (k : string)
         (xs : list UUID) : list (string * list UUID) :=
  match a2ns with
  | [] => [(k, set_union [] xs)]
  | (k', s) :: rest =>
      if String.eqb k' k then (k', set_union s xs) :: rest
      else (k', s) :: bucket_update rest k xs
  end.

Definition duplicate_dependent_subgraph_of_node
           (H : Heap) (g : IRGraph) (node : UUID) : Heap * result IRGraph :=
  match ancestors g node with
  | Raise e => (H, Raise e)
  | Ok nodes =>
      match subgraph g (set_add node nodes) with
      | Raise e => (H, Raise e)
      | Ok view => copy H view
      end
  end.

Section Segmenter.
(** The cache probe: any mapping keyed by node id. *)
Variable A : Type.
Variable cache : list (UUID * A).

Definition cached (n : UUID) : bool := dict_mem N.eqb cache n.

Definition find_cached_dependent_subgraph_of_node
           (H : Heap) (g : IRGraph) (node : UUID) : Heap * result IRGraph :=
  match duplicate_dependent_subgraph_of_node H g node with
  | (H1, Raise e) => (H1, Raise e)
  | (H1, Ok g1) =>
      let in_edges_ := map (in_edges g1) (filter cached (g_nodes g1)) in
      let g2 := remove_edges_from g1 (List.concat in_edges_) in
      duplicate_dependent_subgraph_of_node H1 g2 node
  end.

(** The body of the loop over the source instructions of [g]. *)
Definition source_bucket (H : Heap) (g : IRGraph)
           (a2ns : list (string * list UUID)) (n : UUID)
  : result (list (string * list UUID)) :=
  match descendants g n with
  | Raise e => Raise e
  | Ok ns =>
      match map_result (predecessors g) ns with
      | Raise e => Raise e
      | Ok pss =>
      let preds := set_union [] (List.concat pss) in
      let cached_predecessors := filter cached preds in
      let itf := interface_of (H n) in
      Ok (bucket_update
            (bucket_update (bucket_update a2ns itf ns) itf cached_predecessors)
            itf [n])
      end
  end.

Fixpoint source_buckets (H : Heap) (g : IRGraph)
         (a2ns : list (string * list UUID)) (srcs : list UUID)
  : result (list (string * list UUID)) :=
  match srcs with
  | [] => Ok a2ns
  | n :: srcs' =>
      match source_bucket H g a2ns n with
      | Raise e => Raise e
      | Ok a2ns' => source_buckets H g a2ns' srcs'
      end
  end.

(** [[IRGraphEvaluable(g.subgraph(ns)) for ns in unshared_nodes if ns]] *)
Fixpoint emit (H : Heap) (g : IRGraph) (unshared_nodes : list (list UUID))
  : Heap * result (list IRGraph) :=
  match unshared_nodes with
  | [] => (H, Ok [])
  | [] :: rest => emit H g rest
  | ns :: rest =>
      match subgraph g ns with
      | Raise e => (H, Raise e)
      | Ok view =>
          match IRGraphEvaluable H view with
          | (H1, Raise e) => (H1, Raise e)
          | (H1, Ok dg) =>
              match emit H1 g rest with
              | (H2, Raise e) => (H2, Raise e)
              | (H2, Ok dgs) => (H2, Ok (dg :: dgs))
              end
          end
      end
  end.

Definition find_dependent_subgraphs_of_node
           (H : Heap) (self_ : IRGraph) (node : UUID)
  : Heap * result (list IRGraph) :=
  match find_cached_dependent_subgraph_of_node H self_ node with
  | (H1, Raise e) => (H1, Raise e)
  | (H1, Ok g) =>
      match source_buckets H1 g [] (get_nodes_by_type H1 g TSourceInstruction) with
      | Raise e => (H1, Raise e)
      | Ok a2ns0 =>
          let a2ns :=
            bucket_update a2ns0 CACHE_INTERFACE_IDENTIFIER
              (set_diff (g_nodes g)
                 (set_union [] (List.concat (map snd
                    (bucket_update a2ns0 CACHE_INTERFACE_IDENTIFIER []))))) in
          let shared_impacted_nodes :=
            set_union []
              (List.concat (map (fun p => set_inter (snd (fst p)) (snd (snd p)))
                           (combinations2 a2ns))) in
          let unshared_nodes :=
            map (fun kv => set_diff (snd kv) shared_impacted_nodes) a2ns in
          emit H1 g unshared_nodes
      end
  end.
End Segmenter.

(* ------------------------------------------------------------------ *)
(** ** Serialization (D3 link-node document) *)

Inductive json : Type :=
| JStr (s : string)
| JInt (z : Z)
| JId (u : UUID).

(** A JSON object. *)
Definition record := list (string * json).

Fixpoint field (r : record) (k : string) : option json :=
  match r with
  | [] => None
  | (k', v) :: r' => if String.eqb k' k then Some v else field r' k
  end.

(** Modelled from the spec: [Instruction.to_dict] of the missing
    [instructions.py] (section 6.1: id, kind tag and the required
    attributes of the kind). *)
Definition instruction_to_dict (n : UUID) (i : Instruction) : record :=
  ("id", JId n) ::
  match i with
  | DataSource itf ds =>
      [("instruction", JStr "DataSource"); ("interface", JStr itf);
       ("datasource", JStr ds)]
  | Variable' x v =>
      [("instruction", JStr "Variable"); ("name", JStr x); ("version", JInt v)]
  | Return s => [("instruction", JStr "Return"); ("sequence", JInt s)]
  | Reference x => [("instruction", JStr "Reference"); ("name", JStr x)]
  | Operator o p =>
      [("instruction", JStr "Operator"); ("op", JStr o); ("params", JStr p)]
  end.

(** Modelled from the spec: [instruction_from_dict] of the missing
    [instructions.py] (section 4.1: fails with InvalidSerializedInstruction
    on an unknown kind tag or a missing required attribute).  The result is
    the id of the new object and its attributes. *)
Definition instruction_from_dict (r : record) : result (UUID * Instruction) :=
  match field r "id", field r "instruction" with
  | Some (JId n), Some (JStr tag) =>
      if String.eqb tag "DataSource" then
        match field r "interface", field r "datasource" with
        | Some (JStr itf), Some (JStr ds) => Ok (n, DataSource itf ds)
        | _, _ => Raise InvalidSeralizedInstruction
        end
      else if String.eqb tag "Variable" then
        match field r "name", field r "version" with
        | Some (JStr x), Some (JInt v) => Ok (n, Variable' x v)
        | _, _ => Raise InvalidSeralizedInstruction
        end
      else if String.eqb tag "Return" then
        match field r "sequence" with
        | Some (JInt s) => Ok (n, Return s)
        | _ => Raise InvalidSeralizedInstruction
        end
      else if String.eqb tag "Reference" then
        match field r "name" with
        | Some (JStr x) => Ok (n, Reference x)
        | _ => Raise InvalidSeralizedInstruction
        end
      else if String.eqb tag "Operator" then
        match field r "op", field r "params" with
        | Some (JStr o), Some (JStr p) => Ok (n, Operator o p)
        | _, _ => Raise InvalidSeralizedInstruction
        end
      else Raise InvalidSeralizedInstruction
  | _, _ => Raise InvalidSeralizedInstruction
  end.

(** [{"nodes": [...], "links": [{"source": .., "target": ..}, ...]}] *)
Record document : Type := mkDoc {
  doc_nodes : list record;
  doc_links : list (UUID * UUID)
}.

Definition to_dict (H : Heap) (g : IRGraph) : document :=
  mkDoc (map (fun n => instruction_to_dict n (H n)) (g_nodes g)) (nx_edges g).

(** The body of the loop over the nodes of the document:
    [self._add_node(instruction_from_dict(n), False)]. *)
Definition load_node (n : record) : M unit :=
  o <- lift (instruction_from_dict n) ;;
  w <- get_world ;;
  (* an object with this id is already a node: [_add_node] hands the new
     object back and it is dropped *)
  if has_node (self w) (fst o) then ret tt
  else
    modify_heap (fun H => upd H (fst o) (snd o)) ;;;
    _add_node (fst o) false ;;;
    ret tt.

(** The body of the loop over the links of the document. *)
Definition load_link (e : UUID * UUID) : M unit :=
  w <- get_world ;;
  match get_node_by_id (self w) (fst e) with
  | Raise InstructionNotFound => raise InvalidSeralizedGraph
  | Raise err => raise err
  | Ok u =>
      match get_node_by_id (self w) (snd e) with
      | Raise InstructionNotFound => raise InvalidSeralizedGraph
      | Raise err => raise err
      | Ok v => add_edge u v false
      end
  end.

Definition _from_dict (graph_in_dict : document) : M unit :=
  forM_ (doc_nodes graph_in_dict) load_node ;;;
  forM_ (doc_links graph_in_dict) load_link.

(** [IRGraph(serialized_graph)]; the objects it creates live in [H]. *)
Definition IRGraph_init (H : Heap) (serialized_graph : option document)
  : Heap * result IRGraph :=
  match serialized_graph with
  | None => (H, Ok empty_graph)
  | Some d => construct H empty_graph (_from_dict d)
  end.

(* ------------------------------------------------------------------ *)
(** ** In-memory evaluator ([InMemoryCache]) *)

(** The evaluator's dictionaries are kept as association lists with
    [d[k] = v] overwriting in place ([dict_set]) and [d[k]] reading the
    first entry of the key ([dict_find]). *)
Fixpoint dict_find {V : Type} (d : list (UUID * V)) (k : UUID) : option V :=
  match d with
  | [] => None
  | (k', v) :: d' => if N.eqb k' k then Some v else dict_find d' k
  end.

Fixpoint dict_set {V : Type} (d : list (UUID * V)) (k : UUID) (v : V)
  : list (UUID * V) :=
  match d with
  | [] => [(k, v)]
  | (k', v') :: d' => if N.eqb k' k then (k', v) :: d'
                      else (k', v') :: dict_set d' k v
  end.

(** [del d[k]] once the key is known to be there. *)
Definition dict_del {V : Type} (d : list (UUID * V)) (k : UUID)
  : list (UUID * V) :=
  filter (fun kv => negb (N.eqb (fst kv) k)) d.

(** A call into the backend code generators. *)
Inductive BackendCall : Type :=
| SourceCall (instruction : UUID)
| TransformCall (instruction : UUID).

Section Evaluator.
(** The artifacts and the two code generators of
    [kestrel/interface/datasource/codegen/dataframe.py] are collaborators
    of the evaluator; they are parameters here. *)
Variable DataFrame : Type.
Variable evaluate_source_instruction : Instruction -> result DataFrame.
Variable evaluate_transforming_instruction :
  Instruction -> DataFrame -> result DataFrame.

(** The evaluator object: [self.cache], [self.cache_catalog], and the
    log of the backend calls it has made. *)
Record InMemoryCache : Type := mkCache {
  cache_ : list (UUID * DataFrame);
  cache_catalog : list (UUID * UUID);
  backend_calls : list BackendCall
}.

(** [InMemoryCache.__setitem__] *)
Definition setitem (c : InMemoryCache) (instruction_id : UUID)
           (data : DataFrame) : InMemoryCache :=
  mkCache (dict_set (cache_ c) instruction_id data)
          (dict_set (cache_catalog c) instruction_id instruction_id)
          (backend_calls c).

(** [InMemoryCache.__getitem__] *)
Definition getitem (c : InMemoryCache) (instruction_id : UUID)
  : result DataFrame :=
  match dict_find (cache_catalog c) instruction_id with
  | None => Raise KeyError
  | Some k => match dict_find (cache_ c) k with
              | None => Raise KeyError
              | Some df => Ok df
              end
  end.

(** [InMemoryCache.__delitem__]: two [del] statements, each of which
    raises KeyError on a missing key; the first deletion stays when the
    second one raises. *)
Definition delitem (c : InMemoryCache) (instruction_id : UUID)
  : InMemoryCache * result unit :=
  match dict_find (cache_ c) instruction_id with
  | None => (c, Raise KeyError)
  | Some _ =>
      let c1 := mkCache (dict_del (cache_ c) instruction_id)
                        (cache_catalog c) (backend_calls c) in
      match dict_find (cache_catalog c) instruction_id with
      | None => (c1, Raise KeyError)
      | Some _ =>
          (mkCache (cache_ c1) (dict_del (cache_catalog c) instruction_id)
                   (backend_calls c), Ok tt)
      end
  end.

Definition log_call (c : InMemoryCache) (b : BackendCall) : InMemoryCache :=
  mkCache (cache_ c) (cache_catalog c) (backend_calls c ++ [b]).

(** The decorator's check of an argument annotated [IRGraphEvaluable]. *)
Definition is_evaluable (graph : IRGraph) : bool :=
  match g_class graph with
  | cIRGraphEvaluable => true
  | cIRGraph => false
  end.

(** [fuel] is the interpreter's recursion limit.  The class is
    [@typechecked]: a [graph] that is not an [IRGraphEvaluable] is refused
    at every call. *)
Fixpoint _evaluate_instruction_in_graph (fuel : nat) (H : Heap)
         (graph : IRGraph) (instruction : UUID) (c : InMemoryCache)
  : InMemoryCache * result DataFrame :=
  match fuel with
  | O => (c, Raise RecursionError)
  | S fuel' =>
      if negb (is_evaluable graph) then (c, Raise TypeCheckError)
      else if isinstance (H instruction) TReturn then
        match next_predecessor graph instruction with
        | Raise e => (c, Raise e)
        | Ok p => _evaluate_instruction_in_graph fuel' H graph p c
        end
      else if isinstance (H instruction) TVariable then
        match next_predecessor graph instruction with
        | Raise e => (c, Raise e)
        | Ok p =>
            match _evaluate_instruction_in_graph fuel' H graph p c with
            | (c1, Raise e) => (c1, Raise e)
            | (c1, Ok df) => (setitem c1 instruction df, Ok df)
            end
        end
      else if isinstance (H instruction) TSourceInstruction then
        (log_call c (SourceCall instruction),
         evaluate_source_instruction (H instruction))
      else if isinstance (H instruction) TTransformingInstruction then
        match next_predecessor graph instruction with
        | Raise e => (c, Raise e)
        | Ok p =>
            match _evaluate_instruction_in_graph fuel' H graph p c with
            | (c1, Raise e) => (c1, Raise e)
            | (c1, Ok df0) =>
                (log_call c1 (TransformCall instruction),
                 evaluate_transforming_instruction (H instruction) df0)
            end
        end
      else (c, Raise NotImplementedError)
  end.

(** The loop of [evaluate_graph]; [mapping] is the dict it returns. *)
Fixpoint evaluate_loop (fuel : nat) (H : Heap) (graph : IRGraph)
         (todo : list UUID) (mapping : list (UUID * DataFrame))
         (c : InMemoryCache)
  : InMemoryCache * result (list (UUID * DataFrame)) :=
  match todo with
  | [] => (c, Ok mapping)
  | ins :: todo' =>
      match _evaluate_instruction_in_graph fuel H graph ins c with
      | (c1, Raise e) => (c1, Raise e)
      | (c1, Ok df) =>
          evaluate_loop fuel H graph todo' (dict_set mapping ins df)
                        (setitem c1 ins df)
      end
  end.

(** [evaluate_graph]: the decorator checks the class of [graph] before the
    body runs. *)
Definition evaluate_graph (fuel : nat) (H : Heap) (graph : IRGraph)
           (instructions_to_evaluate : option (list UUID))
           (c : InMemoryCache)
  : InMemoryCache * result (list (UUID * DataFrame)) :=
  if negb (is_evaluable graph) then (c, Raise TypeCheckError)
  else
    let todo := match instructions_to_evaluate with
                | None | Some [] => get_sink_nodes graph
                | Some l => l
                end in
    evaluate_loop fuel H graph todo [] c.
End Evaluator.

(* ------------------------------------------------------------------ *)
(** ** Concrete graphs used by the examples below *)

Module Ex.

(** The objects of the scenarios: a pipeline over interface A, a second
    source over interface B, and a fragment that refers to [x]. *)
Definition H0 : Heap := fun n =>
  match n with
  | 1 => DataSource "A" "t1"
  | 2 => Operator "Filter" "P"
  | 3 => Variable' "x" 0
  | 4 => Return 0
  | 5 => Operator "Filter" "Q"
  | 6 => Variable' "x" 0
  | 10 => Reference "x"
  | 11 => Operator "Filter" "R"
  | 12 => Return 0
  | 13 => Variable' "x" 0
  | 14 => DataSource "A" "t1"
  | 15 => DataSource "A" "t1"
  | 20 => DataSource "B" "t2"
  | 21 => Variable' "y" 0
  | 22 => Operator "Join" ""
  | 23 => Return 0
  | 30 => Variable' "x" 0
  | 31 => Variable' "x" 0
  | 40 => DataSource "" "t0"
  | 41 => Reference "x"
  | _ => Operator "nop" ""
  end%N.

(** A backend over [nat] artifacts. *)
Definition src (i : Instruction) : result nat := Ok 42%nat.
Definition trf (i : Instruction) (df : nat) : result nat := Ok (S df).

Definition empty_cache : InMemoryCache nat := mkCache [] [] [].



(** S4 after both variables are cached: the join over two cached
    boundary variables. *)
Definition g_join : IRGraph :=
  mkGraph cIRGraphEvaluable [13; 21; 22; 23]%N
          [(13, 22); (21, 22); (22, 23)]%N (Some CACHE_INTERFACE_IDENTIFIER).

(** S1: [DataSource -> Filter -> Variable(x) -> Return]. *)
Definition g_s1 : IRGraph :=
  mkGraph cIRGraph [1; 2; 3; 4]%N [(1, 2); (2, 3); (3, 4)]%N None.

(** S3: [Reference(x) -> Filter -> Return]. *)
Definition h_s3 : IRGraph :=
  mkGraph cIRGraph [10; 11; 12]%N [(10, 11); (11, 12)]%N None.

(** A fragment that assigns [x] again: [Filter -> Variable(x) -> Return]. *)
Definition h_var : IRGraph :=
  mkGraph cIRGraph [11; 30; 12]%N [(11, 30); (30, 12)]%N None.

(** Two sources of different interfaces next to a reference. *)
Definition g_mixed : IRGraph := mkGraph cIRGraph [1; 20; 10]%N [] None.

(** A source whose interface is the empty string, then a source of B. *)
Definition g_empty_interface : IRGraph :=
  mkGraph cIRGraph [40; 20]%N [] None.

(** A pipeline with an intermediate variable:
    [DataSource -> Filter -> Variable(x) -> Filter -> Return]. *)
Definition g_pipeline : IRGraph :=
  mkGraph cIRGraph [1; 2; 3; 5; 4]%N [(1, 2); (2, 3); (3, 5); (5, 4)]%N None.

(** The same pipeline as an [IRGraphEvaluable] of interface A. *)
Definition e_pipeline : IRGraph :=
  mkGraph cIRGraphEvaluable [1; 2; 3; 5; 4]%N
          [(1, 2); (2, 3); (3, 5); (5, 4)]%N (Some "A").

(** S4: two pipelines over the interfaces A and B, joined:
    [DataSource(A) -> Filter -> Variable(x)], [DataSource(B) -> Variable(y)],
    both into [Join -> Return]. *)
Definition g_s4 : IRGraph :=
  mkGraph cIRGraph [1; 2; 13; 20; 21; 22; 23]%N
          [(1, 2); (2, 13); (20, 21); (13, 22); (21, 22); (22, 23)]%N None.

(** A reference with a predecessor, and a second reference of the same
    name that was added after the edge. *)
Definition g_two_refs : IRGraph :=
  mkGraph cIRGraph [2; 10; 41]%N [(2, 10)]%N None.

(** A source with a predecessor, and a second source of the same
    content that was added after the edge. *)
Definition g_two_sources : IRGraph :=
  mkGraph cIRGraph [20; 2; 1; 14]%N [(20, 2); (2, 1)]%N None.

End Ex.

(* ================================================================== *)
(** * Predicates, invariants and phases used in the statements *)

Arguments isinstance : simpl never.
Unset Implicit Arguments.

(** The edges of a graph join nodes of the graph (an invariant of
    [networkx.DiGraph]). *)
Definition edges_closed (g : IRGraph) : Prop :=
  forall u v, In (u, v) (g_edges g) -> In u (g_nodes g) /\ In v (g_nodes g).

(** The graph holds exactly one node with the content, [x0], and it has
    no predecessor. *)
Definition sole_source (H : Heap) (interface datasource : string)
           (g : IRGraph) (x0 : UUID) : Prop :=
  filter (fun x => has_same_content_as (H x)
                     (DataSource interface datasource)) (g_nodes g) = [x0] /\
  in_degree g x0 = 0%nat.

(** The variables of a name, in node order. *)
Definition vars_named (H : Heap) (g : IRGraph) (x : string) : list UUID :=
  get_nodes_by_type_and_attributes H g TVariable [("name", VStr x)].

Definition is_var_named (x : string) (i : Instruction) : bool :=
  match i with
  | Variable' y _ => String.eqb y x
  | _ => false
  end.

(** [0, 1, ..., k-1] from [a] on. *)
Definition iota (a k : nat) : list Z := map Z.of_nat (seq a k).

(** A sequence of [add_node(n, d)] calls is admissible from the node list
    [ns] when every [n] is a new object and every [d] is a node already. *)
Fixpoint adds_ok (ns : list UUID) (l : list (UUID * UUID)) : Prop :=
  match l with
  | [] => True
  | (n, d) :: l' => In d ns /\ ~ In n ns /\ adds_ok (ns ++ [n]) l'
  end.

(** [preserves R c]: whatever the outcome of [c] (a value or an
    exception), the world it leaves is related by [R] to the one it
    started from. *)
Definition preserves {A : Type} (R : World -> World -> Prop) (c : M A) : Prop :=
  forall w w' r, c w = (w', r) -> R w w'.

(** Two states of one object: a write never changes the class of an
    instruction, the name of a variable or any attribute of a source,
    reference or operator. *)
Definition same_object (i j : Instruction) : Prop :=
  match i, j with
  | Variable' x _, Variable' y _ => x = y
  | Return _, Return _ => True
  | _, _ => i = j
  end.

(** The graph only grows and the objects keep their identity. *)
Definition grows (w w' : World) : Prop :=
  (forall n, same_object (heap w n) (heap w' n)) /\
  incl (g_nodes (self w)) (g_nodes (self w')) /\
  incl (g_edges (self w)) (g_edges (self w')) /\
  g_class (self w') = g_class (self w).

(** The heap is untouched, on top of [grows]. *)
Definition grows_graph (w w' : World) : Prop :=
  heap w' = heap w /\
  incl (g_nodes (self w)) (g_nodes (self w')) /\
  incl (g_edges (self w)) (g_edges (self w')) /\
  g_class (self w') = g_class (self w).

Fixpoint is_sorted (key : UUID -> Z) (l : list UUID) : Prop :=
  match l with
  | x :: ((y :: _) as l') => key x <= key y /\ is_sorted key l'
  | _ => True
  end.

(** The loop that prepares the variables of [ng]. *)
Definition shift_versions (original_variables : list (string * UUID))
           (nvs : list UUID) (H : Heap) : Heap :=
  fold_left
    (fun H nv =>
       match dict_get String.eqb original_variables (name_of (H nv)) with
       | Some ov =>
           upd H nv (set_version (H nv)
                       (version_of (H nv) + (version_of (H ov) + 1)))
       | None => H
       end) nvs H.

(** The loop that prepares the returns of [ng]. *)
Definition shift_sequences (return_max_sequence : Z) (nrs : list UUID)
           (H : Heap) : Heap :=
  fold_left
    (fun H nr =>
       upd H nr (set_sequence (H nr)
                   (sequence_of (H nr) + (return_max_sequence + 1))))
    nrs H.

(** [{n: self._add_node(n) for n in ns}] *)
Definition add_pairs (ns : list UUID) : M (list (UUID * UUID)) :=
  forM ns (fun n => n' <- _add_node n true ;; ret (n, n')).

Definition rewrite_edges (o2n : list (UUID * UUID)) (es : list (UUID * UUID))
  : result (list (UUID * UUID)) :=
  map_result
    (fun e => match dict_get N.eqb o2n (fst e), dict_get N.eqb o2n (snd e) with
              | Some u, Some v => Ok (u, v)
              | _, _ => Raise KeyError
              end) es.

(** The rest of [update], once the objects of [ng] are prepared. *)
Definition merge (ng : IRGraph) : M unit :=
  w2 <- get_world ;;
  refs <- lift (get_references (heap w2) ng) ;;
  o2n_refs <- add_pairs refs ;;
  o2n_nonrefs <- add_pairs (filter (fun n => negb (dict_mem N.eqb o2n_refs n))
                                   (g_nodes ng)) ;;
  es <- lift (rewrite_edges (o2n_refs ++ o2n_nonrefs) (nx_edges ng)) ;;
  add_edges_from es false.

(** The heap that [update] leaves: the objects of [ng] after both loops. *)
Definition prepared (H : Heap) (g ng : IRGraph) (ovs : list UUID) : Heap :=
  let H1 := shift_versions (map (fun v => (name_of (H v), v)) ovs)
                           (get_nodes_by_type H ng TVariable) H in
  shift_sequences (get_max_return_sequence H1 g) (get_returns H1 ng) H1.

(** Two graphs that share no node object. *)
Definition disjoint (g h : IRGraph) : Prop :=
  forall n, In n (g_nodes g) -> ~ In n (g_nodes h).

(** The zero-in-degree nodes of [g] with the content of [n]: the list [xs]
    of [_add_singleton_instruction]. *)
Definition singleton_matches (H : Heap) (g : IRGraph) (n : UUID) : list UUID :=
  filter (fun x => has_same_content_as (H x) (H n) && Nat.eqb (in_degree g x) 0)
         (g_nodes g).

(** [n] goes through the singleton guard. *)
Definition guarded (H : Heap) (g : IRGraph) (n : UUID) (deref : bool) : Prop :=
  isinstance (H n) TSourceInstruction = true \/
  (isinstance (H n) TReference = true /\
   (deref = false \/
    get_variable H g (name_of (H n)) = Raise VariableNotFound)).

(** The five ways in which [IRGraph._add_node] ends. *)
Inductive add_outcome (n : UUID) (deref : bool) (w : World)
  : World -> result UUID -> Prop :=
| add_present :
    has_node (self w) n = true ->
    add_outcome n deref w w (Ok n)
| add_deref v :
    has_node (self w) n = false ->
    isinstance (heap w n) TReference = true -> deref = true ->
    get_variable (heap w) (self w) (name_of (heap w n)) = Ok v ->
    add_outcome n deref w w (Ok v)
| add_found x :
    has_node (self w) n = false ->
    guarded (heap w) (self w) n deref ->
    singleton_matches (heap w) (self w) n = [x] ->
    add_outcome n deref w w (Ok x)
| add_inserted :
    has_node (self w) n = false ->
    (isinstance (heap w n) TTransformingInstruction = true \/
     (guarded (heap w) (self w) n deref /\
      singleton_matches (heap w) (self w) n = [])) ->
    add_outcome n deref w
                (mkWorld (heap w) (set_nodes (self w) (g_nodes (self w) ++ [n])))
                (Ok n)
| add_raised e :
    has_node (self w) n = false ->
    (isinstance (heap w n) TReference = true /\ deref = true /\
     get_variable (heap w) (self w) (name_of (heap w n)) = Raise e /\
     e <> VariableNotFound) \/
    (guarded (heap w) (self w) n deref /\ e = DuplicatedSingletonInstruction /\
     exists x y l, singleton_matches (heap w) (self w) n = x :: y :: l) ->
    add_outcome n deref w w (Raise e).

Definition is_ref_named (x : string) (i : Instruction) : bool :=
  match i with
  | Reference y => String.eqb y x
  | _ => false
  end.

Definition refs_named (H : Heap) (g : IRGraph) (x : string) : list UUID :=
  get_nodes_by_type_and_attributes H g TReference [("name", VStr x)].

(** The state of an evaluable graph while its nodes are being added:
    no edge yet, no reference, sources distinct by content, and the
    interface attribute is that of every source added so far. *)
Definition eval_inv (H : Heap) (w : World) : Prop :=
  heap w = H /\
  g_class (self w) = cIRGraphEvaluable /\
  g_edges (self w) = [] /\
  NoDup (g_nodes (self w)) /\
  (forall n, In n (g_nodes (self w)) -> isinstance (H n) TReference = false) /\
  (forall a b, In a (g_nodes (self w)) -> In b (g_nodes (self w)) ->
               isinstance (H a) TSourceInstruction = true ->
               H a = H b -> a = b) /\
  match g_interface (self w) with
  | None => forall n, In n (g_nodes (self w)) ->
                      isinstance (H n) TSourceInstruction = false
  | Some i => i <> "" /\
              forall n, In n (g_nodes (self w)) ->
                        isinstance (H n) TSourceInstruction = true ->
                        interface_of (H n) = i
  end.

(** [n'] stands for [n] in the merged graph: it is [n] itself, or the
    source of the same content that was there first. *)
Definition image (H : Heap) (n n' : UUID) : Prop :=
  n' = n \/ (isinstance (H n) TSourceInstruction = true /\ H n' = H n).

(** The state of an evaluable graph once its nodes are in and its edges
    are being added. *)
Definition eval_done (H : Heap) (w : World) : Prop :=
  heap w = H /\
  g_class (self w) = cIRGraphEvaluable /\
  (forall n, In n (g_nodes (self w)) -> isinstance (H n) TReference = false) /\
  match g_interface (self w) with
  | None => forall n, In n (g_nodes (self w)) ->
                      isinstance (H n) TSourceInstruction = false
  | Some i => i <> "" /\
              forall n, In n (g_nodes (self w)) ->
                        isinstance (H n) TSourceInstruction = true ->
                        interface_of (H n) = i
  end.

(** A fresh [IRGraphEvaluable], before [update] fills it. *)
Definition new_evaluable : IRGraph := mkGraph cIRGraphEvaluable [] [] None.

(** A Source or a Reference: the kinds that go through the singleton
    guard. *)
Definition singleton_kind (i : Instruction) : bool :=
  isinstance i TSourceInstruction || isinstance i TReference.

(** No two distinct Source or Reference nodes have the same content. *)
Definition singletons_unique (H : Heap) (g : IRGraph) : Prop :=
  forall a b, In a (g_nodes g) -> In b (g_nodes g) ->
              singleton_kind (H a) = true -> H a = H b -> a = b.

(** Loading a node record leaves the class of the graph alone. *)
Definition keeps_class (w w' : World) : Prop :=
  g_class (self w') = g_class (self w).





(** The state of a new graph while the nodes of [ng] are being added. *)
Definition fresh_inv (H : Heap) (ng : IRGraph) (w : World) : Prop :=
  heap w = H /\ g_edges (self w) = [] /\ NoDup (g_nodes (self w)) /\
  incl (g_nodes (self w)) (g_nodes ng).

(** The state of a new graph while the nodes of any graph are being added:
    no edge yet, and the Source and Reference nodes unique by content. *)
Definition uniq_inv (H : Heap) (w : World) : Prop :=
  heap w = H /\ g_edges (self w) = [] /\ NoDup (g_nodes (self w)) /\
  singletons_unique H (self w).

(** A path of at least one edge. *)
Inductive path (g : IRGraph) : UUID -> UUID -> Prop :=
| path_edge u v : In (u, v) (g_edges g) -> path g u v
| path_cons u v t : In (u, v) (g_edges g) -> path g v t -> path g u t.

(** The graph of [find_cached_dependent_subgraph_of_node] after the
    incoming edges of the cached nodes are removed. *)
Definition cut_cached {A : Type} (cache : list (UUID * A)) (g1 : IRGraph)
  : IRGraph :=
  remove_edges_from g1
    (List.concat (map (in_edges g1) (filter (cached cache) (g_nodes g1)))).

(** A computation that leaves the node list without repetition when it
    finds it so. *)
Definition keeps_nodup (w w' : World) : Prop :=
  NoDup (g_nodes (self w)) -> NoDup (g_nodes (self w')).

(** The node sets that [emit] turns into graphs are the non-empty ones. *)
Definition nonempty (ns : list UUID) : bool :=
  match ns with [] => false | _ :: _ => true end.

(** The state in which [__setitem__] and [__delitem__] keep the cache:
    the catalog maps each of its keys to itself, and it has the keys of
    the artifact dictionary. *)
Definition cache_ok {DataFrame : Type} (c : InMemoryCache DataFrame) : Prop :=
  (forall k j, dict_find (cache_catalog c) k = Some j -> j = k) /\
  (forall k, dict_find (cache_catalog c) k = None <->
             dict_find (cache_ c) k = None).

(** [first_pred_chain H g t k b]: taking [k] times the first predecessor,
    each time of a transforming instruction that is a node of [g], leads
    from [t] to [b]. *)
Inductive first_pred_chain (H : Heap) (g : IRGraph)
  : UUID -> nat -> UUID -> Prop :=
| chain_here t : first_pred_chain H g t 0 t
| chain_step t p ps k b :
    isinstance (H t) TTransformingInstruction = true ->
    has_node g t = true ->
    nx_pred g t = p :: ps ->
    first_pred_chain H g p k b ->
    first_pred_chain H g t (S k) b.

(* ================================================================== *)
(** * Properties *)

(** ** Evaluator *)

Lemma dict_find_set_same {V : Type} (d : list (UUID * V)) k v :
  dict_find (dict_set d k v) k = Some v.
Proof.
  induction d as [|[k' v'] d IH]; simpl.
  - now rewrite N.eqb_refl.
  - destruct (N.eqb k' k) eqn:E; simpl; rewrite E; auto.
Qed.

Lemma dict_find_set_other {V : Type} (d : list (UUID * V)) k v k' :
  k' <> k -> dict_find (dict_set d k v) k' = dict_find d k'.
Proof.
  intros Hne. induction d as [|[a b] d IH]; simpl.
  - destruct (N.eqb_spec k k'); [congruence|reflexivity].
  - destruct (N.eqb_spec a k) as [->|Hak]; simpl.
    + destruct (N.eqb_spec k k'); [congruence|reflexivity].
    + destruct (N.eqb a k'); [reflexivity|exact IH].
Qed.

Section EvaluatorFacts.
Variable DataFrame : Type.
Variable src : Instruction -> result DataFrame.
Variable trf : Instruction -> DataFrame -> result DataFrame.

Local Abbreviation eval := (_evaluate_instruction_in_graph src trf).
Local Abbreviation Cache := (InMemoryCache DataFrame).


Lemma eval_S fuel H graph ins (c : Cache) :
  eval (S fuel) H graph ins c =
  if negb (is_evaluable graph) then (c, Raise TypeCheckError)
  else if isinstance (H ins) TReturn then
    match next_predecessor graph ins with
    | Raise e => (c, Raise e)
    | Ok p => eval fuel H graph p c
    end
  else if isinstance (H ins) TVariable then
    match next_predecessor graph ins with
    | Raise e => (c, Raise e)
    | Ok p =>
        match eval fuel H graph p c with
        | (c1, Raise e) => (c1, Raise e)
        | (c1, Ok df) => (setitem c1 ins df, Ok df)
        end
    end
  else if isinstance (H ins) TSourceInstruction then
    (log_call c (SourceCall ins), src (H ins))
  else if isinstance (H ins) TTransformingInstruction then
    match next_predecessor graph ins with
    | Raise e => (c, Raise e)
    | Ok p =>
        match eval fuel H graph p c with
        | (c1, Raise e) => (c1, Raise e)
        | (c1, Ok df0) => (log_call c1 (TransformCall ins), trf (H ins) df0)
        end
    end
  else (c, Raise NotImplementedError).
Proof. reflexivity. Qed.

(** The evaluation of an instruction never reads the cache: its outcome
    and the backend calls it makes are the same from any two caches. *)
Lemma eval_ignores_cache fuel H graph :
  forall ins (c c' : Cache),
  exists calls,
    snd (eval fuel H graph ins c) = snd (eval fuel H graph ins c') /\
    backend_calls (fst (eval fuel H graph ins c)) = backend_calls c ++ calls /\
    backend_calls (fst (eval fuel H graph ins c')) = backend_calls c' ++ calls.
Proof.
  induction fuel as [|fuel IH]; intros ins c c'.
  - exists []. simpl. now rewrite !app_nil_r.
  - rewrite !eval_S.
    destruct (negb (is_evaluable graph)).
    { exists []. simpl. now rewrite !app_nil_r. }
    destruct (isinstance (H ins) TReturn).
    { destruct (next_predecessor graph ins) as [p|e].
      - apply IH.
      - exists []. simpl. now rewrite !app_nil_r. }
    destruct (isinstance (H ins) TVariable).
    { destruct (next_predecessor graph ins) as [p|e].
      - destruct (IH p c c') as (calls & E1 & E2 & E3).
        exists calls.
        destruct (eval fuel H graph p c) as [c1 [df|e]];
          destruct (eval fuel H graph p c') as [c1' [df'|e']];
          simpl in *; try discriminate; auto.
      - exists []. simpl. now rewrite !app_nil_r. }
    destruct (isinstance (H ins) TSourceInstruction).
    { exists [SourceCall ins]. simpl. auto. }
    destruct (isinstance (H ins) TTransformingInstruction).
    { destruct (next_predecessor graph ins) as [p|e].
      - destruct (IH p c c') as (calls & E1 & E2 & E3).
        destruct (eval fuel H graph p c) as [c1 [df|e]];
          destruct (eval fuel H graph p c') as [c1' [df'|e']];
          simpl in *; try discriminate.
        + exists (calls ++ [TransformCall ins]).
          injection E1 as <-. rewrite E2, E3, !app_assoc. auto.
        + exists calls. auto.
      - exists []. simpl. now rewrite !app_nil_r. }
    exists []. simpl. now rewrite !app_nil_r.
Qed.





(** The evaluation of [t] goes through the evaluation of the node at the
    end of its chain of first predecessors. *)
Lemma eval_chain H graph t k b :
  is_evaluable graph = true ->
  first_pred_chain H graph t k b ->
  forall fuel (c : Cache),
    (forall e, snd (eval fuel H graph b c) = Raise e ->
               eval (k + fuel) H graph t c = eval fuel H graph b c) /\
    exists calls,
      backend_calls (fst (eval (k + fuel) H graph t c))
      = backend_calls (fst (eval fuel H graph b c)) ++ calls.
Proof.
  intros Hev Hch.
  induction Hch as [t|t p ps k b Ht Hn Hp Hch IH]; intros fuel c.
  - simpl. split; [intros; reflexivity|]. exists []. now rewrite app_nil_r.
  - destruct (IH fuel c) as [Herr [calls Hcalls]].
    change (S k + fuel)%nat with (S (k + fuel)). rewrite eval_S, Hev.
    cbn [negb].
    assert (Enp : next_predecessor graph t = Ok p)
      by (unfold next_predecessor, predecessors; now rewrite Hn, Hp).
    rewrite Enp.
    destruct (isinstance (H t) TReturn); [split; [exact Herr|eauto]|].
    destruct (isinstance (H t) TVariable).
    { destruct (eval (k + fuel) H graph p c) as [c1 [df|e]] eqn:Ep.
      - split; [|exists calls; exact Hcalls].
        intros e He. specialize (Herr e He). rewrite <- Herr in He.
        discriminate He.
      - split; [|exists calls; exact Hcalls].
        intros e' He. exact (Herr e' He). }
    destruct (isinstance (H t) TSourceInstruction) eqn:Hs.
    { exfalso. destruct (H t); discriminate. }
    rewrite Ht.
    destruct (eval (k + fuel) H graph p c) as [c1 [df|e]] eqn:Ep.
    + split.
      * intros e He. specialize (Herr e He). rewrite <- Herr in He.
        discriminate He.
      * exists (calls ++ [TransformCall t]). simpl. simpl in Hcalls.
        rewrite Hcalls. now rewrite app_assoc.
    + split; [|exists calls; exact Hcalls].
      intros e' He. exact (Herr e' He).
Qed.
End EvaluatorFacts.

(** C10. Evaluator predecessor requirement.  In an [IRGraphEvaluable],
    let [b] be the node reached from [t] by taking [k] times the first
    predecessor, each time of a Return, a Variable or another
    transforming instruction that is a node of the graph.  When [b] is a
    transforming instruction of the graph without predecessor, the
    evaluation of [t] raises StopIteration, which is no Kestrel error, and
    leaves the cache as it was, whatever the cache holds.  When [b] is a
    source, the evaluation of [t] starts with the backend call of [b],
    and an error of that call is its outcome. *)
Theorem evaluator_requires_predecessor :
  forall (DataFrame : Type) (src : Instruction -> result DataFrame)
         (trf : Instruction -> DataFrame -> result DataFrame)
         (H : Heap) (graph : IRGraph) (t b : UUID) (k : nat),
    g_class graph = cIRGraphEvaluable ->
    first_pred_chain H graph t k b ->
    forall (fuel : nat) (c : InMemoryCache DataFrame),
      (isinstance (H b) TTransformingInstruction = true ->
       has_node graph b = true ->
       nx_pred graph b = [] ->
       _evaluate_instruction_in_graph src trf (k + S fuel) H graph t c
       = (c, Raise StopIteration)) /\
      (isinstance (H b) TSourceInstruction = true ->
       (exists calls,
          backend_calls
            (fst (_evaluate_instruction_in_graph src trf (k + S fuel) H graph t c))
          = backend_calls c ++ SourceCall b :: calls) /\
       (forall e, src (H b) = Raise e ->
          _evaluate_instruction_in_graph src trf (k + S fuel) H graph t c
          = (log_call c (SourceCall b), Raise e))) /\
      is_KestrelError StopIteration = false.
Proof.
  intros DataFrame src trf H graph t b k Hc Hch fuel c.
  assert (Hev : is_evaluable graph = true)
    by (unfold is_evaluable; now rewrite Hc).
  destruct (eval_chain DataFrame src trf H graph t k b Hev Hch (S fuel) c)
    as [Herr [calls Hcalls]].
  split; [|split; [|reflexivity]].
  - intros Hb Hn Hp.
    assert (Eb : _evaluate_instruction_in_graph src trf (S fuel) H graph b c
                 = (c, Raise StopIteration)).
    { rewrite eval_S, Hev. cbn [negb].
      assert (Enp : next_predecessor graph b = Raise StopIteration)
        by (unfold next_predecessor, predecessors; now rewrite Hn, Hp).
      rewrite Enp. destruct (H b); try discriminate Hb; reflexivity. }
    rewrite (Herr StopIteration); [exact Eb|]. now rewrite Eb.
  - intros Hb.
    assert (Eb : _evaluate_instruction_in_graph src trf (S fuel) H graph b c
                 = (log_call c (SourceCall b), src (H b))).
    { rewrite eval_S, Hev. cbn [negb].
      destruct (H b); try discriminate Hb; reflexivity. }
    split.
    + exists calls. rewrite Hcalls, Eb. simpl. now rewrite <- app_assoc.
    + intros e He. rewrite (Herr e); rewrite Eb; [|exact He].
      now rewrite He.
Qed.

(** The join of S4 over its two cached variables: the Return is evaluated
    through the Join and its first predecessor, the Variable [x], which has
    no predecessor; the evaluation stops with StopIteration although the
    cache holds an artifact for [x]. *)
Lemma evaluator_requires_predecessor_witness :
  let c := setitem Ex.empty_cache 13%N 7%nat in
  getitem c 13%N = Ok 7%nat /\
  _evaluate_instruction_in_graph Ex.src Ex.trf 5 Ex.H0 Ex.g_join 23%N c
  = (c, Raise StopIteration).
Proof.
  split; [reflexivity|].
  refine (proj1 (evaluator_requires_predecessor nat Ex.src Ex.trf Ex.H0
                   Ex.g_join 23%N 13%N 2 eq_refl _ 2
                   (setitem Ex.empty_cache 13%N 7%nat))
                eq_refl eq_refl eq_refl).
  apply (chain_step Ex.H0 Ex.g_join 23%N 22%N [] 1 13%N eq_refl eq_refl eq_refl).
  apply (chain_step Ex.H0 Ex.g_join 22%N 13%N [21%N] 0 13%N
           eq_refl eq_refl eq_refl).
  apply chain_here.
Defined.



(* ------------------------------------------------------------------ *)
(** ** Basic facts about the graph store *)

(** Unfolds the monad's combinators and computes. *)
Ltac mrun :=
  repeat (progress (unfold bind, ret, raise, get_world, lift, modify_self,
                    modify_heap; simpl)).

Lemma mem_In n l : mem n l = true <-> In n l.
Proof.
  unfold mem. rewrite existsb_exists. split.
  - intros (x & Hx & E). apply N.eqb_eq in E. now subst.
  - intros Hn. exists n. split; [assumption|apply N.eqb_refl].
Qed.

Lemma mem_false n l : mem n l = false <-> ~ In n l.
Proof.
  rewrite <- mem_In. destruct (mem n l); split; intros; congruence.
Qed.

Lemma mem_edge_In e l : mem_edge e l = true <-> In e l.
Proof.
  unfold mem_edge. rewrite existsb_exists. split.
  - intros ((a, b) & Hx & E). unfold edge_eqb in E. simpl in E.
    apply andb_true_iff in E as [E1 E2].
    apply N.eqb_eq in E1, E2. destruct e. simpl in *. now subst.
  - intros He. exists e. split; [assumption|].
    unfold edge_eqb. now rewrite !N.eqb_refl.
Qed.

Lemma filter_andb {X : Type} (P Q : X -> bool) l :
  filter (fun x => P x && Q x) l = filter Q (filter P l).
Proof.
  induction l as [|x l IH]; simpl; [reflexivity|].
  destruct (P x); simpl; [destruct (Q x)|]; now rewrite IH.
Qed.

Lemma same_content_DataSource i itf ds :
  has_same_content_as i (DataSource itf ds) = true <-> i = DataSource itf ds.
Proof.
  destruct i; simpl; split; try discriminate.
  - intros E. apply andb_true_iff in E as [E1 E2].
    apply String.eqb_eq in E1, E2. now subst.
  - intros E. injection E as -> ->. now rewrite !String.eqb_refl.
Qed.

Lemma predecessors_In g u v : In u (nx_pred g v) <-> In (u, v) (g_edges g).
Proof.
  unfold nx_pred. rewrite in_map_iff. split.
  - intros ((a, b) & E & Hin). apply filter_In in Hin as [Hin Eb].
    simpl in *. apply N.eqb_eq in Eb. now subst.
  - intros Hin. exists (u, v). split; [reflexivity|].
    apply filter_In. split; [assumption|]. simpl. apply N.eqb_refl.
Qed.

Lemma in_degree_zero g v :
  in_degree g v = 0%nat <-> forall u, ~ In (u, v) (g_edges g).
Proof.
  unfold in_degree. split.
  - intros E u Hin. apply predecessors_In in Hin.
    destruct (nx_pred g v); [assumption|discriminate].
  - intros Hno. destruct (nx_pred g v) as [|u l] eqn:E; [reflexivity|].
    exfalso. apply (Hno u). apply predecessors_In. rewrite E. now left.
Qed.

(* ------------------------------------------------------------------ *)
(** ** Singleton law *)

Section SingletonLaw.
Variable H : Heap.
Variables interface datasource : string.

Local Abbreviation same x := (has_same_content_as (H x) (DataSource interface datasource)).

Lemma add_sole_source g x0 d :
  g_class g = cIRGraph ->
  sole_source H interface datasource g x0 ->
  H d = DataSource interface datasource ->
  add_node d None true (mkWorld H g) = (mkWorld H g, Ok x0).
Proof.
  intros Hc [Hf Hd] Hds.
  assert (Hx0 : same x0 = true).
  { assert (In x0 (filter (fun x => same x) (g_nodes g))) by (rewrite Hf; now left).
    now apply filter_In in H0. }
  unfold add_node, bind, get_world. simpl.
  destruct (has_node g d) eqn:Hin; simpl.
  - (* the object is a node already: it is the sole one *)
    unfold ret. f_equal. f_equal.
    assert (In d (filter (fun x => same x) (g_nodes g))) as Hi.
    { apply filter_In. split; [now apply mem_In|]. rewrite Hds.
      now apply same_content_DataSource. }
    rewrite Hf in Hi. destruct Hi as [->|[]]. reflexivity.
  - rewrite Hds. unfold isinstance at 1.
    unfold _add_node, bind, get_world. simpl. rewrite Hc.
    unfold IRGraph__add_node, bind, get_world. simpl. rewrite Hin. simpl.
    rewrite Hds. unfold isinstance.
    unfold _add_singleton_instruction, bind, get_world. simpl.
    rewrite Hds, filter_andb, Hf. simpl. rewrite Hd. reflexivity.
Qed.

Lemma add_first_source g d :
  g_class g = cIRGraph ->
  edges_closed g ->
  filter (fun x => same x) (g_nodes g) = [] ->
  H d = DataSource interface datasource ->
  exists g',
    add_node d None true (mkWorld H g) = (mkWorld H g', Ok d) /\
    g_class g' = cIRGraph /\ sole_source H interface datasource g' d.
Proof.
  intros Hc Hcl Hf Hds.
  assert (Hin : has_node g d = false).
  { apply mem_false. intros Hi.
    assert (In d (filter (fun x => same x) (g_nodes g))) as Hi'.
    { apply filter_In. split; [assumption|]. rewrite Hds.
      now apply same_content_DataSource. }
    rewrite Hf in Hi'. destruct Hi'. }
  exists (nx_add_node g d).
  unfold add_node, bind, get_world. simpl. rewrite Hin. simpl.
  rewrite Hds. unfold isinstance at 1.
  unfold _add_node, bind, get_world. simpl. rewrite Hc.
  unfold IRGraph__add_node, bind, get_world. simpl. rewrite Hin. simpl.
  rewrite Hds. unfold isinstance.
  unfold _add_singleton_instruction, bind, get_world. simpl.
  rewrite Hds, filter_andb, Hf. simpl.
  split; [reflexivity|].
  unfold nx_add_node. rewrite Hin. simpl. split; [assumption|].
  split.
  - simpl. rewrite filter_app, Hf. simpl. rewrite Hds.
    assert (E : has_same_content_as (DataSource interface datasource)
                  (DataSource interface datasource) = true)
      by now apply same_content_DataSource.
    now rewrite E.
  - apply in_degree_zero. simpl. intros u Hu.
    apply Hcl in Hu as [_ Hu]. apply mem_In in Hu.
    unfold has_node in Hin. congruence.
Qed.

Lemma add_all_sole_source g x0 ds :
  g_class g = cIRGraph ->
  sole_source H interface datasource g x0 ->
  (forall d, In d ds -> H d = DataSource interface datasource) ->
  forM ds (fun d => add_node d None true) (mkWorld H g)
  = (mkWorld H g, Ok (map (fun _ => x0) ds)).
Proof.
  intros Hc Hs. induction ds as [|d ds IH]; intros Hall; [reflexivity|].
  simpl. unfold bind at 1.
  rewrite (@add_sole_source g x0 d Hc Hs) by (apply Hall; now left).
  unfold bind at 1. rewrite IH by (intros; apply Hall; now right).
  reflexivity.
Qed.
End SingletonLaw.

(** The add of a DataSource object that is not a node of the graph yet
    is decided by the predecessor-free nodes of equal content. *)
Lemma add_new_source H interface datasource g d :
  g_class g = cIRGraph ->
  has_node g d = false ->
  H d = DataSource interface datasource ->
  add_node d None true (mkWorld H g) =
    match filter (fun n => has_same_content_as (H n)
                             (DataSource interface datasource)
                           && Nat.eqb (in_degree g n) 0) (g_nodes g) with
    | [] => (mkWorld H (set_nodes g (g_nodes g ++ [d])), Ok d)
    | [x] => (mkWorld H g, Ok x)
    | _ :: _ :: _ => (mkWorld H g, Raise DuplicatedSingletonInstruction)
    end.
Proof.
  intros Hc Hin Hds.
  unfold add_node, bind, get_world. simpl. rewrite Hin. simpl.
  rewrite Hds. unfold isinstance at 1.
  unfold _add_node, bind, get_world. simpl. rewrite Hc.
  unfold IRGraph__add_node, bind, get_world. simpl. rewrite Hin. simpl.
  rewrite Hds. unfold isinstance.
  unfold _add_singleton_instruction, bind, get_world. simpl.
  rewrite Hds.
  destruct (filter _ (g_nodes g)) as [|x [|y rest]]; try reflexivity.
  simpl. unfold nx_add_node. now rewrite Hin.
Qed.

(** C4 as stated fails: the singleton guard looks at predecessor-free
    nodes only.  After [add_edge(20, 2)] and [add_edge(2, 1)] the
    DataSource [1] has a predecessor, so that [add_node(14)], a DataSource
    of the same interface and datasource, inserts a second node and
    returns it; the graph then holds two nodes of that content, and the
    add of a third such object returns the second one. *)
Lemma singleton_law_counterexample :
  Ex.H0 1%N = DataSource "A" "t1" /\ Ex.H0 14%N = DataSource "A" "t1" /\
  Ex.H0 15%N = DataSource "A" "t1" /\
  (add_edge 20 2 false ;;; add_edge 2 1 false ;;;
   add_node 14 None true)%py%N (mkWorld Ex.H0 empty_graph)
  = (mkWorld Ex.H0 Ex.g_two_sources, Ok 14%N) /\
  filter (fun x => has_same_content_as (Ex.H0 x) (DataSource "A" "t1"))
         (g_nodes Ex.g_two_sources) = [1; 14]%N /\
  add_node 1%N None true (mkWorld Ex.H0 Ex.g_two_sources)
  = (mkWorld Ex.H0 Ex.g_two_sources, Ok 1%N) /\
  add_node 15%N None true (mkWorld Ex.H0 Ex.g_two_sources)
  = (mkWorld Ex.H0 Ex.g_two_sources, Ok 14%N).
Proof. vm_compute. repeat split. Qed.

(** C4, amended. Singleton law.  With [xs] the predecessor-free nodes of
    an [IRGraph] whose content is the DataSource (interface, datasource):
    the add of such an object that is not a node of the graph yet inserts
    and returns it when [xs] is empty, also when the graph holds a node of
    that content which has a predecessor; it returns the node of [xs] and
    changes nothing when [xs] has one node; it fails with
    DuplicatedSingletonInstruction when [xs] has more than one node.  The
    add of an object that is a node already returns it.  Hence adds one
    after the other into a graph that holds no node of the content leave
    exactly one such node, the first one added, and every add returns
    it; and every add into a graph whose only node of the content has no
    predecessor returns that node and changes nothing. *)
Theorem singleton_law :
  forall (H : Heap) (interface datasource : string) (g : IRGraph),
    g_class g = cIRGraph ->
    let same := fun n =>
      has_same_content_as (H n) (DataSource interface datasource) in
    let xs := filter (fun n => same n && Nat.eqb (in_degree g n) 0)
                     (g_nodes g) in
    (forall d,
        H d = DataSource interface datasource -> has_node g d = false ->
        (xs = [] ->
         add_node d None true (mkWorld H g)
         = (mkWorld H (set_nodes g (g_nodes g ++ [d])), Ok d)) /\
        (forall x, xs = [x] ->
         add_node d None true (mkWorld H g) = (mkWorld H g, Ok x)) /\
        (forall x y rest, xs = x :: y :: rest ->
         add_node d None true (mkWorld H g)
         = (mkWorld H g, Raise DuplicatedSingletonInstruction))) /\
    (forall d,
        has_node g d = true ->
        add_node d None true (mkWorld H g) = (mkWorld H g, Ok d)) /\
    (forall d0 ds,
        (forall d, In d (d0 :: ds) -> H d = DataSource interface datasource) ->
        edges_closed g ->
        filter same (g_nodes g) = [] ->
        exists g',
          forM (d0 :: ds) (fun d => add_node d None true) (mkWorld H g)
          = (mkWorld H g', Ok (map (fun _ => d0) (d0 :: ds))) /\
          filter same (g_nodes g') = [d0]) /\
    (forall x0 ds,
        (forall d, In d ds -> H d = DataSource interface datasource) ->
        filter same (g_nodes g) = [x0] -> in_degree g x0 = 0%nat ->
        forM ds (fun d => add_node d None true) (mkWorld H g)
        = (mkWorld H g, Ok (map (fun _ => x0) ds))).
Proof.
  intros H interface datasource g Hc same xs.
  split; [|split; [|split]].
  - intros d Hds Hin.
    pose proof (add_new_source H interface datasource g d Hc Hin Hds) as E.
    split; [|split].
    + intros Hxs. unfold xs, same in Hxs. cbv beta in Hxs.
      now rewrite Hxs in E.
    + intros x Hxs. unfold xs, same in Hxs. cbv beta in Hxs.
      now rewrite Hxs in E.
    + intros x y rest Hxs. unfold xs, same in Hxs. cbv beta in Hxs.
      now rewrite Hxs in E.
  - intros d Hin. unfold add_node, bind, get_world. simpl.
    now rewrite Hin.
  - intros d0 ds Hall Hcl Hf.
    destruct (@add_first_source H interface datasource g d0 Hc Hcl Hf)
      as (g' & E & Hc' & Hs); [apply Hall; now left|].
    exists g'. split; [|apply Hs].
    change (forM (d0 :: ds) (fun d => add_node d None true))
      with (bind (add_node d0 None true)
              (fun y => bind (forM ds (fun d => add_node d None true))
                          (fun ys => ret (y :: ys)))).
    unfold bind at 1. rewrite E. unfold bind.
    rewrite (@add_all_sole_source H interface datasource g' d0 ds Hc' Hs)
      by (intros; apply Hall; now right).
    reflexivity.
  - intros x0 ds Hall Hf Hd.
    apply (@add_all_sole_source H interface datasource g x0 ds Hc);
      [split; assumption|assumption].
Qed.

(** Four adds of DataSources of one content into an empty graph leave the
    first one; and in the graph whose first such node has a predecessor,
    the add of a new object returns the predecessor-free one. *)
Lemma singleton_law_witness :
  (exists g',
     forM [1; 14; 15; 1]%N (fun d => add_node d None true)
          (mkWorld Ex.H0 empty_graph)
     = (mkWorld Ex.H0 g', Ok [1; 1; 1; 1]%N) /\
     filter (fun x => has_same_content_as (Ex.H0 x) (DataSource "A" "t1"))
            (g_nodes g') = [1%N]) /\
  add_node 15%N None true (mkWorld Ex.H0 Ex.g_two_sources)
  = (mkWorld Ex.H0 Ex.g_two_sources, Ok 14%N).
Proof.
  split.
  - refine (proj1 (proj2 (proj2 (singleton_law Ex.H0 "A" "t1" empty_graph
                                   eq_refl)))
                  1%N [14; 15; 1]%N _ _ eq_refl).
    + intros d [<-|[<-|[<-|[<-|[]]]]]; reflexivity.
    + intros u v [].
  - exact (proj1 (proj2 (proj1 (singleton_law Ex.H0 "A" "t1" Ex.g_two_sources
                                  eq_refl)
                           15%N eq_refl eq_refl))
                 14%N eq_refl).
Defined.

(* ------------------------------------------------------------------ *)
(** ** Symbol table *)

Lemma vars_named_filter H g x :
  vars_named H g x = filter (fun n => is_var_named x (H n)) (g_nodes g).
Proof.
  unfold vars_named, get_nodes_by_type_and_attributes, get_nodes_by_type.
  rewrite <- filter_andb. apply filter_ext. intros n.
  unfold attr_match, isinstance, is_var_named. simpl.
  destruct (H n); simpl; try reflexivity.
  destruct (String.eqb name x); reflexivity.
Qed.

Lemma is_var_named_true x i :
  is_var_named x i = true <-> exists v, i = Variable' x v.
Proof.
  destruct i; simpl; split; try discriminate; try (intros [v E]; discriminate).
  - intros E. apply String.eqb_eq in E. subst. now exists version.
  - intros [v E]. injection E as -> _. apply String.eqb_refl.
Qed.

Lemma In_vars_named H g x n :
  In n (vars_named H g x) <->
  In n (g_nodes g) /\ exists v, H n = Variable' x v.
Proof.
  rewrite vars_named_filter, filter_In, is_var_named_true. reflexivity.
Qed.

Lemma sort_by_sorted key : forall l a k,
  map key l = iota a k -> sort_by key l = l.
Proof.
  induction l as [|n l IH]; intros a k E; [reflexivity|].
  destruct k as [|k]; [discriminate|].
  change (key n :: map key l = Z.of_nat a :: iota (S a) k) in E.
  injection E as E1 E2.
  cbn [sort_by]. rewrite (IH (S a) k E2).
  destruct l as [|m l]; [reflexivity|].
  destruct k as [|k]; [discriminate|].
  change (key m :: map key l = Z.of_nat (S a) :: iota (S (S a)) k) in E2.
  injection E2 as E2 _.
  assert (Hle : Z.leb (key n) (key m) = true)
    by (apply Z.leb_le; rewrite E1, E2; lia).
  cbn [insert_by]. now rewrite Hle.
Qed.

Lemma iota_NoDup a k : NoDup (iota a k).
Proof.
  unfold iota. apply Finite.Injective_map_NoDup; [|apply seq_NoDup].
  intros x y. apply Nat2Z.inj.
Qed.

Lemma iota_snoc a k : iota a (S k) = iota a k ++ [Z.of_nat (a + k)].
Proof. unfold iota. now rewrite seq_S, map_app. Qed.

Lemma nodup_length_le {X : Type} (dec : forall x y : X, {x = y} + {x <> y}) l :
  (List.length (nodup dec l) <= List.length l)%nat.
Proof.
  induction l as [|x l IH]; simpl; [lia|].
  destruct (in_dec dec x l); simpl; lia.
Qed.

Lemma nodup_length_lt {X : Type} (dec : forall x y : X, {x = y} + {x <> y}) l :
  ~ NoDup l -> (List.length (nodup dec l) < List.length l)%nat.
Proof.
  induction l as [|x l IH]; intros Hnd.
  - exfalso. apply Hnd. constructor.
  - simpl. destruct (in_dec dec x l) as [Hin|Hnin].
    + pose proof (nodup_length_le dec l). lia.
    + simpl. assert (~ NoDup l) by (intros Hl; apply Hnd; now constructor).
      apply IH in H. lia.
Qed.

(** [get_variable] on a name without repeated versions. *)
Lemma get_variable_distinct H g x :
  NoDup (map (fun n => version_of (H n)) (vars_named H g x)) ->
  vars_named H g x <> [] ->
  get_variable H g x
  = Ok (last (sort_by (fun n => version_of (H n)) (vars_named H g x)) 0%N).
Proof.
  intros Hnd Hne. unfold get_variable. fold (vars_named H g x).
  destruct (vars_named H g x) as [|n l] eqn:E; [congruence|].
  rewrite (nodup_fixed_point Z.eq_dec Hnd), length_map, Nat.ltb_irrefl.
  reflexivity.
Qed.

Lemma get_variable_not_found H g x :
  get_variable H g x = Raise VariableNotFound <-> vars_named H g x = [].
Proof.
  unfold get_variable. fold (vars_named H g x).
  destruct (vars_named H g x) as [|n l]; [tauto|].
  split; [|discriminate].
  destruct (_ <? _)%nat; discriminate.
Qed.

Lemma get_variable_duplicated H g x :
  ~ NoDup (map (fun n => version_of (H n)) (vars_named H g x)) ->
  get_variable H g x = Raise DuplicatedVariable.
Proof.
  intros Hnd. unfold get_variable. fold (vars_named H g x).
  destruct (vars_named H g x) as [|n l] eqn:E.
  - exfalso. apply Hnd. constructor.
  - apply (nodup_length_lt Z.eq_dec) in Hnd. rewrite length_map in Hnd.
    apply Nat.ltb_lt in Hnd. now rewrite Hnd.
Qed.

(** With versions [0..k-1] in node order the live variable is the last
    node of the name. *)
Lemma get_variable_iota H g x k :
  map (fun n => version_of (H n)) (vars_named H g x) = iota 0 (S k) ->
  exists ve,
    get_variable H g x = Ok ve /\
    ve = last (vars_named H g x) 0%N /\
    In ve (vars_named H g x) /\
    version_of (H ve) = Z.of_nat k.
Proof.
  intros E.
  assert (Hne : vars_named H g x <> []).
  { intros E0. rewrite E0 in E. discriminate. }
  exists (last (vars_named H g x) 0%N).
  rewrite get_variable_distinct, (@sort_by_sorted _ _ _ _ E); auto;
    [|rewrite E; apply iota_NoDup].
  split; [reflexivity|]. split; [reflexivity|].
  destruct (exists_last Hne) as (l & n & El). rewrite El in *.
  rewrite last_last. split; [apply in_or_app; right; now left|].
  rewrite map_app, iota_snoc in E. simpl in E.
  apply app_inj_tail in E as [_ E]. exact E.
Qed.

(* ------------------------------------------------------------------ *)
(** ** Variable SSA law *)

Lemma upd_same H n i : upd H n i n = i.
Proof. unfold upd. now rewrite N.eqb_refl. Qed.

Lemma upd_other H n i m : m <> n -> upd H n i m = H m.
Proof. unfold upd. intros E. apply N.eqb_neq in E. now rewrite E. Qed.

(** The effect of [add_node(node, d)] for a new Variable object [node]
    and a node [d] of the graph. *)
Lemma add_variable_step H g node d x v :
  g_class g = cIRGraph ->
  has_node g d = true ->
  has_node g node = false ->
  H node = Variable' x v ->
  add_node node (Some d) true (mkWorld H g) =
    match get_variable H g x with
    | Ok ve =>
        (mkWorld (upd H node (Variable' x (version_of (H ve) + 1)))
                 (nx_add_edge (nx_add_node g node) d node), Ok node)
    | Raise VariableNotFound =>
        (mkWorld (upd H node (Variable' x 0))
                 (nx_add_edge (nx_add_node g node) d node), Ok node)
    | Raise e => (mkWorld H g, Raise e)
    end.
Proof.
  intros Hc Hd Hn Hv.
  unfold add_node, bind, get_world. simpl. rewrite Hn. simpl.
  rewrite Hv. unfold isinstance at 1.
  unfold _add_node_with_dependent_node, bind, get_world. simpl.
  rewrite Hd, Hn. simpl. rewrite Hv. unfold isinstance at 1 2. simpl.
  assert (Hedge : forall H',
    H' node = Variable' x (version_of (H' node)) ->
    add_edge d node false (mkWorld H' g)
    = (mkWorld H' (nx_add_edge (nx_add_node g node) d node), Ok tt)).
  { intros H' E. unfold add_edge, _add_node, IRGraph__add_node. mrun.
    repeat (first [rewrite Hc | rewrite Hd | rewrite Hn]; mrun).
    rewrite E. unfold isinstance. reflexivity. }
  destruct (get_variable H g x) as [ve|e].
  - unfold modify_heap, ret. simpl. rewrite Hv. simpl.
    rewrite Hedge by (now rewrite upd_same). reflexivity.
  - destruct e; try reflexivity.
    unfold modify_heap, ret. simpl. rewrite Hv. simpl.
    rewrite Hedge by (now rewrite upd_same). reflexivity.
Qed.

Lemma nx_add_edge_nodes g node d :
  has_node g d = true ->
  has_node g node = false ->
  g_nodes (nx_add_edge (nx_add_node g node) d node) = g_nodes g ++ [node].
Proof.
  intros Hd Hn.
  assert (E1 : nx_add_node g node = set_nodes g (g_nodes g ++ [node]))
    by (unfold nx_add_node; now rewrite Hn).
  assert (Hd' : has_node (nx_add_node g node) d = true).
  { rewrite E1. unfold has_node. simpl. apply mem_In, in_or_app. left.
    now apply mem_In. }
  assert (Hn' : has_node (nx_add_node g node) node = true).
  { rewrite E1. unfold has_node. simpl. apply mem_In, in_or_app. right.
    now left. }
  unfold nx_add_edge.
  assert (E2 : nx_add_node (nx_add_node (nx_add_node g node) d) node
               = nx_add_node g node).
  { unfold nx_add_node at 2. rewrite Hd'. unfold nx_add_node at 1.
    now rewrite Hn'. }
  rewrite E2. destruct (mem_edge _ _); simpl; now rewrite E1.
Qed.

Lemma nx_add_edge_class g node d :
  g_class (nx_add_edge (nx_add_node g node) d node) = g_class g.
Proof.
  unfold nx_add_edge, nx_add_node.
  repeat match goal with
         | |- context [if ?b then _ else _] => destruct b; simpl
         end; reflexivity.
Qed.

(** Writing the version of a node outside the graph and appending it. *)
Lemma vars_named_snoc H g node x ver :
  has_node g node = false ->
  forall g', g_nodes g' = g_nodes g ++ [node] ->
  vars_named (upd H node (Variable' x ver)) g' x = vars_named H g x ++ [node]
  /\ map (fun n => version_of (upd H node (Variable' x ver) n))
         (vars_named (upd H node (Variable' x ver)) g' x)
     = map (fun n => version_of (H n)) (vars_named H g x) ++ [ver].
Proof.
  intros Hn g' Eg.
  assert (Hagree : forall n, In n (g_nodes g) ->
                             upd H node (Variable' x ver) n = H n).
  { intros n Hin. apply upd_other. intros ->.
    apply mem_false in Hn. contradiction. }
  assert (E : vars_named (upd H node (Variable' x ver)) g' x
              = vars_named H g x ++ [node]).
  { rewrite !vars_named_filter, Eg, filter_app. simpl.
    rewrite upd_same. simpl. rewrite String.eqb_refl. f_equal.
    apply filter_ext_in. intros n Hin. now rewrite Hagree. }
  split; [exact E|].
  rewrite E, map_app. simpl. rewrite upd_same. simpl. f_equal.
  apply map_ext_in. intros n Hin. rewrite Hagree; [reflexivity|].
  now apply In_vars_named in Hin.
Qed.

Lemma adds_ok_fresh l : forall ns n d,
  adds_ok ns l -> In (n, d) l -> ~ In n ns.
Proof.
  induction l as [|[n0 d0] l IH]; intros ns n d Hok Hin; [destruct Hin|].
  destruct Hok as (_ & Hf & Hok). destruct Hin as [E|Hin].
  - now injection E as <- <-.
  - intros Hn. apply (IH _ _ _ Hok Hin). apply in_or_app. now left.
Qed.

Lemma NoDup_map_inj {X Y : Type} (f : X -> Y) l a b :
  NoDup (map f l) -> In a l -> In b l -> f a = f b -> a = b.
Proof.
  induction l as [|c l IH]; intros Hnd Ha Hb E; [destruct Ha|].
  simpl in Hnd. inversion Hnd as [|? ? Hc Hl]; subst.
  destruct Ha as [->|Ha], Hb as [->|Hb]; auto.
  - exfalso. apply Hc. rewrite E. now apply in_map.
  - exfalso. apply Hc. rewrite <- E. now apply in_map.
Qed.

Lemma add_variables x : forall l H g k,
  g_class g = cIRGraph ->
  map (fun n => version_of (H n)) (vars_named H g x) = iota 0 k ->
  (forall n d, In (n, d) l -> exists v, H n = Variable' x v) ->
  adds_ok (g_nodes g) l ->
  exists H' g',
    forM l (fun nd => add_node (fst nd) (Some (snd nd)) true) (mkWorld H g)
    = (mkWorld H' g', Ok (map fst l)) /\
    g_class g' = cIRGraph /\
    map (fun n => version_of (H' n)) (vars_named H' g' x)
    = iota 0 (k + List.length l) /\
    vars_named H' g' x = vars_named H g x ++ map fst l.
Proof.
  induction l as [|[n d] l IH]; intros H g k Hc Hver Hvars Hok.
  - exists H, g. simpl. rewrite Nat.add_0_r, app_nil_r. auto.
  - destruct Hok as (Hd & Hn & Hok).
    destruct (Hvars n d (or_introl eq_refl)) as [v Hv].
    apply mem_In in Hd. apply mem_false in Hn.
    pose (H1 := upd H n (Variable' x (Z.of_nat k))).
    pose (g1 := nx_add_edge (nx_add_node g n) d n).
    assert (Estep : add_node n (Some d) true (mkWorld H g)
                    = (mkWorld H1 g1, Ok n)).
    { rewrite (add_variable_step H g n d x v Hc Hd Hn Hv).
      destruct k as [|k].
      - assert (E0 : vars_named H g x = [])
          by (destruct (vars_named H g x); [reflexivity|discriminate]).
        apply get_variable_not_found in E0. rewrite E0. reflexivity.
      - destruct (get_variable_iota H g x k Hver) as (ve & E & _ & _ & Ev).
        rewrite E, Ev. unfold H1, g1. do 4 f_equal. lia. }
    assert (Eg1 : g_nodes g1 = g_nodes g ++ [n])
      by (apply nx_add_edge_nodes; assumption).
    destruct (vars_named_snoc H g n x (Z.of_nat k) Hn g1 Eg1) as [Ev1 Em1].
    fold H1 in Ev1, Em1.
    destruct (IH H1 g1 (S k)) as (H' & g' & E' & Hc' & Hver' & Hv').
    + unfold g1. now rewrite nx_add_edge_class.
    + rewrite Em1, Hver, iota_snoc. reflexivity.
    + intros n' d' Hin. destruct (Hvars n' d' (or_intror Hin)) as [v' Hv''].
      exists v'. unfold H1. rewrite upd_other; [assumption|].
      intros ->. apply (adds_ok_fresh _ _ _ _ Hok Hin).
      apply in_or_app. right. now left.
    + now rewrite Eg1.
    + exists H', g'. split; [|split; [assumption|split]].
      * change (forM ((n, d) :: l)
                  (fun nd => add_node (fst nd) (Some (snd nd)) true))
          with (bind (add_node n (Some d) true)
                  (fun y => bind (forM l (fun nd =>
                                   add_node (fst nd) (Some (snd nd)) true))
                              (fun ys => ret (y :: ys)))).
        unfold bind at 1. rewrite Estep. unfold bind. rewrite E'. reflexivity.
      * rewrite Hver'. f_equal. simpl. lia.
      * rewrite Hv', Ev1, <- app_assoc. reflexivity.
Qed.

(** C2. Variable SSA law: after adding k new Variable nodes of a name, each
    with a predecessor that is in the graph, to a graph that holds no
    variable of the name, the versions of the name are exactly 0, ..., k-1
    (in node order) and [get_variable] returns the last one added, whose
    version is k-1.  [get_variable] raises VariableNotFound when the graph
    holds no variable of the name and DuplicatedVariable when two
    variables of the name share a version. *)
Theorem variable_ssa_law :
  forall (H : Heap) (g : IRGraph) (x : string) (l : list (UUID * UUID)),
    g_class g = cIRGraph ->
    vars_named H g x = [] ->
    (forall n d, In (n, d) l -> exists v, H n = Variable' x v) ->
    adds_ok (g_nodes g) l ->
    (exists H' g',
        forM l (fun nd => add_node (fst nd) (Some (snd nd)) true) (mkWorld H g)
        = (mkWorld H' g', Ok (map fst l)) /\
        vars_named H' g' x = map fst l /\
        map (fun n => version_of (H' n)) (vars_named H' g' x)
        = iota 0 (List.length l) /\
        (l <> [] ->
         get_variable H' g' x = Ok (last (map fst l) 0%N) /\
         version_of (H' (last (map fst l) 0%N)) = Z.of_nat (List.length l) - 1)) /\
    (forall H2 g2,
        (forall n v, In n (g_nodes g2) -> H2 n <> Variable' x v) ->
        get_variable H2 g2 x = Raise VariableNotFound) /\
    (forall H2 g2 a b v,
        In a (g_nodes g2) -> In b (g_nodes g2) -> a <> b ->
        H2 a = Variable' x v -> H2 b = Variable' x v ->
        get_variable H2 g2 x = Raise DuplicatedVariable).
Proof.
  intros H g x l Hc H0 Hvars Hok. split; [|split].
  - destruct (add_variables x l H g 0 Hc) as (H' & g' & E & _ & Hver & Hv);
      try assumption.
    { now rewrite H0. }
    rewrite H0 in Hv. simpl in Hv, Hver.
    exists H', g'. split; [exact E|]. split; [exact Hv|]. split; [exact Hver|].
    intros Hne. destruct l as [|p l]; [congruence|].
    destruct (get_variable_iota H' g' x (List.length l) Hver)
      as (ve & Eg & El & _ & Ev).
    rewrite Hv in El. subst ve. split; [exact Eg|]. rewrite Ev.
    simpl List.length. lia.
  - intros H2 g2 Hno. apply get_variable_not_found.
    destruct (vars_named H2 g2 x) as [|n r] eqn:E; [reflexivity|].
    assert (Hin : In n (vars_named H2 g2 x)) by (rewrite E; now left).
    apply In_vars_named in Hin as (Hin & v & Hv). now apply Hno in Hv.
  - intros H2 g2 a b v Ha Hb Hab Hva Hvb. apply get_variable_duplicated.
    intros Hnd. apply Hab.
    apply (NoDup_map_inj _ _ a b Hnd).
    + apply In_vars_named. eauto.
    + apply In_vars_named. eauto.
    + now rewrite Hva, Hvb.
Qed.

(** S2: two assignments to [x] in a row. *)
Lemma variable_ssa_law_witness :
  exists H' g',
    forM [(3, 1); (6, 3); (13, 1)]%N
         (fun nd => add_node (fst nd) (Some (snd nd)) true)
         (mkWorld Ex.H0 (mkGraph cIRGraph [1%N] [] None))
    = (mkWorld H' g', Ok [3; 6; 13]%N) /\
    vars_named H' g' "x" = [3; 6; 13]%N /\
    map (fun n => version_of (H' n)) (vars_named H' g' "x") = [0; 1; 2] /\
    get_variable H' g' "x" = Ok 13%N.
Proof.
  destruct (proj1 (variable_ssa_law Ex.H0 (mkGraph cIRGraph [1%N] [] None) "x"
                     [(3, 1); (6, 3); (13, 1)]%N eq_refl eq_refl
                     (fun n d Hin =>
                        match Hin with
                        | or_introl E =>
                            ex_intro _ 0 (f_equal (fun p => Ex.H0 (fst p)) (eq_sym E))
                        | or_intror (or_introl E) =>
                            ex_intro _ 0 (f_equal (fun p => Ex.H0 (fst p)) (eq_sym E))
                        | or_intror (or_intror (or_introl E)) =>
                            ex_intro _ 0 (f_equal (fun p => Ex.H0 (fst p)) (eq_sym E))
                        | or_intror (or_intror (or_intror F)) =>
                            match F with end
                        end)
                     ltac:(simpl; intuition (discriminate || lia || auto))))
    as (H' & g' & E & Hv & Hver & Hlast).
  exists H', g'. split; [exact E|]. split; [exact Hv|]. split; [exact Hver|].
  apply Hlast. discriminate.
Defined.

(* ------------------------------------------------------------------ *)
(** ** What every mutating method preserves *)

Section Preserves.
Variable R : World -> World -> Prop.
Hypothesis R_refl : forall w, R w w.
Hypothesis R_trans : forall w1 w2 w3, R w1 w2 -> R w2 w3 -> R w1 w3.

Lemma preserves_ret {A : Type} (a : A) : preserves R (ret a).
Proof using R_refl R_trans. intros w w' r E. injection E as <- _. apply R_refl. Qed.

Lemma preserves_raise {A : Type} (e : Error) : preserves R (@raise A e).
Proof using R_refl R_trans. intros w w' r E. injection E as <- _. apply R_refl. Qed.

Lemma preserves_lift {A : Type} (x : result A) : preserves R (lift x).
Proof using R_refl R_trans. intros w w' r E. injection E as <- _. apply R_refl. Qed.

Lemma preserves_bind {A B : Type} (c : M A) (k : A -> M B) :
  preserves R c -> (forall a, preserves R (k a)) -> preserves R (bind c k).
Proof using R_refl R_trans.
  intros Hc Hk w w' r E. unfold bind in E.
  destruct (c w) as [w1 [a|e]] eqn:Ec.
  - eapply R_trans; [eapply Hc; eauto|eapply Hk; eauto].
  - injection E as <- _. eapply Hc; eauto.
Qed.

Lemma preserves_get_world {B : Type} (k : World -> M B) :
  (forall w, preserves R (k w)) -> preserves R (bind get_world k).
Proof using R_refl R_trans.
  intros Hk. apply preserves_bind; [|assumption].
  intros w w' r E. injection E as <- _. apply R_refl.
Qed.

Lemma preserves_forM {A B : Type} (xs : list A) (body : A -> M B) :
  (forall x, In x xs -> preserves R (body x)) -> preserves R (forM xs body).
Proof using R_refl R_trans.
  induction xs as [|x xs IH]; intros Hb; simpl.
  - apply preserves_ret.
  - apply preserves_bind; [apply Hb; now left|]. intros y.
    apply preserves_bind; [apply IH; intros; apply Hb; now right|].
    intros ys. apply preserves_ret.
Qed.

Lemma preserves_forM_ {A : Type} (xs : list A) (body : A -> M unit) :
  (forall x, In x xs -> preserves R (body x)) -> preserves R (forM_ xs body).
Proof using R_refl R_trans.
  induction xs as [|x xs IH]; intros Hb; simpl.
  - apply preserves_ret.
  - apply preserves_bind; [apply Hb; now left|]. intros _.
    apply IH. intros; apply Hb; now right.
Qed.

Lemma preserves_if {A : Type} (b : bool) (c1 c2 : M A) :
  preserves R c1 -> preserves R c2 -> preserves R (if b then c1 else c2).
Proof using R_refl R_trans. destruct b; auto. Qed.
End Preserves.

Lemma same_object_refl i : same_object i i.
Proof. destruct i; simpl; auto. Qed.

Lemma same_object_trans i j k :
  same_object i j -> same_object j k -> same_object i k.
Proof.
  destruct i, j; simpl; intros E1 E2; try discriminate; subst; auto;
    destruct k; simpl in *; try discriminate; auto; congruence.
Qed.

Lemma same_object_set_version i v : same_object i (set_version i v).
Proof. destruct i; simpl; auto. Qed.

Lemma same_object_set_sequence i s : same_object i (set_sequence i s).
Proof. destruct i; simpl; auto. Qed.

Lemma same_object_isinstance i j t :
  same_object i j -> isinstance j t = isinstance i t.
Proof.
  destruct i, j; simpl; intros E; try discriminate; subst; auto;
    try (injection E as -> ->); try (injection E as ->); reflexivity.
Qed.

Lemma grows_refl w : grows w w.
Proof.
  repeat split; auto using incl_refl. intros n. apply same_object_refl.
Qed.

Lemma grows_trans w1 w2 w3 : grows w1 w2 -> grows w2 w3 -> grows w1 w3.
Proof.
  intros (A1 & B1 & C1 & D1) (A2 & B2 & C2 & D2). repeat split.
  - intros n. eapply same_object_trans; eauto.
  - eapply incl_tran; eauto.
  - eapply incl_tran; eauto.
  - congruence.
Qed.

Lemma grows_graph_refl w : grows_graph w w.
Proof. repeat split; auto using incl_refl. Qed.

Lemma grows_graph_trans w1 w2 w3 :
  grows_graph w1 w2 -> grows_graph w2 w3 -> grows_graph w1 w3.
Proof.
  intros (A1 & B1 & C1 & D1) (A2 & B2 & C2 & D2). repeat split.
  - congruence.
  - eapply incl_tran; eauto.
  - eapply incl_tran; eauto.
  - congruence.
Qed.

Lemma grows_graph_grows w w' : grows_graph w w' -> grows w w'.
Proof.
  intros (A & B & C & D). repeat split; auto.
  intros n. rewrite A. apply same_object_refl.
Qed.

Lemma nx_add_node_incl g n : incl (g_nodes g) (g_nodes (nx_add_node g n)).
Proof.
  unfold nx_add_node. destruct (has_node g n); simpl.
  - apply incl_refl.
  - apply incl_appl, incl_refl.
Qed.

Lemma nx_add_node_edges g n : g_edges (nx_add_node g n) = g_edges g.
Proof. unfold nx_add_node. now destruct (has_node g n). Qed.

Lemma nx_add_node_class g n : g_class (nx_add_node g n) = g_class g.
Proof. unfold nx_add_node. now destruct (has_node g n). Qed.

Lemma nx_add_node_interface g n :
  g_interface (nx_add_node g n) = g_interface g.
Proof. unfold nx_add_node. now destruct (has_node g n). Qed.

Lemma nx_add_node_In g n : In n (g_nodes (nx_add_node g n)).
Proof.
  unfold nx_add_node. destruct (has_node g n) eqn:E; simpl.
  - now apply mem_In.
  - apply in_or_app. right. now left.
Qed.

Lemma nx_add_edge_incl g u v : incl (g_nodes g) (g_nodes (nx_add_edge g u v)).
Proof.
  unfold nx_add_edge.
  assert (incl (g_nodes g) (g_nodes (nx_add_node (nx_add_node g u) v)))
    by (eapply incl_tran; apply nx_add_node_incl).
  destruct (mem_edge _ _); simpl; assumption.
Qed.

Lemma nx_add_edge_edges_incl g u v :
  incl (g_edges g) (g_edges (nx_add_edge g u v)).
Proof.
  unfold nx_add_edge. destruct (mem_edge _ _); simpl;
    rewrite !nx_add_node_edges; [apply incl_refl|apply incl_appl, incl_refl].
Qed.

Lemma nx_add_edge_class' g u v : g_class (nx_add_edge g u v) = g_class g.
Proof.
  unfold nx_add_edge. destruct (mem_edge _ _); simpl;
    now rewrite !nx_add_node_class.
Qed.

(** Decomposes a goal [preserves R c] along the structure of [c]. *)
Ltac pres R Rr Rt :=
  repeat lazymatch goal with
    | |- preserves _ (bind get_world _) =>
        apply (preserves_get_world R Rr Rt); intros ?
    | |- preserves _ (bind _ _) =>
        apply (preserves_bind R Rr Rt); [|intros ?]
    | |- preserves _ (ret _) => apply (preserves_ret R Rr Rt)
    | |- preserves _ (raise _) => apply (preserves_raise R Rr Rt)
    | |- preserves _ (lift _) => apply (preserves_lift R Rr Rt)
    | |- preserves _ (forM _ _) =>
        apply (preserves_forM R Rr Rt); intros ? ?
    | |- preserves _ (forM_ _ _) =>
        apply (preserves_forM_ R Rr Rt); intros ? ?
    | |- preserves _ (if _ then _ else _) =>
        apply (preserves_if R Rr Rt)
    end.

Ltac pres_graph := pres grows_graph grows_graph_refl grows_graph_trans.

Lemma grows_graph_modify_self f :
  (forall g, incl (g_nodes g) (g_nodes (f g)) /\
             incl (g_edges g) (g_edges (f g)) /\
             g_class (f g) = g_class g) ->
  preserves grows_graph (modify_self f).
Proof.
  intros Hf w w' r E. injection E as <- _.
  destruct (Hf (self w)) as (A & B & C). repeat split; simpl; auto.
Qed.

Lemma grows_graph_nx_add_node n :
  preserves grows_graph (modify_self (fun g => nx_add_node g n)).
Proof.
  apply grows_graph_modify_self. intros g.
  rewrite nx_add_node_edges, nx_add_node_class.
  auto using nx_add_node_incl, incl_refl.
Qed.

Lemma grows_graph_add_singleton n :
  preserves grows_graph (_add_singleton_instruction n).
Proof.
  unfold _add_singleton_instruction. pres_graph.
  destruct (filter _ _) as [|x [|y l]]; pres_graph.
  apply grows_graph_nx_add_node.
Qed.

Lemma grows_graph_IRGraph__add_node n deref :
  preserves grows_graph (IRGraph__add_node n deref).
Proof.
  unfold IRGraph__add_node. pres_graph;
    try apply grows_graph_add_singleton; try apply grows_graph_nx_add_node.
  destruct (get_variable _ _ _) as [v|[]]; pres_graph;
    apply grows_graph_add_singleton.
Qed.

Lemma grows_graph__add_node n deref : preserves grows_graph (_add_node n deref).
Proof.
  unfold _add_node. pres_graph.
  destruct (g_class _); [apply grows_graph_IRGraph__add_node|].
  unfold IRGraphEvaluable__add_node. pres_graph;
    try apply grows_graph_IRGraph__add_node.
  apply grows_graph_modify_self. intros g. simpl. auto using incl_refl.
Qed.

Lemma grows_graph_add_edge u v deref : preserves grows_graph (add_edge u v deref).
Proof.
  unfold add_edge. pres_graph; try apply grows_graph__add_node.
  apply grows_graph_modify_self. intros g.
  auto using nx_add_edge_incl, nx_add_edge_edges_incl, nx_add_edge_class'.
Qed.

Lemma grows_graph_add_edges_from es deref :
  preserves grows_graph (add_edges_from es deref).
Proof.
  unfold add_edges_from. pres_graph. apply grows_graph_add_edge.
Qed.

Lemma preserves_weaken {A : Type} (R R' : World -> World -> Prop) (c : M A) :
  (forall w w', R w w' -> R' w w') -> preserves R c -> preserves R' c.
Proof. intros HR Hc w w' r E. eapply HR, Hc, E. Qed.

Ltac pres_grows := pres grows grows_refl grows_trans.

Lemma grows_modify_heap f :
  (forall H n, same_object (H n) (f H n)) -> preserves grows (modify_heap f).
Proof.
  intros Hf w w' r E. injection E as <- _.
  repeat split; simpl; auto using incl_refl.
Qed.

Lemma same_object_upd H n i m :
  same_object (H n) i -> same_object (H m) (upd H n i m).
Proof.
  intros Hs. unfold upd. destruct (N.eqb_spec m n) as [->|_];
    [assumption|apply same_object_refl].
Qed.

Lemma grows__add_node n deref : preserves grows (_add_node n deref).
Proof.
  eapply preserves_weaken; [apply grows_graph_grows|apply grows_graph__add_node].
Qed.

(** [update] never removes a node or an edge of [self] and never changes
    what kind of object a node is, whether it returns or raises. *)
Lemma grows_update ng : preserves grows (update ng).
Proof.
  unfold update. pres_grows; try apply grows__add_node.
  - apply grows_modify_heap. intros Hp n.
    destruct (dict_get _ _ _); [|apply same_object_refl].
    apply same_object_upd, same_object_set_version.
  - apply grows_modify_heap. intros Hp n.
    apply same_object_upd, same_object_set_sequence.
  - eapply preserves_weaken;
      [apply grows_graph_grows|apply grows_graph_add_edges_from].
Qed.

(* ------------------------------------------------------------------ *)
(** ** Sorting *)

Lemma insert_by_In key x l y : In y (insert_by key x l) <-> y = x \/ In y l.
Proof.
  induction l as [|z l IH]; simpl.
  - intuition.
  - destruct (Z.leb (key x) (key z)); simpl; [intuition|].
    rewrite IH. intuition.
Qed.

Lemma sort_by_In key l y : In y (sort_by key l) <-> In y l.
Proof.
  induction l as [|x l IH]; simpl; [tauto|].
  rewrite insert_by_In, IH. intuition.
Qed.

Lemma insert_by_sorted key x l :
  is_sorted key l -> is_sorted key (insert_by key x l).
Proof.
  induction l as [|z l IH]; intros Hs; simpl; [exact I|].
  destruct (Z.leb_spec (key x) (key z)).
  - simpl. auto.
  - destruct l as [|z' l].
    + simpl. split; [lia|exact I].
    + destruct Hs as [Hzz Hs]. specialize (IH Hs). simpl in *.
      destruct (Z.leb_spec (key x) (key z')); simpl in *; intuition lia.
Qed.

Lemma sort_by_sorted' key l : is_sorted key (sort_by key l).
Proof.
  induction l as [|x l IH]; simpl; [exact I|].
  now apply insert_by_sorted.
Qed.

Lemma sorted_last_max key l d :
  is_sorted key l -> forall n, In n l -> key n <= key (last l d).
Proof.
  induction l as [|x l IH]; intros Hs n Hin; [destruct Hin|].
  destruct l as [|y l].
  - destruct Hin as [->|[]]. simpl. lia.
  - destruct Hs as [Hxy Hs]. specialize (IH Hs).
    change (last (x :: y :: l) d) with (last (y :: l) d).
    destruct Hin as [->|Hin]; [|now apply IH].
    specialize (IH y (or_introl eq_refl)). lia.
Qed.

Lemma last_In {X : Type} (l : list X) d : l <> [] -> In (last l d) l.
Proof.
  intros Hne. destruct (exists_last Hne) as (l' & x & ->).
  rewrite last_last. apply in_or_app. right. now left.
Qed.

(** The node that [get_variable] returns is a variable of the name in the
    graph and no variable of the name has a higher version. *)
Lemma get_variable_Ok H g x v :
  get_variable H g x = Ok v ->
  In v (vars_named H g x) /\
  forall n, In n (vars_named H g x) -> version_of (H n) <= version_of (H v).
Proof.
  unfold get_variable. fold (vars_named H g x).
  destruct (vars_named H g x) as [|n0 l] eqn:E; [discriminate|].
  destruct (_ <? _)%nat; [discriminate|].
  intros Ev. injection Ev as <-.
  set (key := fun n => version_of (H n)).
  assert (Hne : sort_by key (n0 :: l) <> []).
  { intros E0.
    assert (Hin : In n0 (sort_by key (n0 :: l)))
      by (apply sort_by_In; now left).
    rewrite E0 in Hin. destruct Hin. }
  split.
  - apply (sort_by_In key). now apply last_In.
  - intros n Hin.
    apply (sorted_last_max key _ 0%N (sort_by_sorted' key (n0 :: l))).
    now apply sort_by_In.
Qed.

(* ------------------------------------------------------------------ *)
(** ** The phases of [update] *)

Lemma forM__modify_heap {A : Type} (f : A -> Heap -> Heap) l H g :
  forM_ l (fun x => modify_heap (f x)) (mkWorld H g)
  = (mkWorld (fold_left (fun H x => f x H) l H) g, Ok tt).
Proof.
  revert H. induction l as [|x l IH]; intros H; [reflexivity|].
  simpl. unfold bind at 1. unfold modify_heap at 1. simpl. apply IH.
Qed.

Lemma update_unfold H g ng :
  update ng (mkWorld H g)
  = match get_variables H g with
    | Raise e => (mkWorld H g, Raise e)
    | Ok ovs => merge ng (mkWorld (prepared H g ng ovs) g)
    end.
Proof.
  unfold update. unfold bind at 1. unfold get_world at 1. cbn beta iota.
  unfold bind at 1. unfold lift at 1. cbn [heap self].
  destruct (get_variables H g) as [ovs|e]; [|reflexivity].
  unfold bind at 1. rewrite forM__modify_heap.
  unfold bind at 1. unfold get_world at 1. cbn beta iota.
  unfold bind at 1. cbn [heap self]. rewrite forM__modify_heap.
  reflexivity.
Qed.

Lemma map_result_Forall2 {A B : Type} (f : A -> result B) l ys :
  map_result f l = Ok ys -> Forall2 (fun x y => f x = Ok y) l ys.
Proof.
  revert ys. induction l as [|x l IH]; intros ys E; simpl in E.
  - injection E as <-. constructor.
  - destruct (f x) as [y|e] eqn:Ex; [|discriminate].
    destruct (map_result f l) as [ys'|e]; [|discriminate].
    injection E as <-. constructor; auto.
Qed.

Lemma name_of_var_named H g x n : In n (vars_named H g x) -> name_of (H n) = x.
Proof. intros Hin. apply In_vars_named in Hin as (_ & v & ->). reflexivity. Qed.

Lemma dict_get_snapshot H g names ovs :
  Forall2 (fun x v => get_variable H g x = Ok v) names ovs ->
  forall x,
    match dict_get String.eqb (map (fun v => (name_of (H v), v)) ovs) x with
    | Some ov => get_variable H g x = Ok ov
    | None => ~ In x names
    end.
Proof.
  induction 1 as [|y v names ovs Ey E IH]; intros x; simpl; [tauto|].
  specialize (IH x).
  destruct (dict_get String.eqb (map (fun v => (name_of (H v), v)) ovs) x)
    as [ov|]; [assumption|].
  destruct (get_variable_Ok H g y v Ey) as [Hin _].
  rewrite (name_of_var_named H g y v Hin).
  destruct (String.eqb_spec y x) as [->|Hne]; [assumption|].
  intros [E'|Hin']; [congruence|contradiction].
Qed.

(** The snapshot [original_variables] of [update]: the live variable of
    every name of [g], and nothing for the other names. *)
Lemma get_variables_Ok H g ovs :
  get_variables H g = Ok ovs ->
  forall x,
    match dict_get String.eqb (map (fun v => (name_of (H v), v)) ovs) x with
    | Some ov => get_variable H g x = Ok ov
    | None => vars_named H g x = []
    end.
Proof.
  unfold get_variables. intros E x.
  apply map_result_Forall2 in E.
  pose proof (dict_get_snapshot H g _ ovs E x) as Hs.
  destruct (dict_get String.eqb (map (fun v => (name_of (H v), v)) ovs) x)
    as [ov|]; [assumption|].
  destruct (vars_named H g x) as [|n l] eqn:Ev; [reflexivity|].
  exfalso. apply Hs. apply nodup_In.
  assert (Hin : In n (vars_named H g x)) by (rewrite Ev; now left).
  rewrite <- (name_of_var_named H g x n Hin).
  apply (in_map (fun v => name_of (H v))).
  apply In_vars_named in Hin as (Hin & v & Hv).
  unfold get_nodes_by_type. apply filter_In. split; [assumption|].
  now rewrite Hv.
Qed.

Lemma mem_cons n m l : mem n (m :: l) = N.eqb n m || mem n l.
Proof. reflexivity. Qed.

Lemma shift_versions_spec ovs nvs : forall H,
  NoDup nvs ->
  (forall x ov, dict_get String.eqb ovs x = Some ov -> ~ In ov nvs) ->
  forall n,
    shift_versions ovs nvs H n
    = if mem n nvs then
        match dict_get String.eqb ovs (name_of (H n)) with
        | Some ov => set_version (H n)
                       (version_of (H n) + (version_of (H ov) + 1))
        | None => H n
        end
      else H n.
Proof.
  induction nvs as [|nv nvs IH]; intros H Hnd Hov n; [reflexivity|].
  inversion Hnd as [|? ? Hnv Hnd']; subst.
  set (H' := match dict_get String.eqb ovs (name_of (H nv)) with
             | Some ov => upd H nv (set_version (H nv)
                                      (version_of (H nv) + (version_of (H ov) + 1)))
             | None => H
             end).
  change (shift_versions ovs (nv :: nvs) H) with (shift_versions ovs nvs H').
  rewrite IH; auto.
  2:{ intros x ov E Hin. apply (Hov x ov E). now right. }
  assert (Hother : forall m, m <> nv -> H' m = H m).
  { intros m Hm. unfold H'. destruct (dict_get _ _ _); [|reflexivity].
    now apply upd_other. }
  rewrite mem_cons. destruct (N.eqb_spec n nv) as [->|Hne]; simpl.
  - apply mem_false in Hnv. rewrite Hnv. unfold H'.
    destruct (dict_get _ _ _); [apply upd_same|reflexivity].
  - rewrite (Hother n Hne). destruct (mem n nvs); [|reflexivity].
    destruct (dict_get String.eqb ovs (name_of (H n))) as [ov|] eqn:E;
      [|reflexivity].
    rewrite Hother; [reflexivity|].
    intros ->. apply (Hov _ _ E). now left.
Qed.

Lemma shift_sequences_spec rms nrs : forall H,
  NoDup nrs ->
  forall n,
    shift_sequences rms nrs H n
    = if mem n nrs then set_sequence (H n) (sequence_of (H n) + (rms + 1))
      else H n.
Proof.
  induction nrs as [|nr nrs IH]; intros H Hnd n; [reflexivity|].
  inversion Hnd as [|? ? Hnr Hnd']; subst.
  set (H' := upd H nr (set_sequence (H nr) (sequence_of (H nr) + (rms + 1)))).
  change (shift_sequences rms (nr :: nrs) H) with (shift_sequences rms nrs H').
  rewrite IH; auto.
  rewrite mem_cons. destruct (N.eqb_spec n nr) as [->|Hne]; simpl.
  - apply mem_false in Hnr. rewrite Hnr. apply upd_same.
  - unfold H'. now rewrite upd_other.
Qed.

Lemma insert_by_perm key x l : Permutation (insert_by key x l) (x :: l).
Proof.
  induction l as [|y l IH]; simpl; [apply Permutation_refl|].
  destruct (Z.leb (key x) (key y)); [apply Permutation_refl|].
  eapply perm_trans; [apply perm_skip, IH|apply perm_swap].
Qed.

Lemma sort_by_perm key l : Permutation (sort_by key l) l.
Proof.
  induction l as [|x l IH]; simpl; [constructor|].
  eapply perm_trans; [apply insert_by_perm|now apply perm_skip].
Qed.

Lemma insert_by_ext key key' x l :
  (forall n, In n (x :: l) -> key n = key' n) ->
  insert_by key x l = insert_by key' x l.
Proof.
  induction l as [|y l IH]; intros E; [reflexivity|].
  simpl. rewrite (E x), (E y) by (simpl; auto).
  destruct (Z.leb (key' x) (key' y)); [reflexivity|].
  f_equal. apply IH. intros n [->|Hin]; apply E; simpl; auto.
Qed.

Lemma sort_by_ext key key' l :
  (forall n, In n l -> key n = key' n) -> sort_by key l = sort_by key' l.
Proof.
  induction l as [|x l IH]; intros E; [reflexivity|].
  simpl. rewrite IH by (intros; apply E; now right).
  apply insert_by_ext. intros n [->|Hin]; apply E; [now left|right].
  now apply sort_by_In in Hin.
Qed.

Lemma get_returns_ext H H' g :
  (forall n, In n (g_nodes g) -> H' n = H n) ->
  get_returns H' g = get_returns H g.
Proof.
  intros E. unfold get_returns, get_nodes_by_type.
  rewrite (filter_ext_in (fun n => isinstance (H' n) TReturn)
                         (fun n => isinstance (H n) TReturn))
    by (intros n Hin; now rewrite E).
  apply sort_by_ext. intros n Hin. apply filter_In in Hin as [Hin _].
  now rewrite E.
Qed.

Lemma get_max_return_sequence_ext H H' g :
  (forall n, In n (g_nodes g) -> H' n = H n) ->
  get_max_return_sequence H' g = get_max_return_sequence H g.
Proof.
  intros E. unfold get_max_return_sequence.
  rewrite (get_returns_ext H H' g E).
  rewrite (map_ext_in (fun x => sequence_of (H' x)) (fun x => sequence_of (H x)));
    [reflexivity|].
  intros n Hin. unfold get_returns in Hin. apply sort_by_In in Hin.
  apply filter_In in Hin as [Hin _]. now rewrite E.
Qed.

Lemma In_get_returns H g n :
  In n (get_returns H g) <-> In n (g_nodes g) /\ isinstance (H n) TReturn = true.
Proof.
  unfold get_returns, get_nodes_by_type. now rewrite sort_by_In, filter_In.
Qed.

(** What the two loops of [update] write, when [g] and [ng] share no
    object. *)
Lemma prepared_spec H g ng ovs :
  NoDup (g_nodes ng) ->
  disjoint g ng ->
  get_variables H g = Ok ovs ->
  forall n,
    prepared H g ng ovs n =
      if mem n (g_nodes ng) then
        match H n with
        | Variable' x v =>
            match get_variable H g x with
            | Ok ve => Variable' x (v + (version_of (H ve) + 1))
            | Raise _ => Variable' x v
            end
        | Return s => Return (s + (get_max_return_sequence H g + 1))
        | i => i
        end
      else H n.
Proof.
  intros Hnd Hdis Hovs n. unfold prepared.
  set (ovd := map (fun v => (name_of (H v), v)) ovs).
  set (nvs := get_nodes_by_type H ng TVariable).
  set (H1 := shift_versions ovd nvs H).
  assert (Hovg : forall x ov, dict_get String.eqb ovd x = Some ov ->
                              In ov (g_nodes g) /\ get_variable H g x = Ok ov).
  { intros x ov E. pose proof (get_variables_Ok H g ovs Hovs x) as Hx.
    fold ovd in Hx. rewrite E in Hx. split; [|assumption].
    apply get_variable_Ok in Hx as [Hin _].
    now apply In_vars_named in Hin. }
  assert (HH1 : forall m, H1 m =
            if mem m nvs then
              match dict_get String.eqb ovd (name_of (H m)) with
              | Some ov => set_version (H m)
                             (version_of (H m) + (version_of (H ov) + 1))
              | None => H m
              end
            else H m).
  { apply shift_versions_spec.
    - unfold nvs, get_nodes_by_type. now apply NoDup_filter.
    - intros x ov E Hin. apply Hovg in E as [Hg _].
      unfold nvs, get_nodes_by_type in Hin. apply filter_In in Hin as [Hin _].
      exact (Hdis _ Hg Hin). }
  assert (Hg1 : forall m, In m (g_nodes g) -> H1 m = H m).
  { intros m Hm. rewrite HH1.
    destruct (mem m nvs) eqn:E; [|reflexivity].
    apply mem_In in E. unfold nvs, get_nodes_by_type in E.
    apply filter_In in E as [E _]. destruct (Hdis _ Hm E). }
  rewrite (get_max_return_sequence_ext H H1 g Hg1).
  rewrite shift_sequences_spec.
  2:{ apply (Permutation_NoDup (Permutation_sym (sort_by_perm _ _))).
      unfold get_nodes_by_type. now apply NoDup_filter. }
  assert (Hkind : forall m t, isinstance (H1 m) t = isinstance (H m) t).
  { intros m t. rewrite HH1. destruct (mem m nvs); [|reflexivity].
    destruct (dict_get _ _ _); [|reflexivity].
    apply same_object_isinstance, same_object_set_version. }
  destruct (mem n (get_returns H1 ng)) eqn:Er.
  - apply mem_In, In_get_returns in Er as [Hin Hr]. rewrite Hkind in Hr.
    apply mem_In in Hin. rewrite Hin.
    rewrite HH1.
    assert (Env : mem n nvs = false).
    { apply mem_false. intros Hv. unfold nvs, get_nodes_by_type in Hv.
      apply filter_In in Hv as [_ Hv]. destruct (H n); discriminate. }
    rewrite Env. destruct (H n); try discriminate Hr. reflexivity.
  - rewrite HH1. destruct (mem n (g_nodes ng)) eqn:En.
    + apply mem_false in Er. apply mem_In in En.
      destruct (mem n nvs) eqn:Env.
      * apply mem_In in Env. unfold nvs, get_nodes_by_type in Env.
        apply filter_In in Env as [_ Hv].
        destruct (H n) as [| x v | | |] eqn:Hn; try discriminate Hv.
        simpl name_of.
        pose proof (get_variables_Ok H g ovs Hovs x) as Hx. fold ovd in Hx.
        destruct (dict_get String.eqb ovd x) as [ov|].
        -- rewrite Hx. reflexivity.
        -- apply get_variable_not_found in Hx. rewrite Hx. reflexivity.
      * apply mem_false in Env.
        destruct (H n) as [| x v | s | |] eqn:Hn; try reflexivity.
        -- exfalso. apply Env. unfold nvs, get_nodes_by_type.
           apply filter_In. split; [assumption|]. now rewrite Hn.
        -- exfalso. apply Er. apply In_get_returns. split; [assumption|].
           rewrite Hkind, Hn. reflexivity.
    + destruct (mem n nvs) eqn:Env; [|reflexivity].
      apply mem_In in Env. unfold nvs, get_nodes_by_type in Env.
      apply filter_In in Env as [Hin _]. apply mem_In in Hin. congruence.
Qed.

(* ------------------------------------------------------------------ *)
(** ** The outcomes of [_add_node] *)

Lemma add_singleton_outcome n deref w :
  has_node (self w) n = false ->
  guarded (heap w) (self w) n deref ->
  add_outcome n deref w (fst (_add_singleton_instruction n w))
              (snd (_add_singleton_instruction n w)).
Proof.
  intros Hn Hg. unfold _add_singleton_instruction. mrun.
  fold (singleton_matches (heap w) (self w) n).
  destruct (singleton_matches (heap w) (self w) n) as [|x [|y l]] eqn:E; simpl.
  - unfold nx_add_node. rewrite Hn. apply add_inserted; auto.
  - now apply add_found.
  - apply add_raised; [assumption|]. right. eauto 7.
Qed.

Lemma IRGraph__add_node_outcome n deref w :
  add_outcome n deref w (fst (IRGraph__add_node n deref w))
              (snd (IRGraph__add_node n deref w)).
Proof.
  unfold IRGraph__add_node. mrun.
  destruct (has_node (self w) n) eqn:Hn; simpl; [now apply add_present|].
  assert (Hplain : isinstance (heap w n) TTransformingInstruction = true ->
    add_outcome n deref w
      {| heap := heap w; self := nx_add_node (self w) n |} (Ok n)).
  { intros Hk. unfold nx_add_node. rewrite Hn. apply add_inserted; auto. }
  destruct (heap w n) eqn:Hk; unfold isinstance in *; cbn iota;
    try (now apply Hplain).
  - apply add_singleton_outcome; [assumption|]. left. now rewrite Hk.
  - destruct deref.
    + destruct (get_variable _ _ _) as [v|e] eqn:Eg.
      * simpl. apply add_deref;
          [assumption|now rewrite Hk|reflexivity|rewrite Hk; exact Eg].
      * destruct e;
          try (simpl; apply add_raised; [assumption|]; left; rewrite Hk;
               repeat split; auto; discriminate).
        apply add_singleton_outcome; [assumption|]. right.
        rewrite Hk. split; [reflexivity|]. now right.
    + apply add_singleton_outcome; [assumption|]. right.
      rewrite Hk. split; [reflexivity|]. now left.
Qed.

Lemma _add_node_outcome n deref w w' r :
  g_class (self w) = cIRGraph ->
  _add_node n deref w = (w', r) ->
  add_outcome n deref w w' r.
Proof.
  intros Hc E. unfold _add_node in E. unfold bind, get_world in E.
  rewrite Hc in E.
  pose proof (IRGraph__add_node_outcome n deref w) as Ho.
  rewrite E in Ho. exact Ho.
Qed.

(** The node that [_add_node] returns is a node of the graph. *)
Lemma add_outcome_In n deref w w' r n' :
  add_outcome n deref w w' r -> r = Ok n' -> In n' (g_nodes (self w')).
Proof.
  intros Ho E. destruct Ho; try discriminate E; injection E as <-.
  - now apply mem_In.
  - apply get_variable_Ok in H2 as [Hin _].
    now apply In_vars_named in Hin.
  - assert (Hin : In x (singleton_matches (heap w) (self w) n))
      by (rewrite H1; now left).
    unfold singleton_matches in Hin. now apply filter_In in Hin.
  - simpl. apply in_or_app. right. now left.
Qed.

(* ------------------------------------------------------------------ *)
(** ** Inversion of monadic computations *)

Lemma bind_Ok {A B : Type} (c : M A) (k : A -> M B) w w' b :
  bind c k w = (w', Ok b) ->
  exists w1 a, c w = (w1, Ok a) /\ k a w1 = (w', Ok b).
Proof.
  unfold bind. destruct (c w) as [w1 [a|e]]; intros E; [eauto|discriminate].
Qed.

Lemma forM_cons_Ok {A B : Type} (body : A -> M B) x xs w w' ys :
  forM (x :: xs) body w = (w', Ok ys) ->
  exists w1 y ys',
    body x w = (w1, Ok y) /\ forM xs body w1 = (w', Ok ys') /\ ys = y :: ys'.
Proof.
  simpl. intros E. apply bind_Ok in E as (w1 & y & E1 & E).
  apply bind_Ok in E as (w2 & ys' & E2 & E). injection E as <- <-.
  eauto 7.
Qed.

Lemma forM__cons_Ok {A : Type} (body : A -> M unit) x xs w w' u :
  forM_ (x :: xs) body w = (w', Ok u) ->
  exists w1, body x w = (w1, Ok tt) /\ forM_ xs body w1 = (w', Ok u).
Proof.
  simpl. intros E. apply bind_Ok in E as (w1 & [] & E1 & E). eauto.
Qed.

Lemma Forall2_In_l {A B : Type} (R : A -> B -> Prop) l ys x :
  Forall2 R l ys -> In x l -> exists y, In y ys /\ R x y.
Proof.
  induction 1 as [|a b l ys Hab Hf IH]; intros Hin; [destruct Hin|].
  destruct Hin as [->|Hin]; [exists b; simpl; auto|].
  destruct (IH Hin) as (y & Hy & Hr). exists y. simpl. auto.
Qed.

Lemma Forall2_In_r {A B : Type} (R : A -> B -> Prop) l ys y :
  Forall2 R l ys -> In y ys -> exists x, In x l /\ R x y.
Proof.
  induction 1 as [|a b l ys Hab Hf IH]; intros Hin; [destruct Hin|].
  destruct Hin as [->|Hin]; [exists a; simpl; auto|].
  destruct (IH Hin) as (x & Hx & Hr). exists x. simpl. auto.
Qed.

(** ** References *)

Lemma refs_named_filter H g x :
  refs_named H g x = filter (fun n => is_ref_named x (H n)) (g_nodes g).
Proof.
  unfold refs_named, get_nodes_by_type_and_attributes, get_nodes_by_type.
  rewrite <- filter_andb. apply filter_ext. intros n.
  unfold attr_match, isinstance, is_ref_named. simpl.
  destruct (H n); simpl; try reflexivity.
  destruct (String.eqb name x); reflexivity.
Qed.

Lemma In_refs_named H g x n :
  In n (refs_named H g x) <-> In n (g_nodes g) /\ H n = Reference x.
Proof.
  rewrite refs_named_filter, filter_In. unfold is_ref_named.
  destruct (H n); split; intros [Hin E]; try discriminate; split; auto.
  - apply String.eqb_eq in E. now subst.
  - injection E as ->. apply String.eqb_refl.
Qed.

Lemma get_reference_Ok H g x r :
  get_reference H g x = Ok r -> refs_named H g x = [r].
Proof.
  unfold get_reference. fold (refs_named H g x).
  destruct (refs_named H g x) as [|a [|b l]]; try discriminate.
  now intros [= ->].
Qed.

(** When [get_references] returns, it returns exactly the Reference nodes
    of the graph. *)
Lemma get_references_Ok H g refs :
  get_references H g = Ok refs ->
  forall n, In n refs <->
            In n (g_nodes g) /\ isinstance (H n) TReference = true.
Proof.
  unfold get_references. intros E n. apply map_result_Forall2 in E. split.
  - intros Hin. destruct (Forall2_In_r _ _ _ n E Hin) as (x & _ & Hx).
    apply get_reference_Ok in Hx.
    assert (Hn : In n (refs_named H g x)) by (rewrite Hx; now left).
    apply In_refs_named in Hn as [Hn Hr]. split; [assumption|].
    now rewrite Hr.
  - intros [Hin Hr]. destruct (H n) as [| | |x|] eqn:Hk; try discriminate Hr.
    assert (Hx : In x (nodup string_dec
                         (map (fun r => name_of (H r))
                              (get_nodes_by_type H g TReference)))).
    { apply nodup_In.
      change x with (name_of (Reference x)). rewrite <- Hk.
      apply (in_map (fun r => name_of (H r))).
      unfold get_nodes_by_type. apply filter_In. split; [assumption|].
      now rewrite Hk. }
    destruct (Forall2_In_l _ _ _ x E Hx) as (r & Hr' & Hg).
    apply get_reference_Ok in Hg.
    assert (Hn : In n (refs_named H g x)) by (apply In_refs_named; auto).
    rewrite Hg in Hn. destruct Hn as [<-|[]]. assumption.
Qed.

Lemma dict_mem_fst (d : list (UUID * UUID)) n :
  dict_mem N.eqb d n = mem n (map fst d).
Proof.
  unfold dict_mem, mem. induction d as [|[k v] d IH]; simpl; [reflexivity|].
  rewrite IH. f_equal. apply N.eqb_sym.
Qed.

(* ------------------------------------------------------------------ *)
(** ** The merge phase of [update] on an [IRGraph] *)

Lemma add_pairs_cons_Ok n ns w w' o2n :
  add_pairs (n :: ns) w = (w', Ok o2n) ->
  exists w1 n' o2n',
    _add_node n true w = (w1, Ok n') /\
    add_pairs ns w1 = (w', Ok o2n') /\ o2n = (n, n') :: o2n'.
Proof.
  unfold add_pairs. intros E.
  apply forM_cons_Ok in E as (w1 & y & ys & E1 & E2 & ->).
  apply bind_Ok in E1 as (w2 & n' & E1 & E3). injection E3 as <- <-.
  eauto 7.
Qed.

Lemma grows_graph_add_pairs ns : preserves grows_graph (add_pairs ns).
Proof. unfold add_pairs. pres_graph. apply grows_graph__add_node. Qed.

(** An induction principle for [{n: self._add_node(n) for n in ns}]: an
    invariant [I] of the world and a fact [P n] about each [n] that later
    additions keep. *)
Lemma add_pairs_ind (I : World -> Prop) (P : UUID -> World -> Prop) ns :
  (forall n w w' n',
      I w -> g_class (self w) = cIRGraph -> In n ns ->
      add_outcome n true w w' (Ok n') -> I w' /\ P n w') ->
  (forall n w w', P n w -> grows_graph w w' -> P n w') ->
  forall w w' o2n,
    I w -> g_class (self w) = cIRGraph ->
    add_pairs ns w = (w', Ok o2n) ->
    I w' /\ (forall n, In n ns -> P n w') /\
    map fst o2n = ns /\
    (forall p, In p o2n -> In (snd p) (g_nodes (self w'))).
Proof.
  intros Hstep Hstable. induction ns as [|n ns IH]; intros w w' o2n Hi Hc E.
  - injection E as <- <-. repeat split; auto; intros ? [].
  - apply add_pairs_cons_Ok in E as (w1 & n' & o2n' & E1 & E2 & ->).
    pose proof (_add_node_outcome n true w w1 (Ok n') Hc E1) as Ho.
    destruct (Hstep n w w1 n' Hi Hc (or_introl eq_refl) Ho) as [Hi1 Hp1].
    pose proof (grows_graph__add_node n true w w1 _ E1) as (_ & _ & _ & Hc1).
    rewrite Hc in Hc1.
    pose proof (grows_graph_add_pairs ns w1 w' _ E2) as Hg.
    destruct IH with (w := w1) (w' := w') (o2n := o2n')
      as (Hi' & Hp' & Hm & Hv); auto.
    { intros m wa wb m' Hia Hca Hin. apply Hstep; auto. now right. }
    repeat split; auto.
    + intros m [<-|Hin]; [eapply Hstable; eauto|auto].
    + simpl. now rewrite Hm.
    + intros p [<-|Hin]; [|auto]. simpl.
      destruct Hg as (_ & Hincl & _). apply Hincl.
      eapply add_outcome_In; eauto.
Qed.

Lemma merge_Ok ng w w' :
  merge ng w = (w', Ok tt) ->
  exists refs o2n_refs w3 o2n_nonrefs w4 es,
    get_references (heap w) ng = Ok refs /\
    add_pairs refs w = (w3, Ok o2n_refs) /\
    add_pairs (filter (fun n => negb (dict_mem N.eqb o2n_refs n)) (g_nodes ng)) w3
    = (w4, Ok o2n_nonrefs) /\
    rewrite_edges (o2n_refs ++ o2n_nonrefs) (nx_edges ng) = Ok es /\
    add_edges_from es false w4 = (w', Ok tt).
Proof.
  unfold merge. intros E.
  apply bind_Ok in E as (w1 & w0 & E0 & E). injection E0 as <- <-.
  apply bind_Ok in E as (w1 & refs & E0 & E).
  unfold lift in E0. injection E0 as <- Er.
  apply bind_Ok in E as (w3 & o2n_refs & E3 & E).
  apply bind_Ok in E as (w4 & o2n_nonrefs & E4 & E).
  apply bind_Ok in E as (w5 & es & E5 & E).
  unfold lift in E5. injection E5 as <- Ee.
  exists refs, o2n_refs, w3, o2n_nonrefs, w4, es. auto.
Qed.

Lemma dict_get_In {K V : Type} (eqb : K -> K -> bool) (d : list (K * V)) k v :
  dict_get eqb d k = Some v -> exists k', In (k', v) d /\ eqb k' k = true.
Proof.
  induction d as [|[k0 v0] d IH]; simpl; [discriminate|].
  destruct (dict_get eqb d k) as [v'|].
  - intros [= ->]. destruct IH as (k' & Hin & E); eauto.
  - destruct (eqb k0 k) eqn:E; [|discriminate]. intros [= ->]. eauto.
Qed.

Lemma rewrite_edges_Ok o2n es0 es :
  rewrite_edges o2n es0 = Ok es ->
  Forall2 (fun e0 e =>
             dict_get N.eqb o2n (fst e0) = Some (fst e) /\
             dict_get N.eqb o2n (snd e0) = Some (snd e)) es0 es.
Proof.
  unfold rewrite_edges. intros E. apply map_result_Forall2 in E.
  induction E as [|e0 e es0 es He Hf IH]; constructor; auto.
  destruct (dict_get N.eqb o2n (fst e0)); [|discriminate].
  destruct (dict_get N.eqb o2n (snd e0)); [|discriminate].
  injection He as <-. auto.
Qed.

(** Adding an edge between two nodes of an [IRGraph]. *)
Lemma add_edge_present u v w :
  g_class (self w) = cIRGraph ->
  In u (g_nodes (self w)) -> In v (g_nodes (self w)) ->
  add_edge u v false w
  = (mkWorld (heap w)
       (if mem_edge (u, v) (g_edges (self w)) then self w
        else set_edges (self w) (g_edges (self w) ++ [(u, v)])), Ok tt).
Proof.
  intros Hc Hu Hv. apply mem_In in Hu, Hv.
  unfold add_edge, _add_node, IRGraph__add_node. mrun.
  rewrite Hc. mrun. unfold has_node. rewrite Hu. mrun.
  rewrite Hc. mrun. rewrite Hv. mrun.
  unfold nx_add_edge, nx_add_node, has_node. rewrite Hu, Hv.
  destruct w as [H g]. simpl. destruct (mem_edge _ _); reflexivity.
Qed.

Lemma add_edges_from_present es : forall w,
  g_class (self w) = cIRGraph ->
  (forall e, In e es -> In (fst e) (g_nodes (self w)) /\
                        In (snd e) (g_nodes (self w))) ->
  exists w',
    add_edges_from es false w = (w', Ok tt) /\
    heap w' = heap w /\ g_nodes (self w') = g_nodes (self w) /\
    g_class (self w') = cIRGraph /\
    (forall e, In e (g_edges (self w')) <-> In e (g_edges (self w)) \/ In e es).
Proof.
  induction es as [|[u v] es IH]; intros w Hc Hin.
  - exists w. repeat split; auto; simpl; tauto.
  - destruct (Hin (u, v) (or_introl eq_refl)) as [Hu Hv]. simpl in Hu, Hv.
    unfold add_edges_from. simpl forM_. unfold bind at 1. simpl fst. simpl snd.
    rewrite (add_edge_present u v w Hc Hu Hv).
    set (w1 := mkWorld (heap w)
                 (if mem_edge (u, v) (g_edges (self w)) then self w
                  else set_edges (self w) (g_edges (self w) ++ [(u, v)]))).
    assert (Hn1 : g_nodes (self w1) = g_nodes (self w))
      by (unfold w1; simpl; destruct (mem_edge _ _); reflexivity).
    assert (Hc1 : g_class (self w1) = cIRGraph)
      by (unfold w1; simpl; destruct (mem_edge _ _); assumption).
    destruct (IH w1 Hc1) as (w' & E & Hh & Hn & Hc' & He).
    { intros e He. rewrite Hn1. apply Hin. now right. }
    exists w'. split; [exact E|]. split; [rewrite Hh; reflexivity|].
    split; [congruence|]. split; [assumption|].
    intros e. rewrite He. unfold w1. simpl.
    destruct (mem_edge (u, v) (g_edges (self w))) eqn:Em; simpl.
    + apply mem_edge_In in Em. split.
      * intros [Hx|Hx]; auto.
      * intros [Hx|[<-|Hx]]; auto.
    + rewrite in_app_iff. simpl. tauto.
Qed.

Lemma same_content_eq x y : has_same_content_as x y = true <-> x = y.
Proof.
  destruct x, y; simpl; split; try discriminate; intros E.
  - apply andb_true_iff in E as [E1 E2]. apply String.eqb_eq in E1, E2.
    now subst.
  - injection E as -> ->. now rewrite !String.eqb_refl.
  - apply andb_true_iff in E as [E1 E2]. apply String.eqb_eq in E1.
    apply Z.eqb_eq in E2. now subst.
  - injection E as -> ->. now rewrite String.eqb_refl, Z.eqb_refl.
  - apply Z.eqb_eq in E. now subst.
  - injection E as ->. apply Z.eqb_refl.
  - apply String.eqb_eq in E. now subst.
  - injection E as ->. apply String.eqb_refl.
  - apply andb_true_iff in E as [E1 E2]. apply String.eqb_eq in E1, E2.
    now subst.
  - injection E as -> ->. now rewrite !String.eqb_refl.
Qed.

Lemma same_content_Reference i x :
  has_same_content_as i (Reference x) = true <-> i = Reference x.
Proof.
  destruct i; simpl; split; try discriminate.
  - intros E. apply String.eqb_eq in E. now subst.
  - intros [= ->]. apply String.eqb_refl.
Qed.

Lemma vars_named_snoc_other H g n x :
  isinstance (H n) TVariable = false ->
  vars_named H (set_nodes g (g_nodes g ++ [n])) x = vars_named H g x.
Proof.
  intros Hk. rewrite !vars_named_filter. simpl. rewrite filter_app. simpl.
  destruct (H n); try discriminate Hk; simpl; now rewrite app_nil_r.
Qed.

Lemma In_singleton_matches H g n x :
  In x (singleton_matches H g n) ->
  In x (g_nodes g) /\ has_same_content_as (H x) (H n) = true /\
  in_degree g x = 0%nat.
Proof.
  unfold singleton_matches. intros Hin. apply filter_In in Hin as [Hin E].
  apply andb_true_iff in E as [E1 E2]. apply Nat.eqb_eq in E2. auto.
Qed.

Lemma add_outcome_Ok_inv n deref w w' n' :
  add_outcome n deref w w' (Ok n') ->
  (w' = w /\ n' = n /\ has_node (self w) n = true) \/
  (w' = w /\ has_node (self w) n = false /\
   isinstance (heap w n) TReference = true /\ deref = true /\
   get_variable (heap w) (self w) (name_of (heap w n)) = Ok n') \/
  (w' = w /\ has_node (self w) n = false /\
   guarded (heap w) (self w) n deref /\
   singleton_matches (heap w) (self w) n = [n']) \/
  (w' = mkWorld (heap w) (set_nodes (self w) (g_nodes (self w) ++ [n])) /\
   n' = n /\ has_node (self w) n = false /\
   (isinstance (heap w n) TTransformingInstruction = true \/
    (guarded (heap w) (self w) n deref /\
     singleton_matches (heap w) (self w) n = []))).
Proof.
  intros Ho. inversion Ho; subst; auto 10.
Qed.

(** A successful merge of [ng] into an [IRGraph]. *)
Lemma merge_spec ng w w' :
  g_class (self w) = cIRGraph ->
  merge ng w = (w', Ok tt) ->
  heap w' = heap w /\ g_class (self w') = cIRGraph /\
  incl (g_nodes (self w)) (g_nodes (self w')) /\
  (forall n, In n (g_nodes (self w')) ->
             In n (g_nodes (self w)) \/
             (In n (g_nodes ng) /\
              (isinstance (heap w n) TReference = true ->
               vars_named (heap w) (self w) (name_of (heap w n)) = []))) /\
  (forall r, In r (g_nodes ng) -> isinstance (heap w r) TReference = true ->
             vars_named (heap w) (self w) (name_of (heap w r)) = [] ->
             exists r', In r' (g_nodes (self w')) /\ heap w r' = heap w r) /\
  (forall n, In n (g_nodes ng) ->
             isinstance (heap w n) TTransformingInstruction = true ->
             In n (g_nodes (self w'))) /\
  (forall s, In s (g_nodes ng) ->
             isinstance (heap w s) TSourceInstruction = true ->
             exists s', In s' (g_nodes (self w')) /\ heap w s' = heap w s).
Proof.
  intros Hc E. destruct w as [H g0]. simpl in *.
  apply merge_Ok in E
    as (refs & o2n_refs & w3 & o2n_nonrefs & w4 & es & Er & E3 & E4 & Ee & E5).
  simpl in Er. pose proof (get_references_Ok H ng refs Er) as Hrefs.
  (* the references of [ng] *)
  pose (I3 := fun w1 : World =>
    heap w1 = H /\
    (forall x, vars_named H (self w1) x = vars_named H g0 x) /\
    (forall n, In n (g_nodes (self w1)) ->
               In n (g_nodes g0) \/
               (In n (g_nodes ng) /\
                (isinstance (H n) TReference = true ->
                 vars_named H g0 (name_of (H n)) = [])))).
  pose (P3 := fun (r : UUID) (w1 : World) =>
    vars_named H g0 (name_of (H r)) = [] ->
    exists r', In r' (g_nodes (self w1)) /\ H r' = H r).
  destruct (add_pairs_ind I3 P3 refs) with (w := mkWorld H g0) (w' := w3)
    (o2n := o2n_refs) as (Hi3 & Hp3 & Hm3 & Hv3); auto.
  { intros n [Hw gw] w1 n' (Hh & Hvars & Hnodes) Hcw Hin Ho.
    simpl in Hh, Hvars, Hnodes, Hcw. subst Hw.
    apply Hrefs in Hin as [Hin Hr].
    apply add_outcome_Ok_inv in Ho; simpl in Ho.
    destruct Ho as [(-> & -> & Hp)|[(-> & Hn & _ & _ & Hg)|
                    [(-> & Hn & _ & Hm)|(-> & -> & Hn & Hins)]]].
    - split; [repeat split; auto|]. intros _. exists n. split; [|reflexivity].
      now apply mem_In.
    - split; [repeat split; auto|]. intros Hnone. exfalso.
      apply get_variable_Ok in Hg as [Hv _].
      rewrite Hvars, Hnone in Hv. destruct Hv.
    - split; [repeat split; auto|]. intros _. exists n'.
      assert (Hx : In n' (singleton_matches H gw n))
        by (rewrite Hm; now left).
      apply In_singleton_matches in Hx as (Hx & Hs & _).
      split; [assumption|].
      destruct (H n) eqn:Hk; try discriminate Hr.
      now apply same_content_Reference in Hs.
    - split.
      + split; [reflexivity|]. split.
        * intros x. simpl. rewrite vars_named_snoc_other; [apply Hvars|].
          destruct (H n); try discriminate Hr; reflexivity.
        * simpl. intros m Hm. apply in_app_or in Hm as [Hm|[<-|[]]]; [auto|].
          right. split; [assumption|]. intros _.
          destruct Hins as [Ht|[[Hs|[_ [Hd|Hg]]] _]].
          -- destruct (H n); discriminate.
          -- destruct (H n); discriminate.
          -- discriminate.
          -- apply get_variable_not_found in Hg. now rewrite <- Hvars.
      + intros _. exists n. split; [|reflexivity]. simpl.
        apply in_or_app. right. now left. }
  { intros r wa wb Hp (_ & Hincl & _) Hnone.
    destruct (Hp Hnone) as (r' & Hr' & E). exists r'. split; auto. }
  { unfold I3. simpl. auto. }
  destruct Hi3 as (Hh3 & _ & Hn3).
  pose proof (grows_graph_add_pairs _ _ _ _ E3) as (_ & Hincl3 & _ & Hc3).
  simpl in Hc3, Hincl3. rewrite Hc in Hc3.
  (* the other nodes of [ng] *)
  pose (I4 := fun w1 : World =>
    heap w1 = H /\
    (forall n, In n (g_nodes (self w1)) ->
               In n (g_nodes g0) \/
               (In n (g_nodes ng) /\
                (isinstance (H n) TReference = true ->
                 vars_named H g0 (name_of (H n)) = [])))).
  pose (P4 := fun (n : UUID) (w1 : World) =>
    (isinstance (H n) TTransformingInstruction = true ->
     In n (g_nodes (self w1))) /\
    (isinstance (H n) TSourceInstruction = true ->
     exists s', In s' (g_nodes (self w1)) /\ H s' = H n)).
  destruct (add_pairs_ind I4 P4
              (filter (fun n => negb (dict_mem N.eqb o2n_refs n)) (g_nodes ng)))
    with (w := w3) (w' := w4) (o2n := o2n_nonrefs)
    as (Hi4 & Hp4 & Hm4 & Hv4); auto.
  { intros n [Hw gw] w1 n' (Hh & Hnodes) Hcw Hin Ho.
    simpl in Hh, Hnodes, Hcw. subst Hw.
    apply filter_In in Hin as [Hin Hnr].
    rewrite dict_mem_fst, Hm3 in Hnr. apply negb_true_iff, mem_false in Hnr.
    assert (Hk : isinstance (H n) TReference = false).
    { destruct (isinstance (H n) TReference) eqn:Hk; [|reflexivity].
      exfalso. apply Hnr, Hrefs. auto. }
    apply add_outcome_Ok_inv in Ho; simpl in Ho.
    destruct Ho as [(-> & -> & Hp)|[(-> & Hn & Hr & _)|
                    [(-> & Hn & Hgd & Hm)|(-> & -> & Hn & Hins)]]].
    - split; [split; auto|]. apply mem_In in Hp. split; [auto|].
      intros _. exists n. auto.
    - congruence.
    - split; [split; auto|]. split.
      + intros Ht. exfalso.
        destruct Hgd as [Hs|[Hr _]]; [|congruence].
        destruct (H n); discriminate.
      + intros _. exists n'.
        assert (Hx : In n' (singleton_matches H gw n))
          by (rewrite Hm; now left).
        apply In_singleton_matches in Hx as (Hx & Hs & _).
        split; [assumption|]. now apply same_content_eq.
    - split.
      + split; [reflexivity|]. simpl. intros m Hm.
        apply in_app_or in Hm as [Hm|[<-|[]]]; [auto|].
        right. split; [assumption|]. congruence.
      + assert (In n (g_nodes (self
                  {| heap := H; self := set_nodes gw (g_nodes gw ++ [n]) |})))
          by (simpl; apply in_or_app; right; now left).
        split; [auto|]. intros _. exists n. auto. }
  { intros n wa wb [Hp Hq] (_ & Hincl & _). split; [auto|].
    intros Hs. destruct (Hq Hs) as (s' & Hin & E). exists s'. auto. }
  { split; assumption. }
  destruct Hi4 as (Hh4 & Hn4).
  pose proof (grows_graph_add_pairs _ _ _ _ E4) as (_ & Hincl4 & _ & Hc4).
  rewrite Hc3 in Hc4.
  (* the edges *)
  destruct (add_edges_from_present es w4 Hc4) as (w5 & E5' & Hh5 & Hn5 & Hc5 & _).
  { intros e He. apply rewrite_edges_Ok in Ee.
    destruct (Forall2_In_r _ _ _ e Ee He) as (e0 & _ & Ea & Eb).
    assert (Hval : forall k v, dict_get N.eqb (o2n_refs ++ o2n_nonrefs) k = Some v ->
                               In v (g_nodes (self w4))).
    { intros k v Ek. apply dict_get_In in Ek as (k' & Hin & _).
      apply in_app_or in Hin as [Hin|Hin].
      - apply Hincl4. apply (Hv3 (k', v) Hin).
      - apply (Hv4 (k', v) Hin). }
    split; eapply Hval; eauto. }
  rewrite E5 in E5'. injection E5' as <-.
  split; [congruence|]. split; [assumption|].
  split; [rewrite Hn5; eapply incl_tran; eauto|].
  split; [intros n Hn; rewrite Hn5 in Hn; apply Hn4 in Hn; exact Hn|].
  split.
  - intros r Hr Hk Hnone.
    destruct (Hp3 r (proj2 (Hrefs r) (conj Hr Hk)) Hnone) as (r' & Hr' & E).
    exists r'. split; [|assumption]. rewrite Hn5. auto.
  - assert (Hnonref : forall n, In n (g_nodes ng) ->
              isinstance (H n) TReference = false ->
              In n (filter (fun n => negb (dict_mem N.eqb o2n_refs n))
                           (g_nodes ng))).
    { intros n Hn Hk. apply filter_In. split; [assumption|].
      rewrite dict_mem_fst, Hm3. apply negb_true_iff, mem_false.
      intros Hin. apply Hrefs in Hin as [_ Hk']. congruence. }
    split; intros n Hn Ht; rewrite Hn5; apply (Hp4 n); try assumption;
      (apply Hnonref; [assumption|]);
      destruct (H n); try discriminate; reflexivity.
Qed.

(* ------------------------------------------------------------------ *)
(** ** Deref law *)


Lemma same_object_Reference_r i y :
  same_object i (Reference y) -> i = Reference y.
Proof. destruct i; simpl; intros E; try discriminate; auto. Qed.



(** A successful [update] is a successful merge over the prepared heap. *)
Lemma update_Ok H g ng w' :
  update ng (mkWorld H g) = (w', Ok tt) ->
  exists ovs,
    get_variables H g = Ok ovs /\
    merge ng (mkWorld (prepared H g ng ovs) g) = (w', Ok tt).
Proof.
  rewrite update_unfold. destruct (get_variables H g) as [ovs|e];
    [eauto|discriminate].
Qed.



(* ------------------------------------------------------------------ *)
(** ** Union and its argument *)

Lemma run_Ok (c : M unit) w : snd (c w) = Ok tt -> c w = (fst (c w), Ok tt).
Proof. destruct (c w) as [w' r]. simpl. now intros ->. Qed.

(** C9. Union mutates its argument.  When [g] and [h] share no object
    before the merge and [union(g, h)] returns: every Variable of [h]
    whose name exists in [g] has had its version incremented in place by
    [g]'s live version of the name plus one (the other variables of [h]
    are unchanged); every Return of [h] has had its sequence incremented
    in place by [g]'s maximum return sequence plus one; the variables,
    returns and operators of [h] are now nodes of [g] themselves, and
    every node of [g] is an object that [g] or [h] held (nothing is
    copied); the objects that only [g] held are unchanged. *)
Theorem union_mutates_argument :
  forall (H : Heap) (g h : IRGraph) (w' : World),
    g_class g = cIRGraph ->
    NoDup (g_nodes h) ->
    disjoint g h ->
    union h (mkWorld H g) = (w', Ok tt) ->
    (forall n x v,
        In n (g_nodes h) -> H n = Variable' x v ->
        (vars_named H g x <> [] ->
         exists ve, get_variable H g x = Ok ve /\
                    heap w' n = Variable' x (v + (version_of (H ve) + 1))) /\
        (vars_named H g x = [] -> heap w' n = Variable' x v)) /\
    (forall n s,
        In n (g_nodes h) -> H n = Return s ->
        heap w' n = Return (s + (get_max_return_sequence H g + 1))) /\
    (forall n,
        In n (g_nodes h) ->
        isinstance (H n) TTransformingInstruction = true ->
        In n (g_nodes (self w'))) /\
    (forall n, In n (g_nodes (self w')) -> In n (g_nodes g) \/ In n (g_nodes h)) /\
    (forall n, ~ In n (g_nodes h) -> heap w' n = H n).
Proof.
  intros H g h w' Hc Hnd Hdis E. unfold union, compose in E.
  destruct (grows_update h _ _ _ E) as (Hobj & _). simpl in Hobj.
  apply update_Ok in E as (ovs & Hovs & E).
  apply merge_spec in E as (Hh & _ & _ & Hnew & _ & Hshare & _); [|assumption].
  simpl in Hh, Hnew, Hshare.
  pose proof (prepared_spec H g h ovs Hnd Hdis Hovs) as Hp.
  rewrite <- Hh in Hp.
  split; [|split; [|split; [|split]]].
  - intros n x v Hin Hv. specialize (Hp n). apply mem_In in Hin.
    rewrite Hin, Hv in Hp.
    pose proof (get_variables_Ok H g ovs Hovs x) as Hx.
    destruct (dict_get _ _ x) as [ov|].
    + rewrite Hx in Hp. split.
      * intros _. eauto.
      * intros Hnone. apply get_variable_not_found in Hnone. congruence.
    + split; [congruence|]. intros _.
      apply get_variable_not_found in Hx. now rewrite Hx in Hp.
  - intros n s Hin Hs. specialize (Hp n). apply mem_In in Hin.
    now rewrite Hin, Hs in Hp.
  - intros n Hin Ht. apply Hshare; [assumption|].
    rewrite <- Hh. rewrite (same_object_isinstance _ _ _ (Hobj n)). exact Ht.
  - intros n Hin. destruct (Hnew n Hin) as [Hg|[Hn _]]; auto.
  - intros n Hin. specialize (Hp n). apply mem_false in Hin.
    now rewrite Hin in Hp.
Qed.

(** S2 by union: [h_var] assigns [x] again over the pipeline of S1. *)
Lemma union_mutates_argument_witness :
  let w' := fst (union Ex.h_var (mkWorld Ex.H0 Ex.g_s1)) in
  (exists ve, get_variable Ex.H0 Ex.g_s1 "x" = Ok ve /\
              heap w' 30%N = Variable' "x" (0 + (version_of (Ex.H0 ve) + 1))) /\
  heap w' 12%N = Return (0 + (get_max_return_sequence Ex.H0 Ex.g_s1 + 1)) /\
  In 30%N (g_nodes (self w')).
Proof.
  intros w'.
  assert (Hu : union Ex.h_var (mkWorld Ex.H0 Ex.g_s1) = (w', Ok tt))
    by (apply run_Ok; vm_compute; reflexivity).
  assert (Hnd : NoDup (g_nodes Ex.h_var)).
  { simpl. repeat constructor; simpl; intuition discriminate. }
  assert (Hdis : disjoint Ex.g_s1 Ex.h_var).
  { intros n [<-|[<-|[<-|[<-|[]]]]] [E|[E|[E|[]]]]; discriminate E. }
  destruct (union_mutates_argument Ex.H0 Ex.g_s1 Ex.h_var w' eq_refl Hnd Hdis Hu)
    as (Hv & Hr & Hs & _).
  split; [|split].
  - apply (Hv 30%N "x" 0); [simpl; auto|reflexivity|discriminate].
  - apply (Hr 12%N 0); [simpl; auto|reflexivity].
  - apply Hs; [simpl; auto|reflexivity].
Defined.

(* ------------------------------------------------------------------ *)
(** ** Evaluable graphs *)

Lemma filter_at_most_one {X : Type} (P : X -> bool) l :
  NoDup l ->
  (forall a b, In a l -> In b l -> P a = true -> P b = true -> a = b) ->
  filter P l = [] \/ exists x, filter P l = [x].
Proof.
  induction l as [|a l IH]; intros Hnd Huniq; [now left|].
  inversion Hnd as [|? ? Ha Hnd']; subst. simpl.
  destruct (P a) eqn:Pa.
  - right. exists a. f_equal.
    destruct (filter P l) as [|b r] eqn:E; [reflexivity|].
    exfalso. assert (Hb : In b (filter P l)) by (rewrite E; now left).
    apply filter_In in Hb as [Hb Pb].
    assert (a = b) by (apply Huniq; simpl; auto). subst. contradiction.
  - apply IH; [assumption|]. intros x y Hx Hy. apply Huniq; now right.
Qed.

Lemma isinstance_Intermediate i :
  isinstance i TIntermediateInstruction = isinstance i TReference.
Proof. now destruct i. Qed.

(** [IRGraphEvaluable._add_node], case by case. *)
Lemma Evaluable__add_node_eq n deref w :
  g_class (self w) = cIRGraphEvaluable ->
  _add_node n deref w =
    if isinstance (heap w n) TIntermediateInstruction then
      (w, Raise InevaluableInstruction)
    else if isinstance (heap w n) TSourceInstruction then
      if truthy (g_interface (self w)) then
        if match g_interface (self w) with
           | Some s => String.eqb (interface_of (heap w n)) s
           | None => false
           end
        then IRGraph__add_node n deref w
        else (w, Raise MultiInterfacesInGraph)
      else IRGraph__add_node n deref
             (mkWorld (heap w)
                (set_interface (self w) (Some (interface_of (heap w n)))))
    else IRGraph__add_node n deref w.
Proof.
  intros Hc. unfold _add_node, IRGraphEvaluable__add_node. mrun. rewrite Hc.
  destruct (isinstance (heap w n) TIntermediateInstruction); [reflexivity|].
  destruct (isinstance (heap w n) TSourceInstruction); [|reflexivity].
  destruct (truthy (g_interface (self w))); [|reflexivity].
  destruct (g_interface (self w)) as [s|]; [|reflexivity].
  destruct (String.eqb _ s); reflexivity.
Qed.

Lemma in_degree_no_edges g n : g_edges g = [] -> in_degree g n = 0%nat.
Proof. intros E. unfold in_degree, nx_pred. now rewrite E. Qed.

Lemma guarded_source H g n deref :
  guarded H g n deref -> isinstance (H n) TReference = false ->
  isinstance (H n) TSourceInstruction = true.
Proof. intros [Hs|[Hr _]] Hk; [assumption|congruence]. Qed.

Lemma add_outcome_Raise_inv n deref w w' e :
  add_outcome n deref w w' (Raise e) ->
  w' = w /\ has_node (self w) n = false /\
  ((isinstance (heap w n) TReference = true /\ deref = true /\
    get_variable (heap w) (self w) (name_of (heap w n)) = Raise e /\
    e <> VariableNotFound) \/
   (guarded (heap w) (self w) n deref /\ e = DuplicatedSingletonInstruction /\
    exists x y l, singleton_matches (heap w) (self w) n = x :: y :: l)).
Proof. intros Ho. inversion Ho; subst; auto. Qed.

Lemma eval_inner_step H n deref w w' r :
  eval_inv H w ->
  isinstance (H n) TReference = false ->
  (isinstance (H n) TSourceInstruction = true ->
   g_interface (self w) = Some (interface_of (H n))) ->
  IRGraph__add_node n deref w = (w', r) ->
  exists n',
    r = Ok n' /\ eval_inv H w' /\
    In n' (g_nodes (self w')) /\ H n' = H n /\
    incl (g_nodes (self w)) (g_nodes (self w')) /\
    (forall m, In m (g_nodes (self w')) -> In m (g_nodes (self w)) \/ m = n) /\
    g_interface (self w') = g_interface (self w).
Proof.
  intros Hinv Hr Hsrc E.
  pose proof (IRGraph__add_node_outcome n deref w) as Ho. rewrite E in Ho.
  simpl in Ho. destruct w as [Hw g].
  pose proof Hinv as (Hh & Hc & He & Hnd & Hnr & Huniq & Hitf).
  simpl in *. subst Hw.
  assert (Hmatch : isinstance (H n) TSourceInstruction = true ->
                   singleton_matches H g n = [] \/
                   exists x, singleton_matches H g n = [x]).
  { intros Hs. unfold singleton_matches.
    apply filter_at_most_one; [assumption|].
    intros a b Ha Hb Pa Pb.
    apply andb_true_iff in Pa as [Pa _], Pb as [Pb _].
    apply same_content_eq in Pa, Pb.
    apply Huniq; auto; congruence. }
  destruct r as [n'|e].
  2:{ (* raised *)
      exfalso. apply add_outcome_Raise_inv in Ho as (_ & _ & Hcase).
      simpl in Hcase.
      destruct Hcase as [(Hk & _)|(Hg & _ & x & y & l & Hm)]; [congruence|].
      apply guarded_source in Hg; [|assumption].
      destruct (Hmatch Hg) as [E0|[z E0]]; rewrite E0 in Hm; discriminate. }
  apply add_outcome_Ok_inv in Ho. simpl in Ho.
  destruct Ho as [(-> & -> & Hp)|[(-> & _ & Hk & _)|
                  [(-> & _ & Hgd & Hm)|(-> & -> & H1 & H2)]]].
  - (* present *)
    exists n. repeat split; auto using incl_refl. now apply mem_In.
  - (* deref *) congruence.
  - (* found *)
    assert (Hx : In n' (singleton_matches H g n)) by (rewrite Hm; now left).
    apply In_singleton_matches in Hx as (Hx & Hs & _).
    apply same_content_eq in Hs.
    exists n'. repeat split; auto using incl_refl.
  - (* inserted *)
    apply mem_false in H1.
    exists n. split; [reflexivity|]. split.
    + split; [reflexivity|]. split; [assumption|]. split; [assumption|].
      simpl. split.
      { apply NoDup_app; [exact Hnd|repeat constructor; intros []|].
        intros m Hm [<-|[]]. contradiction. }
      split.
      { intros m Hm. apply in_app_or in Hm as [Hm|[<-|[]]]; auto. }
      split.
      { intros a b Ha Hb Ka Eab.
        apply in_app_or in Ha as [Ha|[<-|[]]];
          apply in_app_or in Hb as [Hb|[<-|[]]]; auto.
        - (* an old source with the content of the new node *)
          exfalso.
          assert (Ks : isinstance (H n) TSourceInstruction = true)
            by (now rewrite <- Eab).
          destruct H2 as [Ht|[_ Hm]].
          + destruct (H n); discriminate.
          + assert (Hin : In a (singleton_matches H g n)).
            { unfold singleton_matches. apply filter_In. split; [assumption|].
              rewrite (in_degree_no_edges g a He).
              rewrite (proj2 (same_content_eq (H a) (H n)) Eab). reflexivity. }
            rewrite Hm in Hin. destruct Hin.
        - exfalso.
          destruct H2 as [Ht|[_ Hm]].
          + destruct (H n); discriminate.
          + assert (Hin : In b (singleton_matches H g n)).
            { unfold singleton_matches. apply filter_In. split; [assumption|].
              rewrite (in_degree_no_edges g b He).
              rewrite (proj2 (same_content_eq (H b) (H n)) (eq_sym Eab)).
              reflexivity. }
            rewrite Hm in Hin. destruct Hin. }
      destruct (g_interface g) as [i|].
      * destruct Hitf as [Hi Hall]. split; [assumption|].
        intros m Hm Km. apply in_app_or in Hm as [Hm|[<-|[]]]; auto.
        specialize (Hsrc Km). now injection Hsrc.
      * intros m Hm. apply in_app_or in Hm as [Hm|[<-|[]]]; auto.
        destruct (isinstance (H n) TSourceInstruction) eqn:Km; [|reflexivity].
        specialize (Hsrc eq_refl). discriminate.
    + simpl. repeat split; auto.
      * apply in_or_app. right. now left.
      * apply incl_appl, incl_refl.
      * intros m Hm. apply in_app_or in Hm as [Hm|[<-|[]]]; auto.
Qed.

Lemma eval_add_step H n deref w w' r :
  eval_inv H w ->
  isinstance (H n) TReference = false ->
  (isinstance (H n) TSourceInstruction = true -> interface_of (H n) <> "") ->
  _add_node n deref w = (w', r) ->
  (r = Raise MultiInterfacesInGraph /\
   isinstance (H n) TSourceInstruction = true /\
   exists i, g_interface (self w) = Some i /\ interface_of (H n) <> i) \/
  (exists n',
      r = Ok n' /\ eval_inv H w' /\
      In n' (g_nodes (self w')) /\ H n' = H n /\
      incl (g_nodes (self w)) (g_nodes (self w')) /\
      (forall m, In m (g_nodes (self w')) -> In m (g_nodes (self w)) \/ m = n) /\
      (isinstance (H n) TSourceInstruction = true ->
       g_interface (self w') = Some (interface_of (H n))) /\
      (isinstance (H n) TSourceInstruction = false ->
       g_interface (self w') = g_interface (self w)) /\
      (forall i, g_interface (self w) = Some i -> g_interface (self w') = Some i)).
Proof.
  intros Hinv Hr Hne E.
  pose proof Hinv as (Hh & Hc & He & Hnd & Hnr & Huniq & Hitf).
  rewrite (Evaluable__add_node_eq n deref w Hc) in E. rewrite Hh in E.
  rewrite isinstance_Intermediate, Hr in E.
  destruct (isinstance (H n) TSourceInstruction) eqn:Ks.
  - destruct (g_interface (self w)) as [s|] eqn:Ei; simpl in E.
    + destruct Hitf as [Hs Hall].
      assert (Et : negb (String.eqb s "") = true).
      { apply negb_true_iff. now apply String.eqb_neq. }
      rewrite Et in E.
      destruct (String.eqb_spec (interface_of (H n)) s) as [Es|Es].
      * right.
        destruct (eval_inner_step H n deref w w' r Hinv Hr) as
          (n' & -> & Hinv' & Hin & Hcont & Hincl & Hnew & Hi); auto.
        { intros _. now rewrite Ei, Es. }
        exists n'. split; [reflexivity|]. split; [exact Hinv'|].
        repeat split; auto; try congruence.
      * left. injection E as <- <-. repeat split; eauto.
    + right.
      set (w0 := mkWorld H (set_interface (self w) (Some (interface_of (H n)))))
        in E.
      assert (Hinv0 : eval_inv H w0).
      { unfold w0. repeat split; simpl; auto.
        intros m Hm Km. rewrite (Hitf m Hm) in Km. discriminate. }
      destruct (eval_inner_step H n deref w0 w' r Hinv0 Hr) as
        (n' & -> & Hinv' & Hin & Hcont & Hincl & Hnew & Hi); auto.
      exists n'. split; [reflexivity|]. split; [exact Hinv'|].
      repeat split; auto; try discriminate.
  - right.
    destruct (eval_inner_step H n deref w w' r Hinv Hr) as
      (n' & -> & Hinv' & Hin & Hcont & Hincl & Hnew & Hi); auto.
    { rewrite Ks. discriminate. }
    exists n'. split; [reflexivity|]. split; [exact Hinv'|].
    repeat split; auto; try discriminate; congruence.
Qed.

Ltac inv_pair E := injection E as <- <-.

Lemma add_pairs_cons n ns w :
  add_pairs (n :: ns) w =
    match _add_node n true w with
    | (w1, Ok n') =>
        match add_pairs ns w1 with
        | (w2, Ok o2n) => (w2, Ok ((n, n') :: o2n))
        | (w2, Raise e) => (w2, Raise e)
        end
    | (w1, Raise e) => (w1, Raise e)
    end.
Proof.
  unfold add_pairs. simpl. unfold bind, ret.
  destruct (_add_node n true w) as [w1 [n'|e]]; [|reflexivity].
  destruct (forM ns _ w1) as [w2 [o2n|e]]; reflexivity.
Qed.

(** Adding the nodes of a graph without references to an evaluable
    graph: either a second interface shows up, or every node has an image
    and the interface attribute is the interface of every source. *)
Lemma eval_add_pairs H ns : forall w w' r,
  eval_inv H w ->
  (forall n, In n ns ->
             isinstance (H n) TReference = false /\
             (isinstance (H n) TSourceInstruction = true ->
              interface_of (H n) <> "")) ->
  add_pairs ns w = (w', r) ->
  r = Raise MultiInterfacesInGraph \/
  (exists o2n,
      r = Ok o2n /\ eval_inv H w' /\ map fst o2n = ns /\
      (forall p, In p o2n ->
                 In (snd p) (g_nodes (self w')) /\ image H (fst p) (snd p)) /\
      incl (g_nodes (self w)) (g_nodes (self w')) /\
      (forall m, In m (g_nodes (self w')) ->
                 In m (g_nodes (self w)) \/ In m ns) /\
      (forall s, In s ns -> isinstance (H s) TSourceInstruction = true ->
                 g_interface (self w') = Some (interface_of (H s))) /\
      ((forall s, In s ns -> isinstance (H s) TSourceInstruction = false) ->
       g_interface (self w') = g_interface (self w)) /\
      (forall i, g_interface (self w) = Some i -> g_interface (self w') = Some i)).
Proof.
  induction ns as [|n ns IH]; intros w w' r Hinv Hns E.
  - injection E as <- <-. right. exists [].
    split; [reflexivity|]. split; [exact Hinv|].
    repeat split; auto using incl_refl;
      try (intros ? []); try (simpl in *; contradiction).
  - rewrite add_pairs_cons in E.
    destruct (_add_node n true w) as [w1 r1] eqn:E1.
    destruct (Hns n (or_introl eq_refl)) as [Hr Hne].
    destruct (eval_add_step H n true w w1 r1 Hinv Hr Hne E1)
      as [(-> & _)|(n' & -> & Hinv1 & Hin1 & Hc1 & Hincl1 & Hnew1 & Hs1 & Hns1 & Hst1)].
    { left. now injection E as _ <-. }
    destruct (add_pairs ns w1) as [w2 r2] eqn:E2.
    destruct (IH w1 w2 r2 Hinv1) as
      [->|(o2n & -> & Hinv2 & Hm & Hv & Hincl2 & Hnew2 & Hs2 & Hns2 & Hst2)];
      auto.
    { intros m Hm. apply Hns. now right. }
    { left. now injection E as _ <-. }
    injection E as <- <-. right. exists ((n, n') :: o2n).
    split; [reflexivity|]. split; [assumption|].
    split; [simpl; now rewrite Hm|].
    split.
    { intros p [<-|Hp]; [|auto]. simpl. split; [auto|].
      destruct (N.eq_dec n' n) as [->|Hd]; [now left|].
      destruct (isinstance (H n) TSourceInstruction) eqn:Ks.
      - right. auto.
      - left.
        (* a node that is not a source is added as itself *)
        assert (Hcase : In n' (g_nodes (self w)) \/ n' = n)
          by (apply Hnew1; assumption).
        destruct Hcase as [Hold | ->]; [|reflexivity].
        exfalso. revert Hd. clear - E1 Hinv Hr Ks Hold Hc1.
        intros Hd.
        pose proof Hinv as (Hh & Hc & _).
        rewrite (Evaluable__add_node_eq n true w Hc) in E1.
        rewrite Hh, isinstance_Intermediate, Hr, Ks in E1.
        pose proof (IRGraph__add_node_outcome n true w) as Ho.
        rewrite E1 in Ho. simpl in Ho.
        apply add_outcome_Ok_inv in Ho.
        rewrite Hh in Ho.
        destruct Ho as [(_ & -> & _)|[(_ & _ & Hk & _)|
                        [(_ & _ & Hgd & _)|(_ & -> & _)]]]; try congruence.
        apply guarded_source in Hgd; congruence. }
    split; [eapply incl_tran; eauto|].
    split.
    { intros m Hm'. destruct (Hnew2 m Hm') as [Hm1|Hm1]; [|simpl; auto].
      destruct (Hnew1 m Hm1) as [Hm0 | ->]; simpl; auto. }
    split.
    { intros s [<-|Hs] Ks; [|auto]. apply Hst2. auto. }
    split.
    { intros Hall. rewrite Hns2 by (intros; apply Hall; now right).
      apply Hns1, Hall. now left. }
    intros i Hi. auto.
Qed.

Lemma eval_inv_done H w : eval_inv H w -> eval_done H w.
Proof. intros (A & B & _ & _ & C & _ & D). repeat split; assumption. Qed.

Lemma eval_add_present H u w :
  eval_done H w -> In u (g_nodes (self w)) ->
  _add_node u false w = (w, Ok u).
Proof.
  intros (Hh & Hc & Hnr & Hitf) Hu.
  rewrite (Evaluable__add_node_eq u false w Hc), Hh.
  rewrite isinstance_Intermediate, (Hnr u Hu).
  assert (Hp : IRGraph__add_node u false w = (w, Ok u)).
  { unfold IRGraph__add_node. mrun. apply mem_In in Hu. unfold has_node.
    rewrite Hu. reflexivity. }
  destruct (isinstance (H u) TSourceInstruction) eqn:Ks; [|exact Hp].
  destruct (g_interface (self w)) as [i|].
  - destruct Hitf as [Hi Hall]. simpl.
    apply String.eqb_neq in Hi. rewrite Hi. simpl.
    rewrite (Hall u Hu Ks), String.eqb_refl. exact Hp.
  - rewrite (Hitf u Hu) in Ks. discriminate.
Qed.

Lemma eval_add_edges H es : forall w,
  eval_done H w ->
  (forall e, In e es -> In (fst e) (g_nodes (self w)) /\
                        In (snd e) (g_nodes (self w))) ->
  exists w',
    add_edges_from es false w = (w', Ok tt) /\
    eval_done H w' /\ g_nodes (self w') = g_nodes (self w) /\
    g_interface (self w') = g_interface (self w) /\
    (forall e, In e (g_edges (self w')) <-> In e (g_edges (self w)) \/ In e es).
Proof.
  induction es as [|[u v] es IH]; intros w Hd Hin.
  - exists w. split; [reflexivity|]. split; [assumption|].
    repeat split; auto; simpl; tauto.
  - destruct (Hin (u, v) (or_introl eq_refl)) as [Hu Hv]. simpl in Hu, Hv.
    unfold add_edges_from. simpl forM_. unfold bind at 1. simpl fst. simpl snd.
    unfold add_edge at 1. unfold bind at 1.
    rewrite (eval_add_present H u w Hd Hu). unfold bind at 1.
    rewrite (eval_add_present H v w Hd Hv). unfold modify_self.
    set (w1 := mkWorld (heap w) (nx_add_edge (self w) u v)).
    assert (Hn1 : g_nodes (self w1) = g_nodes (self w)).
    { unfold w1, nx_add_edge, nx_add_node, has_node. simpl.
      apply mem_In in Hu, Hv. rewrite Hu, Hv.
      destruct (mem_edge _ _); reflexivity. }
    assert (Hi1 : g_interface (self w1) = g_interface (self w)).
    { unfold w1, nx_add_edge, nx_add_node, has_node. simpl.
      apply mem_In in Hu, Hv. rewrite Hu, Hv.
      destruct (mem_edge _ _); reflexivity. }
    assert (He1 : forall e, In e (g_edges (self w1)) <->
                            In e (g_edges (self w)) \/ e = (u, v)).
    { intros e. unfold w1, nx_add_edge, nx_add_node, has_node. simpl.
      apply mem_In in Hu, Hv. rewrite Hu, Hv.
      destruct (mem_edge (u, v) (g_edges (self w))) eqn:Em; simpl.
      - apply mem_edge_In in Em. split; [auto|]. intros [Hx | ->]; auto.
      - rewrite in_app_iff. simpl. intuition. }
    assert (Hd1 : eval_done H w1).
    { destruct Hd as (A & B & C & D). unfold eval_done.
      rewrite Hi1, Hn1. repeat split; auto.
      unfold w1. simpl. now rewrite nx_add_edge_class'. }
    destruct (IH w1 Hd1) as (w' & E & Hd' & Hn' & Hi' & He').
    { intros e He. rewrite Hn1. apply Hin. now right. }
    exists w'. fold (add_edges_from es false). rewrite E.
    split; [reflexivity|]. split; [assumption|].
    split; [congruence|]. split; [congruence|].
    intros e. rewrite He', He1. simpl. intuition.
Qed.

Lemma merge_eq ng w :
  merge ng w =
    match get_references (heap w) ng with
    | Raise e => (w, Raise e)
    | Ok refs =>
        match add_pairs refs w with
        | (w3, Raise e) => (w3, Raise e)
        | (w3, Ok o2n_refs) =>
            match add_pairs (filter (fun n => negb (dict_mem N.eqb o2n_refs n))
                                    (g_nodes ng)) w3 with
            | (w4, Raise e) => (w4, Raise e)
            | (w4, Ok o2n_nonrefs) =>
                match rewrite_edges (o2n_refs ++ o2n_nonrefs) (nx_edges ng) with
                | Raise e => (w4, Raise e)
                | Ok es => add_edges_from es false w4
                end
            end
        end
    end.
Proof.
  unfold merge, bind, get_world, lift.
  destruct (get_references (heap w) ng) as [refs|e]; [|reflexivity].
  destruct (add_pairs refs w) as [w3 [o2n_refs|e]]; [|reflexivity].
  destruct (add_pairs _ w3) as [w4 [o2n_nonrefs|e]]; [|reflexivity].
  destruct (rewrite_edges _ _) as [es|e]; reflexivity.
Qed.

Lemma map_result_Raise {A B : Type} (f : A -> result B) l e :
  map_result f l = Raise e -> exists x, In x l /\ f x = Raise e.
Proof.
  induction l as [|x l IH]; simpl; [discriminate|].
  destruct (f x) as [y|e'] eqn:Ex.
  - destruct (map_result f l) as [ys|e'']; [discriminate|].
    intros [= ->]. destruct (IH eq_refl) as (x' & Hx & E). eauto.
  - intros [= ->]. eauto.
Qed.

Lemma rewrite_edges_Raise o2n es0 e :
  rewrite_edges o2n es0 = Raise e -> e = KeyError.
Proof.
  unfold rewrite_edges. intros E.
  apply map_result_Raise in E as (e0 & _ & E).
  destruct (dict_get N.eqb o2n (fst e0)); [|congruence].
  destruct (dict_get N.eqb o2n (snd e0)); [discriminate|congruence].
Qed.

Lemma filter_true {X : Type} (P : X -> bool) l :
  (forall x, In x l -> P x = true) -> filter P l = l.
Proof.
  induction l as [|x l IH]; intros Hp; [reflexivity|].
  simpl. rewrite (Hp x (or_introl eq_refl)). f_equal.
  apply IH. intros; apply Hp; now right.
Qed.

(** The merge of [graph] into a fresh evaluable graph, when the sources
    of [graph] have non-empty interfaces. *)
Lemma merge_evaluable H graph w' r :
  (forall n, In n (g_nodes graph) ->
             isinstance (H n) TSourceInstruction = true ->
             interface_of (H n) <> "") ->
  merge graph (mkWorld H new_evaluable) = (w', r) ->
  match get_references H graph with
  | Raise e => r = Raise e
  | Ok (_ :: _) => r = Raise InevaluableInstruction
  | Ok [] =>
      r = Raise MultiInterfacesInGraph \/
      ((forall a b, In a (g_nodes graph) -> In b (g_nodes graph) ->
                    isinstance (H a) TSourceInstruction = true ->
                    isinstance (H b) TSourceInstruction = true ->
                    interface_of (H a) = interface_of (H b)) /\
       (r = Raise KeyError \/
        (r = Ok tt /\ eval_done H w' /\
         (forall m, In m (g_nodes (self w')) -> In m (g_nodes graph)) /\
         (forall s, In s (g_nodes graph) ->
                    isinstance (H s) TSourceInstruction = true ->
                    g_interface (self w') = Some (interface_of (H s))) /\
         ((forall s, In s (g_nodes graph) ->
                     isinstance (H s) TSourceInstruction = false) ->
          g_interface (self w') = None) /\
         (forall n, In n (g_nodes graph) ->
                    exists n', In n' (g_nodes (self w')) /\ image H n n') /\
         (forall e, In e (g_edges (self w')) ->
                    exists e0, In e0 (nx_edges graph) /\
                               image H (fst e0) (fst e) /\
                               image H (snd e0) (snd e)))))
  end.
Proof.
  intros Hne E. rewrite merge_eq in E. simpl heap in E.
  pose proof (get_references_Ok H graph) as Hrefs.
  destruct (get_references H graph) as [[|r0 refs]|e].
  - (* no reference *)
    specialize (Hrefs [] eq_refl).
    assert (Hnoref : forall n, In n (g_nodes graph) ->
                               isinstance (H n) TReference = false).
    { intros n Hn. destruct (isinstance (H n) TReference) eqn:Hk; [|reflexivity].
      exfalso. apply (proj2 (Hrefs n)). auto. }
    change (add_pairs [] (mkWorld H new_evaluable))
      with (mkWorld H new_evaluable, @Ok (list (UUID * UUID)) []) in E.
    cbv beta iota in E.
    rewrite (filter_true _ (g_nodes graph)) in E by (intros; reflexivity).
    destruct (add_pairs (g_nodes graph) (mkWorld H new_evaluable))
      as [w4 r4] eqn:E4.
    assert (Hinv0 : eval_inv H (mkWorld H new_evaluable)).
    { repeat split; simpl; auto; try constructor; intros; contradiction. }
    assert (Hns0 : forall n, In n (g_nodes graph) ->
              isinstance (H n) TReference = false /\
              (isinstance (H n) TSourceInstruction = true ->
               interface_of (H n) <> "")) by (intros; split; auto).
    destruct (eval_add_pairs H (g_nodes graph) _ w4 r4 Hinv0 Hns0 E4)
      as [->|(o2n & -> & Hinv4 & Hm & Hv & _ & Hnew & Hs & Hns & _)].
    { left. now injection E as _ <-. }
    right. split.
    { intros a b Ha Hb Ka Kb.
      pose proof (Hs a Ha Ka) as Ea. rewrite (Hs b Hb Kb) in Ea.
      now injection Ea. }
    simpl app in E.
    destruct (rewrite_edges o2n (nx_edges graph)) as [es|e] eqn:Ee.
    2:{ left. injection E as _ <-. f_equal.
        now apply rewrite_edges_Raise in Ee. }
    right. apply rewrite_edges_Ok in Ee.
    assert (Himg : forall k v, dict_get N.eqb o2n k = Some v ->
                               In v (g_nodes (self w4)) /\ image H k v).
    { intros k v Ek. apply dict_get_In in Ek as (k' & Hin & Ek).
      apply N.eqb_eq in Ek. subst k'. apply (Hv (k, v) Hin). }
    destruct (eval_add_edges H es w4 (eval_inv_done H w4 Hinv4))
      as (w5 & E5 & Hd5 & Hn5 & Hi5 & He5).
    { intros e He. destruct (Forall2_In_r _ _ _ e Ee He) as (e0 & _ & Ea & Eb).
      split; [apply (Himg _ _ Ea)|apply (Himg _ _ Eb)]. }
    rewrite E5 in E. injection E as <- <-.
    split; [reflexivity|]. split; [assumption|].
    split.
    { intros m Hm'. rewrite Hn5 in Hm'.
      destruct (Hnew m Hm') as [[]|Hx]. exact Hx. }
    split; [intros s Hs' Ks; rewrite Hi5; auto|].
    split; [intros Hall; rewrite Hi5; now apply Hns|].
    split.
    { intros n Hn. rewrite <- Hm in Hn. apply in_map_iff in Hn as (p & <- & Hp).
      exists (snd p). rewrite Hn5. apply (Hv p Hp). }
    intros e He. apply He5 in He as [He|He].
    { destruct Hinv4 as (_ & _ & He4 & _). rewrite He4 in He. destruct He. }
    destruct (Forall2_In_r _ _ _ e Ee He) as (e0 & He0 & Ea & Eb).
    exists e0. split; [assumption|].
    split; [apply (Himg _ _ Ea)|apply (Himg _ _ Eb)].
  - (* a reference comes first *)
    specialize (Hrefs (r0 :: refs) eq_refl).
    destruct (proj1 (Hrefs r0) (or_introl eq_refl)) as [_ Hk].
    rewrite add_pairs_cons in E.
    rewrite (Evaluable__add_node_eq r0 true (mkWorld H new_evaluable) eq_refl)
      in E.
    simpl heap in E.
    rewrite isinstance_Intermediate, Hk in E. now injection E as _ <-.
  - now injection E as _ <-.
Qed.

Lemma shift_versions_nil nvs H : shift_versions [] nvs H = H.
Proof. induction nvs as [|nv nvs IH]; [reflexivity|exact IH]. Qed.

Lemma shift_sequences_zero nrs : forall H n,
  shift_sequences (-1) nrs H n = H n.
Proof.
  induction nrs as [|nr nrs IH]; intros H n; [reflexivity|].
  change (shift_sequences (-1) (nr :: nrs) H)
    with (shift_sequences (-1) nrs
            (upd H nr (set_sequence (H nr) (sequence_of (H nr) + (-1 + 1))))).
  rewrite IH. unfold upd. destruct (N.eqb_spec n nr) as [->|_]; [|reflexivity].
  destruct (H nr); simpl; try reflexivity. f_equal. lia.
Qed.

(** Merging into a graph without nodes writes nothing. *)
Lemma prepared_fresh H g0 graph n :
  g_nodes g0 = [] -> prepared H g0 graph [] n = H n.
Proof.
  intros E0. unfold prepared. simpl map. rewrite shift_versions_nil.
  assert (Em : get_max_return_sequence H g0 = -1).
  { unfold get_max_return_sequence, get_returns, get_nodes_by_type.
    now rewrite E0. }
  rewrite Em. apply shift_sequences_zero.
Qed.

Lemma IRGraphEvaluable_eq H graph :
  IRGraphEvaluable H graph =
    match merge graph (mkWorld (prepared H new_evaluable graph []) new_evaluable) with
    | (w, Raise e) => (heap w, Raise e)
    | (w, Ok _) =>
        (heap w,
         Ok (if negb (truthy (g_interface (self w)))
             then set_interface (self w) (Some CACHE_INTERFACE_IDENTIFIER)
             else self w))
    end.
Proof.
  unfold IRGraphEvaluable, construct. unfold bind at 1.
  fold new_evaluable. rewrite update_unfold.
  change (get_variables H new_evaluable) with (@Ok (list UUID) []).
  cbv beta iota.
  destruct (merge graph (mkWorld (prepared H new_evaluable graph []) new_evaluable))
    as [w [[]|e]]; [|reflexivity].
  unfold bind, get_world. destruct (negb (truthy _)); reflexivity.
Qed.

Lemma get_references_Raise H g e :
  get_references H g = Raise e ->
  e = DuplicatedReference /\ exists x a b l, refs_named H g x = a :: b :: l.
Proof.
  unfold get_references. intros E.
  apply map_result_Raise in E as (x & Hx & E).
  apply nodup_In, in_map_iff in Hx as (r & Hr & Hin).
  unfold get_nodes_by_type in Hin. apply filter_In in Hin as [Hin Hk].
  unfold get_reference in E. fold (refs_named H g x) in E.
  assert (Hmem : In r (refs_named H g x)).
  { apply In_refs_named. split; [assumption|].
    destruct (H r); try discriminate Hk. simpl in Hr. now subst. }
  destruct (refs_named H g x) as [|a [|b l]] eqn:Er;
    [destruct Hmem|discriminate|].
  injection E as <-. split; [reflexivity|]. exists x, a, b, l. exact Er.
Qed.

Lemma refs_named_ext H H' g x :
  (forall n, H' n = H n) -> refs_named H' g x = refs_named H g x.
Proof.
  intros E. rewrite !refs_named_filter. apply filter_ext. intros n.
  now rewrite E.
Qed.

(** C7, amended. Interface purity of evaluable graphs, for graphs whose
    sources have a non-empty interface.  Every IRGraphEvaluable that is
    constructed has one interface attribute and no intermediate
    instruction; all its sources have that interface; and when it has no
    source, its interface is the reserved CACHE identifier.
    Constructing one from a graph without intermediate instruction whose
    sources carry two distinct interfaces fails with
    MultiInterfacesInGraph.  Constructing one from a graph that contains
    an intermediate instruction fails with InevaluableInstruction, or with
    DuplicatedReference when two references of the graph share a name,
    whatever the interfaces of its sources. *)
Theorem evaluable_interface_purity :
  forall (H : Heap) (graph : IRGraph),
    (forall n, In n (g_nodes graph) ->
               isinstance (H n) TSourceInstruction = true ->
               interface_of (H n) <> "") ->
    (forall E,
        snd (IRGraphEvaluable H graph) = Ok E ->
        g_class E = cIRGraphEvaluable /\
        (forall n, In n (g_nodes E) ->
                   isinstance (H n) TIntermediateInstruction = false) /\
        exists i,
          g_interface E = Some i /\
          (forall n, In n (g_nodes E) ->
                     isinstance (H n) TSourceInstruction = true ->
                     interface_of (H n) = i) /\
          ((forall n, In n (g_nodes E) ->
                      isinstance (H n) TSourceInstruction = false) ->
           i = CACHE_INTERFACE_IDENTIFIER)) /\
    ((forall n, In n (g_nodes graph) ->
                isinstance (H n) TIntermediateInstruction = false) ->
     (exists a b, In a (g_nodes graph) /\ In b (g_nodes graph) /\
                  isinstance (H a) TSourceInstruction = true /\
                  isinstance (H b) TSourceInstruction = true /\
                  interface_of (H a) <> interface_of (H b)) ->
     snd (IRGraphEvaluable H graph) = Raise MultiInterfacesInGraph) /\
    ((exists n, In n (g_nodes graph) /\
                isinstance (H n) TIntermediateInstruction = true) ->
     snd (IRGraphEvaluable H graph) = Raise InevaluableInstruction \/
     (snd (IRGraphEvaluable H graph) = Raise DuplicatedReference /\
      exists x a b l, refs_named H graph x = a :: b :: l)).
Proof.
  intros H graph Hne.
  set (H2 := prepared H new_evaluable graph []).
  assert (HH : forall n, H2 n = H n)
    by (intros n; apply prepared_fresh; reflexivity).
  assert (Hne2 : forall n, In n (g_nodes graph) ->
                           isinstance (H2 n) TSourceInstruction = true ->
                           interface_of (H2 n) <> "").
  { intros n Hn. rewrite HH. auto. }
  rewrite IRGraphEvaluable_eq. fold H2.
  destruct (merge graph (mkWorld H2 new_evaluable)) as [w' r] eqn:E.
  pose proof (merge_evaluable H2 graph w' r Hne2 E) as Hm.
  pose proof (get_references_Ok H2 graph) as Hrefs.
  pose proof (get_references_Raise H2 graph) as Hraise.
  split; [|split].
  - intros Ev Hev.
    destruct r as [[]|e]; [|discriminate]. simpl in Hev. injection Hev as <-.
    destruct (get_references H2 graph) as [[|r0 refs]|e]; try discriminate.
    destruct Hm as [Hm|[_ [Hm|(_ & Hd & _ & _ & Hnone & Himg & _)]]];
      try discriminate.
    destruct Hd as (_ & Hc & Hnr & Hitf).
    destruct (g_interface (self w')) as [i|] eqn:Ei; simpl.
    + destruct Hitf as [Hi Hall].
      apply String.eqb_neq in Hi. rewrite Hi. simpl.
      split; [assumption|]. split.
      * intros n Hn. rewrite isinstance_Intermediate, <- HH. auto.
      * exists i. split; [assumption|]. split.
        -- intros n Hn Ks. rewrite <- HH in *. auto.
        -- intros Hnosrc. exfalso.
           assert (Hn0 : @Some string i = None); [|discriminate Hn0].
           apply Hnone. intros s Hs.
           destruct (isinstance (H2 s) TSourceInstruction) eqn:Ks;
             [|reflexivity].
           exfalso. destruct (Himg s Hs) as (n' & Hn' & [->|[_ Heq]]).
           ++ specialize (Hnosrc s Hn'). rewrite <- HH in Hnosrc. congruence.
           ++ specialize (Hnosrc n' Hn'). rewrite <- HH, Heq in Hnosrc.
              congruence.
    + split; [assumption|]. split.
      * intros n Hn. rewrite isinstance_Intermediate, <- HH. auto.
      * exists CACHE_INTERFACE_IDENTIFIER. split; [reflexivity|]. split.
        -- intros n Hn Ks. exfalso. rewrite <- HH in Ks.
           rewrite (Hitf n Hn) in Ks. discriminate.
        -- reflexivity.
  - intros Hnoref (a & b & Ha & Hb & Ka & Kb & Hab).
    destruct (get_references H2 graph) as [[|r0 refs]|e].
    + destruct Hm as [->|[Hsame _]]; [reflexivity|].
      exfalso. apply Hab. rewrite <- !HH. apply Hsame; auto; now rewrite HH.
    + exfalso. destruct (proj1 (Hrefs _ eq_refl r0) (or_introl eq_refl))
        as [Hin Hk].
      rewrite HH, <- isinstance_Intermediate, (Hnoref r0 Hin) in Hk.
      discriminate.
    + exfalso. destruct (Hraise e eq_refl) as (_ & x & a' & b' & l & Ex).
      assert (Hin : In a' (refs_named H2 graph x)) by (rewrite Ex; now left).
      apply In_refs_named in Hin as [Hin Hk]. rewrite HH in Hk.
      specialize (Hnoref a' Hin). now rewrite Hk in Hnoref.
  - intros (n & Hn & Hk). rewrite isinstance_Intermediate in Hk.
    destruct (get_references H2 graph) as [[|r0 refs]|e].
    + exfalso. apply (proj2 (Hrefs _ eq_refl n)). split; [assumption|].
      now rewrite HH.
    + left. subst r. reflexivity.
    + right. destruct (Hraise e eq_refl) as (-> & x & a & b & l & Ex).
      subst r. split; [reflexivity|]. exists x, a, b, l.
      now rewrite <- (refs_named_ext H H2 graph x HH).
Qed.

(** S1 as an evaluable graph: one source, interface A. *)
Lemma evaluable_interface_purity_witness :
  exists E,
    snd (IRGraphEvaluable Ex.H0 Ex.g_s1) = Ok E /\
    g_class E = cIRGraphEvaluable /\
    (forall n, In n (g_nodes E) ->
               isinstance (Ex.H0 n) TIntermediateInstruction = false) /\
    exists i,
      g_interface E = Some i /\
      (forall n, In n (g_nodes E) ->
                 isinstance (Ex.H0 n) TSourceInstruction = true ->
                 interface_of (Ex.H0 n) = i) /\
      ((forall n, In n (g_nodes E) ->
                  isinstance (Ex.H0 n) TSourceInstruction = false) ->
       i = CACHE_INTERFACE_IDENTIFIER).
Proof.
  eexists. split; [vm_compute; reflexivity|].
  apply (proj1 (evaluable_interface_purity Ex.H0 Ex.g_s1
    (fun n Hin Ks =>
       match Hin with
       | or_introl E => ltac:(subst n; discriminate)
       | or_intror (or_introl E) => ltac:(subst n; discriminate)
       | or_intror (or_intror (or_introl E)) => ltac:(subst n; discriminate)
       | or_intror (or_intror (or_intror (or_introl E))) =>
           ltac:(subst n; discriminate)
       | or_intror (or_intror (or_intror (or_intror F))) => match F with end
       end))).
  vm_compute. reflexivity.
Defined.

(** C7 as stated fails, in three ways.  A graph that holds one source
    and two References of one name (built by [add_edge(2, 10)] and
    [add_node(41)]: the first Reference has a predecessor by then) is
    refused with DuplicatedReference, not with InevaluableInstruction.  A
    graph whose sources carry the empty interface and the interface B is
    accepted, with interface B, although its sources carry two interfaces:
    the check tests the truth value of [self.interface].  And a graph
    whose sources carry the interfaces A and B and which holds a Reference
    is refused with InevaluableInstruction, not with
    MultiInterfacesInGraph: the references are added first. *)
Lemma evaluable_interface_counterexample :
  ((add_edge 2 10 false ;;; add_node 41 None true)%py%N
     (mkWorld Ex.H0 empty_graph)
   = (mkWorld Ex.H0 Ex.g_two_refs, Ok 41%N) /\
   Ex.H0 10%N = Reference "x" /\ Ex.H0 41%N = Reference "x" /\
   snd (IRGraphEvaluable Ex.H0 Ex.g_two_refs) = Raise DuplicatedReference) /\
  (interface_of (Ex.H0 40%N) = "" /\ interface_of (Ex.H0 20%N) = "B" /\
   exists E,
     snd (IRGraphEvaluable Ex.H0 Ex.g_empty_interface) = Ok E /\
     g_nodes E = [40; 20]%N /\ g_interface E = Some "B") /\
  (In 1%N (g_nodes Ex.g_mixed) /\ In 20%N (g_nodes Ex.g_mixed) /\
   interface_of (Ex.H0 1%N) = "A" /\ interface_of (Ex.H0 20%N) = "B" /\
   snd (IRGraphEvaluable Ex.H0 Ex.g_mixed) = Raise InevaluableInstruction).
Proof.
  split; [|split].
  - vm_compute. repeat split.
  - split; [reflexivity|]. split; [reflexivity|].
    eexists. vm_compute. repeat split.
  - vm_compute. repeat split; auto.
Qed.

(* ------------------------------------------------------------------ *)
(** ** Serialization round trip *)

Lemma instruction_from_to_dict n i :
  instruction_from_dict (instruction_to_dict n i) = Ok (n, i).
Proof. destruct i; reflexivity. Qed.

Lemma _add_node_fresh n w :
  g_class (self w) = cIRGraph ->
  has_node (self w) n = false ->
  (singleton_kind (heap w n) = true ->
   singleton_matches (heap w) (self w) n = []) ->
  _add_node n false w
  = (mkWorld (heap w) (set_nodes (self w) (g_nodes (self w) ++ [n])), Ok n).
Proof.
  intros Hc Hn Hm. unfold _add_node, IRGraph__add_node. mrun.
  rewrite Hc. mrun. rewrite Hn. mrun.
  unfold singleton_kind in Hm.
  destruct (heap w n) eqn:Hk; unfold isinstance in *; cbn iota;
    try (unfold nx_add_node; rewrite Hn; reflexivity);
    unfold _add_singleton_instruction; mrun;
    fold (singleton_matches (heap w) (self w) n);
    rewrite Hm by reflexivity; simpl;
    unfold nx_add_node; rewrite Hn; reflexivity.
Qed.

Lemma find_eqb_In u l : In u l -> find (fun n => N.eqb n u) l = Some u.
Proof.
  induction l as [|x l IH]; intros Hin; [destruct Hin|].
  simpl. destruct (N.eqb_spec x u) as [->|Hne]; [reflexivity|].
  destruct Hin as [E|Hin]; [congruence|auto].
Qed.

Lemma find_eqb_not_In u l : ~ In u l -> find (fun n => N.eqb n u) l = None.
Proof.
  induction l as [|x l IH]; intros Hin; [reflexivity|].
  simpl. destruct (N.eqb_spec x u) as [->|Hne].
  - exfalso. apply Hin. now left.
  - apply IH. intros Hx. apply Hin. now right.
Qed.

Lemma get_node_by_id_In g u :
  In u (g_nodes g) -> get_node_by_id g u = Ok u.
Proof. intros Hu. unfold get_node_by_id. now rewrite (find_eqb_In u _ Hu). Qed.

Lemma get_node_by_id_not_In g u :
  ~ In u (g_nodes g) -> get_node_by_id g u = Raise InstructionNotFound.
Proof.
  intros Hu. unfold get_node_by_id. now rewrite (find_eqb_not_In u _ Hu).
Qed.

Lemma load_link_unfold e w :
  load_link e w =
    match get_node_by_id (self w) (fst e) with
    | Raise InstructionNotFound => (w, Raise InvalidSeralizedGraph)
    | Raise err => (w, Raise err)
    | Ok u =>
        match get_node_by_id (self w) (snd e) with
        | Raise InstructionNotFound => (w, Raise InvalidSeralizedGraph)
        | Raise err => (w, Raise err)
        | Ok v => add_edge u v false w
        end
    end.
Proof.
  unfold load_link, bind, get_world.
  destruct (get_node_by_id (self w) (fst e)) as [u|[]]; try reflexivity.
  destruct (get_node_by_id (self w) (snd e)) as [v|[]]; reflexivity.
Qed.

Lemma forM__cons {A : Type} (body : A -> M unit) x xs w :
  forM_ (x :: xs) body w =
    match body x w with
    | (w1, Ok _) => forM_ xs body w1
    | (w1, Raise e) => (w1, Raise e)
    end.
Proof. reflexivity. Qed.

(** Loading the links of a document whose endpoints are all nodes. *)
Lemma load_links_present es : forall w,
  g_class (self w) = cIRGraph ->
  (forall e, In e es -> In (fst e) (g_nodes (self w)) /\
                        In (snd e) (g_nodes (self w))) ->
  exists w',
    forM_ es load_link w = (w', Ok tt) /\
    heap w' = heap w /\ g_nodes (self w') = g_nodes (self w) /\
    (forall e, In e (g_edges (self w')) <-> In e (g_edges (self w)) \/ In e es).
Proof.
  induction es as [|[u v] es IH]; intros w Hc Hin.
  - exists w. repeat split; auto; simpl; tauto.
  - destruct (Hin (u, v) (or_introl eq_refl)) as [Hu Hv]. simpl in Hu, Hv.
    rewrite forM__cons, load_link_unfold. simpl fst. simpl snd.
    rewrite (get_node_by_id_In _ u Hu), (get_node_by_id_In _ v Hv).
    rewrite (add_edge_present u v w Hc Hu Hv).
    set (w1 := mkWorld (heap w)
                 (if mem_edge (u, v) (g_edges (self w)) then self w
                  else set_edges (self w) (g_edges (self w) ++ [(u, v)]))).
    assert (Hn1 : g_nodes (self w1) = g_nodes (self w))
      by (unfold w1; simpl; destruct (mem_edge _ _); reflexivity).
    assert (Hc1 : g_class (self w1) = cIRGraph)
      by (unfold w1; simpl; destruct (mem_edge _ _); assumption).
    destruct (IH w1 Hc1) as (w' & E & Hh & Hn & He).
    { intros e He. rewrite Hn1. apply Hin. now right. }
    exists w'. split; [exact E|]. split; [rewrite Hh; reflexivity|].
    split; [congruence|].
    intros e. rewrite He. unfold w1. simpl.
    destruct (mem_edge (u, v) (g_edges (self w))) eqn:Em; simpl.
    + apply mem_edge_In in Em. split.
      * intros [Hx|Hx]; auto.
      * intros [Hx|[<-|Hx]]; auto.
    + rewrite in_app_iff. simpl. tauto.
Qed.

(** A link with an endpoint that is not a loaded node stops the loading
    with InvalidSeralizedGraph. *)
Lemma load_links_absent es : forall w,
  g_class (self w) = cIRGraph ->
  (exists e, In e es /\ (~ In (fst e) (g_nodes (self w)) \/
                         ~ In (snd e) (g_nodes (self w)))) ->
  exists w', forM_ es load_link w = (w', Raise InvalidSeralizedGraph).
Proof.
  induction es as [|[u v] es IH]; intros w Hc (e & He & Hbad); [destruct He|].
  rewrite forM__cons, load_link_unfold. simpl fst. simpl snd.
  destruct (in_dec N.eq_dec u (g_nodes (self w))) as [Hu|Hu].
  2:{ rewrite (get_node_by_id_not_In _ u Hu). eexists. reflexivity. }
  rewrite (get_node_by_id_In _ u Hu).
  destruct (in_dec N.eq_dec v (g_nodes (self w))) as [Hv|Hv].
  2:{ rewrite (get_node_by_id_not_In _ v Hv). eexists. reflexivity. }
  rewrite (get_node_by_id_In _ v Hv).
  rewrite (add_edge_present u v w Hc Hu Hv).
  set (w1 := mkWorld (heap w)
               (if mem_edge (u, v) (g_edges (self w)) then self w
                else set_edges (self w) (g_edges (self w) ++ [(u, v)]))).
  assert (Hn1 : g_nodes (self w1) = g_nodes (self w))
    by (unfold w1; simpl; destruct (mem_edge _ _); reflexivity).
  assert (Hc1 : g_class (self w1) = cIRGraph)
    by (unfold w1; simpl; destruct (mem_edge _ _); assumption).
  destruct He as [<-|He].
  { simpl in Hbad. tauto. }
  apply (IH w1 Hc1). exists e. rewrite Hn1. auto.
Qed.

Lemma In_nx_edges g u v :
  In (u, v) (nx_edges g) <-> In u (g_nodes g) /\ In (u, v) (g_edges g).
Proof.
  unfold nx_edges. rewrite in_flat_map. split.
  - intros (x & Hx & Hin). apply in_map_iff in Hin as (y & E & Hy).
    injection E as -> ->. split; [assumption|].
    unfold nx_succ in Hy. apply in_map_iff in Hy as ((a, b) & E & Hin).
    apply filter_In in Hin as [Hin Ea]. simpl in *.
    apply N.eqb_eq in Ea. now subst.
  - intros [Hu He]. exists u. split; [assumption|].
    apply in_map_iff. exists v. split; [reflexivity|].
    unfold nx_succ. apply in_map_iff. exists (u, v). split; [reflexivity|].
    apply filter_In. split; [assumption|]. simpl. apply N.eqb_refl.
Qed.

Lemma filter_none {X : Type} (P : X -> bool) l :
  (forall x, In x l -> P x = false) -> filter P l = [].
Proof.
  induction l as [|x l IH]; intros Hp; [reflexivity|].
  simpl. rewrite (Hp x (or_introl eq_refl)). apply IH.
  intros y Hy. apply Hp. now right.
Qed.

(** Loading the node records of a graph whose Source and Reference nodes
    are unique by content rebuilds its node list, with every object as
    authored. *)
Lemma load_nodes_spec H : forall ns w,
  g_class (self w) = cIRGraph ->
  g_edges (self w) = [] ->
  NoDup (g_nodes (self w) ++ ns) ->
  (forall a, In a (g_nodes (self w)) -> heap w a = H a) ->
  (forall a b, In a (g_nodes (self w) ++ ns) -> In b (g_nodes (self w) ++ ns) ->
               singleton_kind (H a) = true -> H a = H b -> a = b) ->
  exists w',
    forM_ (map (fun n => instruction_to_dict n (H n)) ns) load_node w
    = (w', Ok tt) /\
    g_class (self w') = cIRGraph /\
    g_edges (self w') = [] /\
    g_nodes (self w') = g_nodes (self w) ++ ns /\
    (forall a, In a (g_nodes (self w) ++ ns) -> heap w' a = H a).
Proof.
  induction ns as [|n ns IH]; intros w Hc He Hnd Hh Hu.
  - exists w. rewrite app_nil_r in *. repeat split; auto.
  - assert (Hn : has_node (self w) n = false).
    { apply mem_false. intros Hin.
      apply NoDup_remove_2 in Hnd. apply Hnd, in_or_app. now left. }
    set (w1 := mkWorld (upd (heap w) n (H n)) (self w)).
    assert (Hh1 : forall a, In a (g_nodes (self w) ++ [n]) -> heap w1 a = H a).
    { intros a Ha. unfold w1. simpl. apply in_app_or in Ha as [Ha|[<-|[]]].
      - rewrite upd_other; [auto|].
        intros ->. apply mem_In in Ha. unfold has_node in Hn. congruence.
      - apply upd_same. }
    assert (Hadd : _add_node n false w1
                   = (mkWorld (heap w1)
                        (set_nodes (self w1) (g_nodes (self w1) ++ [n])), Ok n)).
    { apply _add_node_fresh; [exact Hc|exact Hn|].
      intros Hk. unfold singleton_matches.
      rewrite (Hh1 n) in Hk by (apply in_or_app; right; now left).
      apply filter_none. intros x Hx. apply andb_false_iff. left.
      destruct (has_same_content_as (heap w1 x) (heap w1 n)) eqn:E;
        [|reflexivity].
      exfalso. apply same_content_eq in E.
      rewrite (Hh1 x) in E by (apply in_or_app; now left).
      rewrite (Hh1 n) in E by (apply in_or_app; right; now left).
      assert (n = x).
      { apply Hu; auto.
        - apply in_or_app. right. now left.
        - apply in_or_app. now left. }
      subst x. apply mem_In in Hx. unfold has_node in Hn.
      simpl in Hx. congruence. }
    set (w2 := mkWorld (heap w1)
                 (set_nodes (self w1) (g_nodes (self w1) ++ [n]))) in Hadd.
    destruct (IH w2) as (w' & E & Hc' & He' & Hn' & Hh').
    + exact Hc.
    + exact He.
    + simpl. rewrite <- app_assoc. exact Hnd.
    + exact Hh1.
    + simpl. rewrite <- app_assoc. exact Hu.
    + exists w'. split.
      * simpl map. rewrite forM__cons. unfold load_node at 1.
        rewrite instruction_from_to_dict.
        unfold bind at 1, lift at 1. unfold bind at 1, get_world at 1.
        cbn [fst snd]. rewrite Hn.
        unfold bind at 1, modify_heap at 1. fold w1.
        unfold bind at 1. rewrite Hadd. fold w2. unfold ret at 1. exact E.
      * split; [exact Hc'|]. split; [exact He'|].
        simpl in Hn', Hh'. rewrite <- app_assoc in Hn', Hh'.
        split; [exact Hn'|exact Hh'].
Qed.

Lemma keeps_class_refl w : keeps_class w w.
Proof. reflexivity. Qed.

Lemma keeps_class_trans w1 w2 w3 :
  keeps_class w1 w2 -> keeps_class w2 w3 -> keeps_class w1 w3.
Proof. unfold keeps_class. congruence. Qed.

Lemma keeps_class_load_node n : preserves keeps_class (load_node n).
Proof.
  unfold load_node. pres keeps_class keeps_class_refl keeps_class_trans.
  - intros w1 w1' r E. injection E as <- _. reflexivity.
  - apply (preserves_weaken grows_graph); [|apply grows_graph__add_node].
    intros w1 w1' (_ & _ & _ & Hc). exact Hc.
Qed.

Lemma keeps_class_load_nodes ns : preserves keeps_class (forM_ ns load_node).
Proof.
  pres keeps_class keeps_class_refl keeps_class_trans.
  apply keeps_class_load_node.
Qed.

(** C5. Serialization round trip, for the graphs in which no two distinct
    Source or Reference nodes have the same content (a graph being a
    duplicate-free node list whose edges join its nodes): loading
    [to_dict(g)] into a new graph succeeds whatever the objects that
    exist already; the graph it builds has the nodes of [g], each with
    the attributes it has in [g], so that no Reference is dereferenced and
    no version or sequence is reassigned; reserializing it gives the same
    node records and the same links up to order.  And for every
    document, when the node records have been loaded and some link has an
    endpoint that is not among the loaded nodes, the deserialization
    fails with InvalidSeralizedGraph. *)
Theorem serialization_round_trip :
  (forall H g H0,
     NoDup (g_nodes g) -> edges_closed g -> singletons_unique H g ->
     exists H' g',
       IRGraph_init H0 (Some (to_dict H g)) = (H', Ok g') /\
       g_nodes g' = g_nodes g /\
       (forall n, In n (g_nodes g) -> H' n = H n) /\
       doc_nodes (to_dict H' g') = doc_nodes (to_dict H g) /\
       (forall e, In e (doc_links (to_dict H' g')) <->
                  In e (doc_links (to_dict H g)))) /\
  (forall d H0 w1,
     forM_ (doc_nodes d) load_node (mkWorld H0 empty_graph) = (w1, Ok tt) ->
     (exists e, In e (doc_links d) /\
                (~ In (fst e) (g_nodes (self w1)) \/
                 ~ In (snd e) (g_nodes (self w1)))) ->
     snd (IRGraph_init H0 (Some d)) = Raise InvalidSeralizedGraph).
Proof.
  split.
  - intros H g H0 Hnd Hcl Hu.
    destruct (load_nodes_spec H (g_nodes g) (mkWorld H0 empty_graph))
      as (w1 & E1 & Hc1 & He1 & Hn1 & Hh1); try reflexivity.
    + exact Hnd.
    + intros a [].
    + exact Hu.
    + simpl in Hn1, Hh1.
      destruct (load_links_present (nx_edges g) w1 Hc1)
        as (w2 & E2 & Hh2 & Hn2 & He2).
      { intros [u v] He. apply In_nx_edges in He as [_ He].
        rewrite Hn1. simpl. now apply Hcl. }
      exists (heap w2), (self w2).
      assert (Hheap : forall n, In n (g_nodes g) -> heap w2 n = H n)
        by (intros n Hn; rewrite Hh2; now apply Hh1).
      split; [|split; [congruence|split; [exact Hheap|split]]].
      * unfold IRGraph_init, construct, _from_dict, bind.
        change (doc_nodes (to_dict H g))
          with (map (fun n => instruction_to_dict n (H n)) (g_nodes g)).
        rewrite E1. change (doc_links (to_dict H g)) with (nx_edges g).
        rewrite E2. reflexivity.
      * unfold to_dict. simpl. rewrite Hn2, Hn1.
        apply map_ext_in. intros n Hn. now rewrite Hheap.
      * intros [u v]. unfold to_dict. simpl.
        rewrite In_nx_edges, He2, He1, Hn2, Hn1. simpl.
        rewrite In_nx_edges. tauto.
  - intros d H0 w1 E1 Hbad.
    assert (Hc1 : g_class (self w1) = cIRGraph)
      by (apply (keeps_class_load_nodes _ _ _ _ E1)).
    destruct (load_links_absent (doc_links d) w1 Hc1 Hbad) as (w2 & E2).
    unfold IRGraph_init, construct, _from_dict, bind.
    rewrite E1, E2. reflexivity.
Qed.

(** The graph of S1 survives the round trip, and a document with a link
    to an id that is not among its nodes is refused. *)
Lemma serialization_round_trip_witness :
  (exists H' g',
     IRGraph_init Ex.H0 (Some (to_dict Ex.H0 Ex.g_s1)) = (H', Ok g') /\
     g_nodes g' = g_nodes Ex.g_s1 /\
     (forall n, In n (g_nodes Ex.g_s1) -> H' n = Ex.H0 n) /\
     doc_nodes (to_dict H' g') = doc_nodes (to_dict Ex.H0 Ex.g_s1) /\
     (forall e, In e (doc_links (to_dict H' g')) <->
                In e (doc_links (to_dict Ex.H0 Ex.g_s1)))) /\
  snd (IRGraph_init Ex.H0
         (Some (mkDoc (doc_nodes (to_dict Ex.H0 Ex.g_s1)) [(1, 9)]%N)))
  = Raise InvalidSeralizedGraph.
Proof.
  split.
  - apply (proj1 serialization_round_trip Ex.H0 Ex.g_s1 Ex.H0).
    + vm_compute. repeat constructor; simpl; intuition discriminate.
    + intros u v Hin. vm_compute in Hin. vm_compute. intuition congruence.
    + intros a b Ha Hb. vm_compute in Ha, Hb.
      destruct Ha as [<-|[<-|[<-|[<-|[]]]]];
        destruct Hb as [<-|[<-|[<-|[<-|[]]]]];
        vm_compute; congruence.
  - eapply (proj2 serialization_round_trip
              (mkDoc (doc_nodes (to_dict Ex.H0 Ex.g_s1)) [(1, 9)]%N) Ex.H0).
    + vm_compute. reflexivity.
    + exists (1, 9)%N. split; [now left|]. right. vm_compute.
      intuition discriminate.
Defined.

(** C5, counterexample.  The graph built by [add_edge(20, 2)],
    [add_edge(2, 1)] and [add_node(14)], where the objects 1 and 14 are
    two DataSources of the same content: the second one is added because
    the first one has a predecessor by then.  Loading its document
    succeeds, but the record of node 14 meets the singleton guard before
    any link is loaded and collapses into node 1, so that the
    reserialized document has three node records instead of four. *)
Lemma serialization_round_trip_counterexample :
  construct Ex.H0 empty_graph
    (add_edge 20 2 false ;;; add_edge 2 1 false ;;;
     add_node 14 None true ;;; ret tt)%py%N
  = (Ex.H0, Ok Ex.g_two_sources) /\
  exists H' g',
    IRGraph_init Ex.H0 (Some (to_dict Ex.H0 Ex.g_two_sources)) = (H', Ok g') /\
    g_nodes g' = [20; 2; 1]%N /\
    In (instruction_to_dict 14%N (Ex.H0 14%N))
       (doc_nodes (to_dict Ex.H0 Ex.g_two_sources)) /\
    ~ In (instruction_to_dict 14%N (Ex.H0 14%N)) (doc_nodes (to_dict H' g')).
Proof.
  split.
  - vm_compute. reflexivity.
  - eexists. eexists. split; [vm_compute; reflexivity|].
    split; [reflexivity|]. split.
    + vm_compute. tauto.
    + vm_compute. intuition discriminate.
Qed.

(* ------------------------------------------------------------------ *)
(** ** The node contents of the two unions *)




Lemma fold_left_max_ge ss : forall s,
  s <= fold_left Z.max ss s /\
  (forall t, In t ss -> t <= fold_left Z.max ss s) /\
  In (fold_left Z.max ss s) (s :: ss).
Proof.
  induction ss as [|a ss IH]; intros s; simpl.
  - split; [lia|]. split; [intros t []|now left].
  - destruct (IH (Z.max s a)) as (A & B & C). split; [lia|]. split.
    + intros t [<-|Ht]; [lia|auto].
    + destruct C as [C|C]; [|auto].
      rewrite <- C. destruct (Z.max_spec s a) as [[_ ->]|[_ ->]]; auto.
Qed.






(* ------------------------------------------------------------------ *)
(** ** Copies into a new graph *)

(** [_add_node] of either class, when it returns: the check of
    [IRGraphEvaluable] may set the interface attribute first. *)
Lemma _add_node_any n deref w w' n' :
  _add_node n deref w = (w', Ok n') ->
  exists itf,
    add_outcome n deref (mkWorld (heap w) (set_interface (self w) itf))
                w' (Ok n').
Proof.
  intros E. destruct (g_class (self w)) eqn:Hc.
  - exists (g_interface (self w)).
    apply _add_node_outcome; [exact Hc|].
    destruct w as [H [c ns es i]]. exact E.
  - rewrite (Evaluable__add_node_eq n deref w Hc) in E.
    destruct (isinstance (heap w n) TIntermediateInstruction); [discriminate|].
    assert (Hsame : IRGraph__add_node n deref w = (w', Ok n') ->
              add_outcome n deref
                (mkWorld (heap w) (set_interface (self w) (g_interface (self w))))
                w' (Ok n')).
    { intros E'. pose proof (IRGraph__add_node_outcome n deref w) as Ho.
      rewrite E' in Ho. destruct w as [H [c ns es i]]. exact Ho. }
    destruct (isinstance (heap w n) TSourceInstruction); [|eauto].
    destruct (truthy (g_interface (self w))).
    + destruct (match g_interface (self w) with
                | Some s => String.eqb (interface_of (heap w n)) s
                | None => false
                end); [eauto|discriminate].
    + exists (Some (interface_of (heap w n))).
      pose proof (IRGraph__add_node_outcome n deref
                    (mkWorld (heap w)
                       (set_interface (self w)
                          (Some (interface_of (heap w n)))))) as Ho.
      rewrite E in Ho. exact Ho.
Qed.

(** What a returning [_add_node] does to the graph, for either class. *)
Lemma _add_node_struct n deref w w' n' :
  _add_node n deref w = (w', Ok n') ->
  heap w' = heap w /\ g_edges (self w') = g_edges (self w) /\
  g_class (self w') = g_class (self w) /\
  ((g_nodes (self w') = g_nodes (self w) /\ n' = n /\
    In n (g_nodes (self w))) \/
   (g_nodes (self w') = g_nodes (self w) /\
    has_node (self w) n = false /\
    isinstance (heap w n) TReference = true /\
    get_variable (heap w) (self w) (name_of (heap w n)) = Ok n') \/
   (g_nodes (self w') = g_nodes (self w) /\
    has_node (self w) n = false /\
    singleton_kind (heap w n) = true /\
    In n' (singleton_matches (heap w) (self w) n)) \/
   (g_nodes (self w') = g_nodes (self w) ++ [n] /\ n' = n /\
    has_node (self w) n = false /\
    (singleton_kind (heap w n) = true ->
     singleton_matches (heap w) (self w) n = []))).
Proof.
  intros E. destruct (_add_node_any n deref w w' n' E) as (itf & Ho).
  assert (Hkind : forall d, guarded (heap w) (set_interface (self w) itf) n d ->
                            singleton_kind (heap w n) = true).
  { intros d [Hs|[Hr _]]; unfold singleton_kind; rewrite ?Hs, ?Hr;
      auto using orb_true_r. }
  apply add_outcome_Ok_inv in Ho. simpl in Ho.
  destruct Ho as [(-> & -> & Hp)|[(-> & Hn & Hr & _ & Hg)|
                  [(-> & Hn & Hgd & Hm)|(-> & -> & Hn & Hins)]]]; simpl.
  - repeat split; auto. left. repeat split. now apply mem_In.
  - repeat split; auto. right. left. repeat split; assumption.
  - repeat split; auto. right. right. left. repeat split; eauto.
    change (singleton_matches (heap w) (self w) n)
      with (singleton_matches (heap w) (set_interface (self w) itf) n).
    rewrite Hm. now left.
  - repeat split; auto. right. right. right. repeat split; auto.
    intros Hk. destruct Hins as [Ht|[_ Hm]]; [|exact Hm].
    exfalso. unfold singleton_kind in Hk.
    destruct (heap w n); discriminate.
Qed.

(** When the Source and Reference nodes of [ng] are unique by content,
    each node added to the new graph stands for itself. *)
Lemma add_pairs_fresh H ng : forall ns w w' o2n,
  singletons_unique H ng ->
  incl ns (g_nodes ng) ->
  (forall n, In n ns -> isinstance (H n) TReference = true ->
             forall m, In m (g_nodes (self w)) \/ In m ns ->
                       isinstance (H m) TVariable = false) ->
  fresh_inv H ng w ->
  add_pairs ns w = (w', Ok o2n) ->
  fresh_inv H ng w' /\ o2n = map (fun n => (n, n)) ns /\
  g_class (self w') = g_class (self w) /\
  (forall n, In n (g_nodes (self w')) <-> In n (g_nodes (self w)) \/ In n ns).
Proof.
  induction ns as [|n ns IH]; intros w w' o2n Hu Hincl Hph Hinv E.
  - injection E as <- <-. split; [assumption|]. split; [reflexivity|].
    split; [reflexivity|]. intros n. simpl. tauto.
  - apply add_pairs_cons_Ok in E as (w1 & n' & o2n' & E1 & E2 & ->).
    destruct Hinv as (Hh & He & Hnd & Hsub).
    apply _add_node_struct in E1 as (Hh1 & He1 & Hc1 & Hcase).
    rewrite Hh in Hcase.
    assert (Hn_ng : In n (g_nodes ng)) by (apply Hincl; now left).
    assert (Hstep : n' = n /\ NoDup (g_nodes (self w1)) /\
                    (forall m, In m (g_nodes (self w1)) <->
                               In m (g_nodes (self w)) \/ m = n)).
    { destruct Hcase as [(En & -> & Hin)|[(En & Hn & Hr & Hg)|
                        [(En & Hn & Hk & Hm)|(En & -> & Hn & _)]]].
      - rewrite En. split; [reflexivity|]. split; [assumption|].
        intros m. split; [auto|]. intros [Hm| ->]; assumption.
      - exfalso. apply get_variable_Ok in Hg as [Hv _].
        apply In_vars_named in Hv as [Hv [ver Hver]].
        assert (Hnv : isinstance (H n') TVariable = false)
          by (apply (Hph n); auto; now left).
        rewrite Hver in Hnv. discriminate.
      - exfalso. apply In_singleton_matches in Hm as (Hin & Hs & _).
        apply same_content_eq in Hs.
        assert (n = n') by (apply Hu; auto).
        subst n'. apply mem_In in Hin. unfold has_node in Hn. congruence.
      - rewrite En. split; [reflexivity|]. split.
        + apply NoDup_app; [assumption|repeat constructor; intros []|].
          intros m Hm [<-|[]]. apply mem_In in Hm.
          unfold has_node in Hn. congruence.
        + intros m. rewrite in_app_iff. simpl. intuition. }
    destruct Hstep as (-> & Hnd1 & Hn1).
    destruct (IH w1 w' o2n') as (Hinv' & -> & Hc' & Hn'); auto.
    + intros m Hm. apply Hincl. now right.
    + intros m Hm Hr k Hk. apply (Hph m); [now right|assumption|].
      destruct Hk as [Hk|Hk]; [|right; now right].
      apply Hn1 in Hk as [Hk| ->]; [now left|right; now left].
    + repeat split; try congruence.
      intros m Hm. apply Hn1 in Hm as [Hm| ->]; auto.
    + split; [assumption|]. split; [reflexivity|]. split; [congruence|].
      intros m. rewrite Hn', Hn1. simpl. intuition.
Qed.

Lemma dict_get_identity ns k v :
  dict_get N.eqb (map (fun n : UUID => (n, n)) ns) k = Some v ->
  v = k /\ In k ns.
Proof.
  intros E. apply dict_get_In in E as (k' & Hin & Ek).
  apply N.eqb_eq in Ek. subst k'.
  apply in_map_iff in Hin as (n & En & Hn). injection En as -> ->. auto.
Qed.

(** [add_edge] between two nodes of the graph, for either class. *)
Lemma add_edge_any_present u v w w' :
  In u (g_nodes (self w)) -> In v (g_nodes (self w)) ->
  add_edge u v false w = (w', Ok tt) ->
  heap w' = heap w /\ g_nodes (self w') = g_nodes (self w) /\
  g_class (self w') = g_class (self w) /\
  (forall e, In e (g_edges (self w')) <-> In e (g_edges (self w)) \/ e = (u, v)).
Proof.
  intros Hu Hv E. unfold add_edge in E.
  apply bind_Ok in E as (w1 & ux & E1 & E).
  apply bind_Ok in E as (w2 & vx & E2 & E).
  assert (Hpresent : forall n wa wb n',
            In n (g_nodes (self wa)) -> _add_node n false wa = (wb, Ok n') ->
            n' = n /\ heap wb = heap wa /\
            g_nodes (self wb) = g_nodes (self wa) /\
            g_edges (self wb) = g_edges (self wa) /\
            g_class (self wb) = g_class (self wa)).
  { intros n wa wb n' Hn Ea.
    apply _add_node_struct in Ea as (Hh & He & Hc & Hcase).
    apply mem_In in Hn. unfold has_node in Hcase.
    destruct Hcase as [(En & -> & _)|[(_ & Hf & _)|[(_ & Hf & _)|(_ & _ & Hf & _)]]];
      try congruence.
    auto. }
  apply Hpresent in E1 as (-> & Hh1 & Hn1 & He1 & Hc1); [|assumption].
  apply Hpresent in E2 as (-> & Hh2 & Hn2 & He2 & Hc2); [|now rewrite Hn1].
  injection E as <-. simpl.
  assert (Hu2 : has_node (self w2) u = true)
    by (apply mem_In; now rewrite Hn2, Hn1).
  assert (Hv2 : has_node (self w2) v = true)
    by (apply mem_In; now rewrite Hn2, Hn1).
  unfold nx_add_edge, nx_add_node. rewrite Hu2, Hv2.
  split; [congruence|].
  destruct (mem_edge (u, v) (g_edges (self w2))) eqn:Em; simpl.
  - split; [congruence|]. split; [congruence|].
    intros e. rewrite He2, He1. split; [auto|].
    intros [He| ->]; [assumption|].
    apply mem_edge_In in Em. now rewrite He2, He1 in Em.
  - split; [congruence|]. split; [congruence|].
    intros e. rewrite in_app_iff, He2, He1. simpl. intuition.
Qed.

Lemma add_edges_any_present es : forall w w',
  (forall e, In e es -> In (fst e) (g_nodes (self w)) /\
                        In (snd e) (g_nodes (self w))) ->
  add_edges_from es false w = (w', Ok tt) ->
  heap w' = heap w /\ g_nodes (self w') = g_nodes (self w) /\
  g_class (self w') = g_class (self w) /\
  (forall e, In e (g_edges (self w')) <-> In e (g_edges (self w)) \/ In e es).
Proof.
  unfold add_edges_from.
  induction es as [|[u v] es IH]; intros w w' Hin E.
  - injection E as <-. repeat split; auto. intros [He|[]]. exact He.
  - rewrite forM__cons in E. simpl fst in E. simpl snd in E.
    destruct (add_edge u v false w) as [w1 [[]|err]] eqn:E1; [|discriminate].
    destruct (Hin (u, v) (or_introl eq_refl)) as [Hu Hv].
    apply add_edge_any_present in E1 as (Hh1 & Hn1 & Hc1 & He1);
      [|assumption|assumption].
    apply IH in E as (Hh & Hn & Hc & He).
    + split; [congruence|]. split; [congruence|]. split; [congruence|].
      intros e. rewrite He, He1. simpl. intuition.
    + intros e Hine. rewrite Hn1. apply Hin. now right.
Qed.

Lemma Forall2_eq {X : Type} (l l' : list X) : Forall2 eq l l' -> l = l'.
Proof. induction 1; congruence. Qed.

(** Merging a graph whose Source and Reference nodes are unique by
    content into a graph without nodes, of either class: the result has
    the nodes and the edges of the argument. *)
Lemma merge_fresh H ng g0 w' :
  g_nodes g0 = [] -> g_edges g0 = [] -> singletons_unique H ng ->
  merge ng (mkWorld H g0) = (w', Ok tt) ->
  heap w' = H /\ g_class (self w') = g_class g0 /\
  NoDup (g_nodes (self w')) /\
  (forall n, In n (g_nodes (self w')) <-> In n (g_nodes ng)) /\
  (forall e, In e (g_edges (self w')) <-> In e (nx_edges ng)).
Proof.
  intros Hn0 He0 Hu E.
  apply merge_Ok in E
    as (refs & o2n_refs & w3 & o2n_nonrefs & w4 & es & Er & E3 & E4 & Ee & E5).
  simpl in Er. pose proof (get_references_Ok H ng refs Er) as Hrefs.
  apply (add_pairs_fresh H ng) in E3 as (Hinv3 & -> & Hc3 & Hn3); auto.
  2:{ intros n Hn. now apply Hrefs. }
  2:{ intros n Hn Hr m [Hm|Hm].
      - simpl in Hm. rewrite Hn0 in Hm. destruct Hm.
      - apply Hrefs in Hm as [_ Hk]. destruct (H m); discriminate || reflexivity. }
  2:{ repeat split; simpl; auto; rewrite ?Hn0; try constructor.
      intros n []. }
  simpl in Hc3, Hn3. rewrite Hn0 in Hn3.
  set (ns2 := filter (fun n => negb (dict_mem N.eqb
                        (map (fun n : UUID => (n, n)) refs) n)) (g_nodes ng)) in *.
  assert (Hns2 : forall n, In n ns2 <-> In n (g_nodes ng) /\ ~ In n refs).
  { intros n. unfold ns2. rewrite filter_In, dict_mem_fst, map_map.
    simpl. rewrite map_id, negb_true_iff, mem_false. reflexivity. }
  apply (add_pairs_fresh H ng) in E4 as (Hinv4 & -> & Hc4 & Hn4); auto.
  2:{ intros n Hn. now apply Hns2. }
  2:{ intros n Hn Hr. exfalso. apply Hns2 in Hn as [Hn Hnr].
      apply Hnr, Hrefs. auto. }
  rewrite <- map_app in Ee. apply rewrite_edges_Ok in Ee.
  assert (Ees : es = nx_edges ng).
  { symmetry. apply Forall2_eq. eapply Forall2_impl; [|exact Ee].
    intros [a b] [c d] [Ea Eb]. simpl in Ea, Eb.
    apply dict_get_identity in Ea as [-> _].
    apply dict_get_identity in Eb as [-> _]. reflexivity. }
  assert (Hall : forall n, In n (g_nodes (self w4)) <-> In n (g_nodes ng)).
  { intros n. rewrite Hn4, Hn3. split.
    - intros [[[]|Hr]|H2]; [now apply Hrefs|now apply Hns2].
    - intros Hn. destruct (in_dec N.eq_dec n refs) as [Hr|Hr]; [auto|].
      right. apply Hns2. auto. }
  apply add_edges_any_present in E5 as (Hh5 & Hn5 & Hc5 & He5).
  - destruct Hinv4 as (Hh4 & He4 & Hnd4 & _).
    split; [congruence|]. split; [congruence|].
    split; [now rewrite Hn5|]. split.
    + intros n. rewrite Hn5. apply Hall.
    + intros e. rewrite He5, He4, Ees. simpl. tauto.
  - intros e He. destruct (Forall2_In_r _ _ _ e Ee He) as ([a b] & _ & Ea & Eb).
    simpl in Ea, Eb.
    apply dict_get_identity in Ea as [-> Ha].
    apply dict_get_identity in Eb as [-> Hb].
    assert (Hkeys : forall k, In k (refs ++ ns2) -> In k (g_nodes (self w4))).
    { intros k Hk. apply Hall. apply in_app_or in Hk as [Hk|Hk].
      - now apply Hrefs.
      - now apply Hns2. }
    auto.
Qed.

Lemma singleton_kind_content i j :
  singleton_kind i = true -> i = j -> singleton_kind j = true.
Proof. now intros Hk <-. Qed.

Lemma add_pairs_unique H : forall ns w w' o2n,
  uniq_inv H w ->
  add_pairs ns w = (w', Ok o2n) ->
  uniq_inv H w' /\
  g_class (self w') = g_class (self w) /\
  incl (g_nodes (self w)) (g_nodes (self w')) /\
  (forall p, In p o2n -> In (snd p) (g_nodes (self w'))).
Proof.
  induction ns as [|n ns IH]; intros w w' o2n Hinv E.
  - injection E as <- <-. split; [assumption|]. split; [reflexivity|].
    split; [apply incl_refl|]. intros p [].
  - apply add_pairs_cons_Ok in E as (w1 & n' & o2n' & E1 & E2 & ->).
    destruct Hinv as (Hh & He & Hnd & Hu).
    apply _add_node_struct in E1 as (Hh1 & He1 & Hc1 & Hcase).
    rewrite Hh in Hcase.
    assert (Hstep : uniq_inv H w1 /\ In n' (g_nodes (self w1)) /\
                    incl (g_nodes (self w)) (g_nodes (self w1))).
    { assert (Hsame : g_nodes (self w1) = g_nodes (self w) -> uniq_inv H w1).
      { intros En. split; [congruence|]. split; [congruence|].
        split; [now rewrite En|]. unfold singletons_unique. now rewrite En. }
      destruct Hcase as [(En & -> & Hin)|[(En & Hn & Hr & Hg)|
                        [(En & Hn & Hk & Hm)|(En & -> & Hn & Hnone)]]].
      - split; [auto|]. rewrite En. split; [assumption|apply incl_refl].
      - split; [auto|]. rewrite En. split; [|apply incl_refl].
        apply get_variable_Ok in Hg as [Hv _].
        now apply In_vars_named in Hv as [Hv _].
      - split; [auto|]. rewrite En. split; [|apply incl_refl].
        now apply In_singleton_matches in Hm as (Hin & _).
      - assert (Hfresh : ~ In n (g_nodes (self w)))
          by (apply mem_false; exact Hn).
        assert (Hno : forall x, In x (g_nodes (self w)) ->
                  singleton_kind (H n) = true -> H x <> H n).
        { intros x Hx Hk Ex.
          assert (Hin : In x (singleton_matches H (self w) n)).
          { unfold singleton_matches. apply filter_In. split; [assumption|].
            apply andb_true_iff. split; [now apply same_content_eq|].
            now rewrite in_degree_no_edges. }
          rewrite (Hnone Hk) in Hin. destruct Hin. }
        split; [|rewrite En; split;
                 [apply in_or_app; right; now left|apply incl_appl, incl_refl]].
        split; [congruence|]. split; [congruence|]. split.
        + rewrite En. apply NoDup_app; [assumption|repeat constructor; intros []|].
          intros m Hm [<-|[]]. auto.
        + intros a b Ha Hb Hk Eab. rewrite En in Ha, Hb.
          apply in_app_or in Ha as [Ha|[<-|[]]];
            apply in_app_or in Hb as [Hb|[<-|[]]].
          * now apply Hu.
          * exfalso. apply (Hno a Ha); [|assumption].
            exact (singleton_kind_content _ _ Hk Eab).
          * exfalso. apply (Hno b Hb); [assumption|now symmetry].
          * reflexivity. }
    destruct Hstep as (Hinv1 & Hn'1 & Hincl1).
    destruct (IH w1 w' o2n' Hinv1 E2) as (Hinv' & Hc' & Hincl' & Hv').
    split; [assumption|]. split; [congruence|].
    split; [eapply incl_tran; eauto|].
    intros p [<-|Hp]; [apply Hincl'; exact Hn'1|auto].
Qed.

(** Merging any graph into a graph without nodes, of either class: the
    objects are untouched, and the Source and Reference nodes of the
    result are unique by content. *)
Lemma merge_unique H ng g0 w' :
  g_nodes g0 = [] -> g_edges g0 = [] ->
  merge ng (mkWorld H g0) = (w', Ok tt) ->
  heap w' = H /\ g_class (self w') = g_class g0 /\
  NoDup (g_nodes (self w')) /\ singletons_unique H (self w').
Proof.
  intros Hn0 He0 E.
  apply merge_Ok in E
    as (refs & o2n_refs & w3 & o2n_nonrefs & w4 & es & Er & E3 & E4 & Ee & E5).
  apply (add_pairs_unique H) in E3 as (Hinv3 & Hc3 & Hincl3 & Hv3).
  2:{ split; [reflexivity|]. split; [exact He0|]. simpl. split.
      - rewrite Hn0. constructor.
      - intros a b Ha. rewrite Hn0 in Ha. destruct Ha. }
  apply (add_pairs_unique H) in E4 as (Hinv4 & Hc4 & Hincl4 & Hv4);
    [|assumption].
  apply rewrite_edges_Ok in Ee.
  apply add_edges_any_present in E5 as (Hh5 & Hn5 & Hc5 & He5).
  - destruct Hinv4 as (Hh4 & He4 & Hnd4 & Hu4).
    split; [congruence|]. split; [simpl in Hc3; congruence|].
    split; [now rewrite Hn5|]. unfold singletons_unique. now rewrite Hn5.
  - intros e He. destruct (Forall2_In_r _ _ _ e Ee He) as (e0 & _ & Ea & Eb).
    assert (Hval : forall k v,
              dict_get N.eqb (o2n_refs ++ o2n_nonrefs) k = Some v ->
              In v (g_nodes (self w4))).
    { intros k v Ek. apply dict_get_In in Ek as (k' & Hin & _).
      apply in_app_or in Hin as [Hin|Hin].
      - apply Hincl4. apply (Hv3 (k', v) Hin).
      - apply (Hv4 (k', v) Hin). }
    split; eapply Hval; eauto.
Qed.

Lemma singletons_unique_ext H H' g :
  (forall n, H' n = H n) -> singletons_unique H g -> singletons_unique H' g.
Proof.
  intros E Hu a b Ha Hb Hk Eab. rewrite !E in *. now apply Hu.
Qed.

Lemma singletons_unique_subgraph H g ns :
  singletons_unique H g -> singletons_unique H (induced_subgraph g ns).
Proof.
  intros Hu a b Ha Hb. simpl in Ha, Hb.
  apply filter_In in Ha as [Ha _]. apply filter_In in Hb as [Hb _].
  now apply Hu.
Qed.

(** [IRGraph.copy] of any graph: the objects are untouched and the Source
    and Reference nodes of the copy are unique by content. *)
Lemma copy_unique H g H1 g1 :
  copy H g = (H1, Ok g1) ->
  (forall n, H1 n = H n) /\ NoDup (g_nodes g1) /\ singletons_unique H g1.
Proof.
  unfold copy, construct. rewrite update_unfold.
  change (get_variables H empty_graph) with (@Ok (list UUID) []).
  cbv beta iota.
  destruct (merge g (mkWorld (prepared H empty_graph g []) empty_graph))
    as [w [[]|e]] eqn:E; [|discriminate].
  intros [= <- <-].
  apply merge_unique in E as (Hh & _ & Hnd & Hu); try reflexivity.
  assert (Hext : forall n, heap w n = H n)
    by (intros n; rewrite Hh; now apply prepared_fresh).
  split; [assumption|]. split; [assumption|].
  apply (singletons_unique_ext (heap w)); [auto|now rewrite Hh].
Qed.

(** [IRGraph.copy] of a graph whose Source and Reference nodes are unique
    by content: the copy has the nodes and the edges of the graph. *)
Lemma copy_fresh H g H1 g1 :
  singletons_unique H g ->
  copy H g = (H1, Ok g1) ->
  (forall n, H1 n = H n) /\ NoDup (g_nodes g1) /\
  (forall n, In n (g_nodes g1) <-> In n (g_nodes g)) /\
  (forall e, In e (g_edges g1) <-> In e (nx_edges g)).
Proof.
  intros Hu. unfold copy, construct. rewrite update_unfold.
  change (get_variables H empty_graph) with (@Ok (list UUID) []).
  cbv beta iota.
  destruct (merge g (mkWorld (prepared H empty_graph g []) empty_graph))
    as [w [[]|e]] eqn:E; [|discriminate].
  intros [= <- <-].
  assert (Hext : forall n, prepared H empty_graph g [] n = H n)
    by (intros n; now apply prepared_fresh).
  apply merge_fresh in E as (Hh & _ & Hnd & Hn & He); try reflexivity.
  - rewrite Hh. auto.
  - now apply (singletons_unique_ext H).
Qed.

(** [IRGraphEvaluable(graph)] for such a graph, when it is constructed. *)
Lemma evaluable_fresh H g H1 E :
  singletons_unique H g ->
  IRGraphEvaluable H g = (H1, Ok E) ->
  (forall n, H1 n = H n) /\
  (forall n, In n (g_nodes E) <-> In n (g_nodes g)) /\
  (forall e, In e (g_edges E) <-> In e (nx_edges g)).
Proof.
  intros Hu. rewrite IRGraphEvaluable_eq.
  destruct (merge g (mkWorld (prepared H new_evaluable g []) new_evaluable))
    as [w [[]|e]] eqn:Em; [|discriminate].
  intros [= <- <-].
  assert (Hext : forall n, prepared H new_evaluable g [] n = H n)
    by (intros n; now apply prepared_fresh).
  apply merge_fresh in Em as (Hh & _ & Hnd & Hn & He); try reflexivity.
  - rewrite Hh. split; [assumption|].
    destruct (negb (truthy (g_interface (self w)))); simpl; auto.
  - now apply (singletons_unique_ext H).
Qed.

(* ------------------------------------------------------------------ *)
(** ** Segmenter *)

Lemma In_successors g u v : In v (nx_succ g u) <-> In (u, v) (g_edges g).
Proof.
  unfold nx_succ. rewrite in_map_iff. split.
  - intros ([a b] & E & Hin). apply filter_In in Hin as [Hin Ea].
    simpl in *. apply N.eqb_eq in Ea. now subst.
  - intros Hin. exists (u, v). split; [reflexivity|].
    apply filter_In. split; [assumption|apply N.eqb_refl].
Qed.

Lemma In_predecessors g u v : In u (nx_pred g v) <-> In (u, v) (g_edges g).
Proof.
  unfold nx_pred. rewrite in_map_iff. split.
  - intros ([a b] & E & Hin). apply filter_In in Hin as [Hin Ea].
    simpl in *. apply N.eqb_eq in Ea. now subst.
  - intros Hin. exists (u, v). split; [reflexivity|].
    apply filter_In. split; [assumption|apply N.eqb_refl].
Qed.

(** Every node that the backward closure collects has a path to the
    start. *)
Lemma closure_sound g t universe : forall fuel seen,
  (forall x, In x seen -> x = t \/ path g x t) ->
  forall x, In x (closure (nx_succ g) universe fuel seen) ->
            x = t \/ path g x t.
Proof.
  induction fuel as [|fuel IH]; intros seen Hseen x Hx; [auto|].
  simpl in Hx.
  destruct (filter _ universe) as [|a layer] eqn:El; [auto|].
  apply (IH (seen ++ a :: layer)); [|exact Hx].
  intros y Hy. apply in_app_or in Hy as [Hy|Hy]; [auto|].
  rewrite <- El in Hy. apply filter_In in Hy as [_ Hy].
  apply andb_true_iff in Hy as [_ Hy].
  apply existsb_exists in Hy as (v & Hv & Hm).
  apply In_successors in Hv. apply mem_In in Hm. right.
  destruct (Hseen v Hm) as [->|Hp]; [now apply path_edge|].
  eapply path_cons; eauto.
Qed.

Lemma ancestors_sound g t l :
  ancestors g t = Ok l -> forall x, In x l -> path g x t.
Proof.
  unfold ancestors. destruct (has_node g t); [|discriminate].
  intros [= <-] x Hx. apply filter_In in Hx as [Hx Hne].
  apply negb_true_iff, N.eqb_neq in Hne.
  apply (closure_sound g t) in Hx as [->|Hp]; [congruence|assumption|].
  intros y [<-|[]]. now left.
Qed.

Lemma In_set_add x s y : In y (set_add x s) <-> y = x \/ In y s.
Proof.
  unfold set_add. destruct (mem x s) eqn:E.
  - apply mem_In in E. split; [auto|]. intros [->|Hy]; assumption.
  - rewrite in_app_iff. simpl. intuition.
Qed.

(** No edge of the cut graph enters a cached node. *)
Lemma cut_cached_no_in_edge {A : Type} (cache : list (UUID * A)) g1 u c :
  In c (g_nodes g1) -> cached cache c = true ->
  ~ In (u, c) (g_edges (cut_cached cache g1)).
Proof.
  intros Hc Hk Hin. unfold cut_cached, remove_edges_from in Hin. simpl in Hin.
  apply filter_In in Hin as [Hin Hrm].
  apply negb_true_iff in Hrm.
  assert (Hmem : In (u, c) (List.concat (map (in_edges g1)
                              (filter (cached cache) (g_nodes g1))))).
  { apply in_concat. exists (in_edges g1 c). split.
    - apply in_map. apply filter_In. auto.
    - unfold in_edges. apply in_map_iff. exists u. split; [reflexivity|].
      now apply In_predecessors. }
  assert (Ht : mem_edge (u, c) (List.concat (map (in_edges g1)
                 (filter (cached cache) (g_nodes g1)))) = true).
  { unfold mem_edge. apply existsb_exists. exists (u, c).
    split; [assumption|]. unfold edge_eqb. simpl. now rewrite !N.eqb_refl. }
  congruence.
Qed.

Lemma subgraph_Ok g ns view :
  subgraph g ns = Ok view ->
  view = induced_subgraph g ns /\ g_class g = cIRGraph.
Proof.
  unfold subgraph. destruct (g_class g); [|discriminate].
  intros [= <-]. split; reflexivity.
Qed.

Lemma duplicate_unique H g node H1 g1 :
  duplicate_dependent_subgraph_of_node H g node = (H1, Ok g1) ->
  (forall n, H1 n = H n) /\ NoDup (g_nodes g1) /\ singletons_unique H g1.
Proof.
  unfold duplicate_dependent_subgraph_of_node.
  destruct (ancestors g node) as [anc|e]; [|discriminate].
  destruct (subgraph g (set_add node anc)) as [view|e]; [|discriminate].
  apply copy_unique.
Qed.

(** The dependent subgraph of [node], copied out of a graph whose Source
    and Reference nodes are unique by content. *)
Lemma duplicate_fresh H g node H1 g1 :
  singletons_unique H g ->
  duplicate_dependent_subgraph_of_node H g node = (H1, Ok g1) ->
  (forall n, H1 n = H n) /\
  (forall n, In n (g_nodes g1) ->
             In n (g_nodes g) /\ (n = node \/ path g n node)) /\
  (forall e, In e (g_edges g1) -> In e (g_edges g)).
Proof.
  intros Hu. unfold duplicate_dependent_subgraph_of_node.
  destruct (ancestors g node) as [anc|e] eqn:Ea; [|discriminate].
  destruct (subgraph g (set_add node anc)) as [view|e] eqn:Es;
    [|discriminate].
  apply subgraph_Ok in Es as [-> _].
  intros E. apply copy_fresh in E as (Hext & _ & Hn & He);
    [|now apply singletons_unique_subgraph].
  split; [assumption|]. split.
  - intros n Hin. apply Hn in Hin. simpl in Hin.
    apply filter_In in Hin as [Hin Hm]. split; [assumption|].
    apply mem_In, In_set_add in Hm as [->|Hm]; [now left|].
    right. eapply ancestors_sound; eauto.
  - intros [u v] Hin. apply He, In_nx_edges in Hin as [_ Hin].
    simpl in Hin. now apply filter_In in Hin as [Hin _].
Qed.

(** The pruned graph of [find_cached_dependent_subgraph_of_node]. *)
Lemma find_cached_spec {A : Type} (cache : list (UUID * A)) H g node H2 g3 :
  find_cached_dependent_subgraph_of_node cache H g node = (H2, Ok g3) ->
  exists H1 g1,
    duplicate_dependent_subgraph_of_node H g node = (H1, Ok g1) /\
    (forall n, H2 n = H n) /\
    singletons_unique H g3 /\
    (forall n, In n (g_nodes g3) ->
               In n (g_nodes g1) /\
               (n = node \/ path (cut_cached cache g1) n node)) /\
    (forall e, In e (g_edges g3) -> In e (g_edges (cut_cached cache g1))).
Proof.
  unfold find_cached_dependent_subgraph_of_node.
  destruct (duplicate_dependent_subgraph_of_node H g node)
    as [H1 [g1|e]] eqn:E1; [|discriminate].
  cbv zeta. fold (cut_cached cache g1). intros E2.
  exists H1, g1. split; [reflexivity|].
  apply duplicate_unique in E1 as (Hext1 & _ & Hu1).
  assert (Hu2 : singletons_unique H1 (cut_cached cache g1))
    by (apply (singletons_unique_ext H); assumption).
  apply duplicate_fresh in E2 as (Hext2 & Hn & He); [|assumption].
  split; [intros n; now rewrite Hext2|]. split; [|split; assumption].
  intros a b Ha Hb. apply Hu1; [now apply Hn in Ha|now apply Hn in Hb].
Qed.

(** The graphs that [emit] constructs are parts of the pruned graph. *)
Lemma emit_spec H g :
  singletons_unique H g ->
  forall uns H1 H' dgs,
    (forall n, H1 n = H n) ->
    emit H1 g uns = (H', Ok dgs) ->
    (forall n, H' n = H n) /\
    forall E, In E dgs ->
      (forall n, In n (g_nodes E) -> In n (g_nodes g)) /\
      (forall e, In e (g_edges E) -> In e (g_edges g)).
Proof.
  intros Hu. induction uns as [|ns rest IH]; intros H1 H' dgs Hext E.
  - injection E as <- <-. split; [assumption|]. intros E [].
  - destruct ns as [|a ns']; [exact (IH H1 H' dgs Hext E)|].
    cbn [emit] in E.
    destruct (subgraph g (a :: ns')) as [view|e] eqn:Es; [|discriminate].
    apply subgraph_Ok in Es as [-> _].
    destruct (IRGraphEvaluable H1 (induced_subgraph g (a :: ns')))
      as [Ha [dg|e]] eqn:Ee; [|discriminate].
    destruct (emit Ha g rest) as [Hb [dgs'|e]] eqn:Er; [|discriminate].
    injection E as <- <-.
    apply evaluable_fresh in Ee as (Hexta & Hn & He).
    2:{ apply (singletons_unique_ext H); [assumption|].
        now apply singletons_unique_subgraph. }
    destruct (IH Ha Hb dgs') as (Hextb & Hrest); [|assumption|].
    { intros n. now rewrite Hexta. }
    split; [assumption|].
    intros E [<-|HE]; [|auto]. split.
    + intros n Hin. apply Hn in Hin. simpl in Hin.
      now apply filter_In in Hin as [Hin _].
    + intros [u v] Hin. apply He, In_nx_edges in Hin as [_ Hin].
      simpl in Hin. now apply filter_In in Hin as [Hin _].
Qed.

(** C6. Segmenter cache correctness.  Whenever
    [find_dependent_subgraphs_of_node(node, cache)] returns, with [g1]
    the copy of the dependent subgraph of [node] that it starts from and
    the cut graph being [g1] without the incoming edges of its cached
    nodes: in every emitted graph a node whose id is in the cache has no
    incoming edge; every node of an emitted graph is [node] or has a path
    to [node] in the cut graph, so that whatever the cut disconnected
    from [node] is discarded; every edge of an emitted graph is an edge of
    the cut graph; and no object is modified. *)
Theorem segmenter_cache_correctness :
  forall (A : Type) (cache : list (UUID * A)) (H : Heap) (self_ : IRGraph)
         (node : UUID) (H' : Heap) (dgs : list IRGraph),
    find_dependent_subgraphs_of_node cache H self_ node = (H', Ok dgs) ->
    exists H1 g1,
      duplicate_dependent_subgraph_of_node H self_ node = (H1, Ok g1) /\
      (forall n, H' n = H n) /\
      forall E, In E dgs ->
        (forall c, In c (g_nodes E) -> cached cache c = true ->
                   in_degree E c = 0%nat) /\
        (forall n, In n (g_nodes E) ->
                   n = node \/ path (cut_cached cache g1) n node) /\
        (forall e, In e (g_edges E) ->
                   In e (g_edges (cut_cached cache g1))).
Proof.
  intros A cache H self_ node H' dgs E.
  unfold find_dependent_subgraphs_of_node in E.
  destruct (find_cached_dependent_subgraph_of_node cache H self_ node)
    as [H2 [g3|e]] eqn:Ec; [|discriminate].
  apply find_cached_spec in Ec as (H1 & g1 & E1 & Hext & Hu & Hn & He).
  destruct (source_buckets cache H2 g3 []
              (get_nodes_by_type H2 g3 TSourceInstruction))
    as [a2ns0|e]; [|discriminate].
  cbv zeta in E.
  apply (emit_spec H g3 Hu) in E as (Hext' & Hdgs); [|assumption].
  exists H1, g1. split; [assumption|]. split; [assumption|].
  intros E HE. destruct (Hdgs E HE) as [HnE HeE].
  assert (Hedge : forall e, In e (g_edges E) ->
                            In e (g_edges (cut_cached cache g1))) by auto.
  split; [|split; [|assumption]].
  - intros c Hc Hk. unfold in_degree, nx_pred.
    rewrite filter_none; [reflexivity|].
    intros [u v] Hin. simpl.
    destruct (N.eqb_spec v c) as [->|Hne]; [|reflexivity].
    exfalso. apply (cut_cached_no_in_edge cache g1 u c).
    + apply (Hn c). auto.
    + assumption.
    + auto.
  - intros n Hin. apply (Hn n). auto.
Qed.

(** The pipeline with its intermediate variable cached: the only emitted
    graph starts at the variable, which has no incoming edge there. *)
Lemma segmenter_cache_correctness_witness :
  exists H' E H1 g1,
    find_dependent_subgraphs_of_node [(3%N, tt)] Ex.H0 Ex.g_pipeline 4%N
    = (H', Ok [E]) /\
    g_nodes E = [3; 5; 4]%N /\
    duplicate_dependent_subgraph_of_node Ex.H0 Ex.g_pipeline 4%N
    = (H1, Ok g1) /\
    (forall c, In c (g_nodes E) -> cached [(3%N, tt)] c = true ->
               in_degree E c = 0%nat) /\
    (forall n, In n (g_nodes E) ->
               n = 4%N \/ path (cut_cached [(3%N, tt)] g1) n 4%N).
Proof.
  destruct (find_dependent_subgraphs_of_node [(3%N, tt)] Ex.H0 Ex.g_pipeline 4%N)
    as [H' r] eqn:Er.
  assert (Hr : r = Ok [mkGraph cIRGraphEvaluable [3; 5; 4]%N
                          [(3, 5); (5, 4)]%N (Some CACHE_INTERFACE_IDENTIFIER)]).
  { change r with (snd (H', r)). rewrite <- Er. vm_compute. reflexivity. }
  subst r.
  destruct (segmenter_cache_correctness unit [(3%N, tt)] Ex.H0 Ex.g_pipeline
              4%N H' _ Er) as (H1 & g1 & E1 & _ & Hdgs).
  eexists. eexists. exists H1, g1.
  split; [reflexivity|]. split; [reflexivity|]. split; [exact E1|].
  destruct (Hdgs _ (or_introl eq_refl)) as (Hin & Hpath & _).
  split; assumption.
Defined.

(* ================================================================== *)
(** * Further properties of the code *)

(** ** The artifact dictionary of [InMemoryCache] *)

Lemma dict_find_del_same {V : Type} (d : list (UUID * V)) k :
  dict_find (dict_del d k) k = None.
Proof.
  induction d as [|[a b] d IH]; simpl; [reflexivity|].
  destruct (N.eqb_spec a k) as [->|Hak]; simpl; [exact IH|].
  destruct (N.eqb_spec a k); [congruence|exact IH].
Qed.

Lemma dict_find_del_other {V : Type} (d : list (UUID * V)) k k' :
  k' <> k -> dict_find (dict_del d k) k' = dict_find d k'.
Proof.
  intros Hne. induction d as [|[a b] d IH]; simpl; [reflexivity|].
  destruct (N.eqb_spec a k) as [->|Hak]; simpl.
  - destruct (N.eqb_spec k k'); [congruence|exact IH].
  - destruct (N.eqb a k'); [reflexivity|exact IH].
Qed.

(** X1. [cache[k] = v] followed by [cache[k]] gives [v] back; on a cache
    that only [__setitem__] and [__delitem__] have written, the
    assignment leaves every other key as it was and keeps the cache in
    that state. *)
Theorem cache_setitem_getitem :
  forall (DataFrame : Type) (c : InMemoryCache DataFrame) (k : UUID)
         (v : DataFrame),
    getitem (setitem c k v) k = Ok v /\
    (cache_ok c ->
     cache_ok (setitem c k v) /\
     forall k', k' <> k -> getitem (setitem c k v) k' = getitem c k').
Proof.
  intros DataFrame c k v. split.
  - unfold getitem, setitem. simpl. now rewrite !dict_find_set_same.
  - intros [Hid Hkeys]. split.
    + split.
      * intros a j. simpl. destruct (N.eq_dec a k) as [->|Hne].
        -- rewrite dict_find_set_same. now intros [= <-].
        -- rewrite dict_find_set_other by assumption. apply Hid.
      * intros a. simpl. destruct (N.eq_dec a k) as [->|Hne].
        -- rewrite !dict_find_set_same. split; discriminate.
        -- rewrite !dict_find_set_other by assumption. apply Hkeys.
    + intros k' Hne. unfold getitem, setitem. simpl.
      rewrite dict_find_set_other by assumption.
      destruct (dict_find (cache_catalog c) k') as [j|] eqn:Ej; [|reflexivity].
      apply Hid in Ej. subst j.
      now rewrite dict_find_set_other by assumption.
Qed.

Lemma cache_setitem_getitem_witness :
  cache_ok (setitem Ex.empty_cache 3%N 7%nat) /\
  getitem (setitem (setitem Ex.empty_cache 3%N 7%nat) 4%N 9%nat) 3%N = Ok 7%nat.
Proof.
  assert (H0 : cache_ok Ex.empty_cache).
  { split; [intros k j; discriminate|intros k; split; reflexivity]. }
  destruct (cache_setitem_getitem nat Ex.empty_cache 3%N 7%nat) as [_ H1].
  destruct (H1 H0) as [Hok _]. split; [exact Hok|].
  destruct (cache_setitem_getitem nat (setitem Ex.empty_cache 3%N 7%nat)
              4%N 9%nat) as [_ H2].
  destruct (H2 Hok) as [_ Hother].
  rewrite Hother by discriminate. reflexivity.
Defined.

(** X2. [del cache[k]] on a cache that only [__setitem__] and
    [__delitem__] have written: when [k] has an artifact the deletion
    succeeds, [cache[k]] raises KeyError afterwards and every other key is
    as it was; when [k] has none, the deletion raises KeyError and changes
    nothing. *)
Theorem cache_delitem :
  forall (DataFrame : Type) (c : InMemoryCache DataFrame) (k : UUID),
    cache_ok c ->
    (forall v, getitem c k = Ok v ->
       exists c', delitem c k = (c', Ok tt) /\ cache_ok c' /\
                  getitem c' k = Raise KeyError /\
                  forall k', k' <> k -> getitem c' k' = getitem c k') /\
    (forall e, getitem c k = Raise e ->
       e = KeyError /\ delitem c k = (c, Raise KeyError)).
Proof.
  intros DataFrame c k [Hid Hkeys]. split.
  - intros v Hv. unfold getitem in Hv.
    destruct (dict_find (cache_catalog c) k) as [j|] eqn:Ej; [|discriminate].
    pose proof (Hid _ _ Ej) as ->.
    destruct (dict_find (cache_ c) k) as [df|] eqn:Ek; [|discriminate].
    unfold delitem. rewrite Ek, Ej. eexists. split; [reflexivity|].
    split; [split|split].
    + intros a j. simpl. destruct (N.eq_dec a k) as [->|Hne].
      * now rewrite dict_find_del_same.
      * rewrite dict_find_del_other by assumption. apply Hid.
    + intros a. simpl. destruct (N.eq_dec a k) as [->|Hne].
      * rewrite !dict_find_del_same. tauto.
      * rewrite !dict_find_del_other by assumption. apply Hkeys.
    + unfold getitem. simpl. now rewrite dict_find_del_same.
    + intros k' Hne. unfold getitem. simpl.
      rewrite dict_find_del_other by assumption.
      destruct (dict_find (cache_catalog c) k') as [j|] eqn:Ej'; [|reflexivity].
      apply Hid in Ej'. subst j.
      now rewrite dict_find_del_other by assumption.
  - intros e He. unfold getitem in He.
    assert (Hnone : dict_find (cache_ c) k = None).
    { destruct (dict_find (cache_catalog c) k) as [j|] eqn:Ej.
      - pose proof (Hid _ _ Ej) as ->.
        destruct (dict_find (cache_ c) k); [discriminate|reflexivity].
      - now apply Hkeys. }
    split.
    + destruct (dict_find (cache_catalog c) k) as [j|];
        [destruct (dict_find (cache_ c) j)|]; congruence.
    + unfold delitem. now rewrite Hnone.
Qed.

Lemma cache_delitem_witness :
  (exists c', delitem (setitem Ex.empty_cache 3%N 7%nat) 3%N = (c', Ok tt) /\
              getitem c' 3%N = Raise KeyError) /\
  delitem Ex.empty_cache 3%N = (Ex.empty_cache, Raise KeyError).
Proof.
  assert (H0 : cache_ok Ex.empty_cache).
  { split; [intros k j; discriminate|intros k; split; reflexivity]. }
  assert (H1 : cache_ok (setitem Ex.empty_cache 3%N 7%nat)).
  { split.
    - intros k j.
      change ((if N.eqb 3 k then Some 3%N else None) = Some j -> j = k).
      destruct (N.eqb_spec 3 k) as [<-|]; [now intros [= <-]|discriminate].
    - intros k.
      change ((if N.eqb 3 k then Some 3%N else None) = None <->
              (if N.eqb 3 k then Some 7%nat else None) = None).
      destruct (N.eqb 3 k); split; auto; discriminate. }
  split.
  - destruct (cache_delitem nat (setitem Ex.empty_cache 3%N 7%nat) 3%N H1)
      as [Hdel _].
    destruct (Hdel 7%nat eq_refl) as (c' & E & _ & Hget & _).
    exists c'. auto.
  - destruct (cache_delitem nat Ex.empty_cache 3%N H0) as [_ Hmiss].
    exact (proj2 (Hmiss KeyError eq_refl)).
Defined.

(** ** The evaluator and the predecessors of a node *)

(** X3. The evaluator only ever takes the first predecessor of a node:
    two graphs of the same class with the same nodes, in which every node
    has the same first predecessor (or none), give the same outcome, the
    same cache and the same backend calls for every instruction, whatever
    other predecessors the nodes have. *)
Theorem evaluator_first_predecessor_only :
  forall (DataFrame : Type) (src : Instruction -> result DataFrame)
         (trf : Instruction -> DataFrame -> result DataFrame)
         (H : Heap) (graph graph' : IRGraph),
    g_class graph = g_class graph' ->
    (forall n, has_node graph n = has_node graph' n) ->
    (forall n, has_node graph n = true ->
               hd_error (nx_pred graph n) = hd_error (nx_pred graph' n)) ->
    forall fuel ins (c : InMemoryCache DataFrame),
      _evaluate_instruction_in_graph src trf fuel H graph ins c
      = _evaluate_instruction_in_graph src trf fuel H graph' ins c.
Proof.
  intros DataFrame src trf H graph graph' Hc Hn Hhd.
  assert (Hev : is_evaluable graph = is_evaluable graph')
    by (unfold is_evaluable; now rewrite Hc).
  assert (Hnp : forall n, next_predecessor graph n = next_predecessor graph' n).
  { intros n. unfold next_predecessor, predecessors. rewrite <- Hn.
    destruct (has_node graph n) eqn:E; [|reflexivity].
    specialize (Hhd n E).
    destruct (nx_pred graph n) as [|p ps];
      destruct (nx_pred graph' n) as [|p' ps'];
      try discriminate Hhd; [reflexivity|].
    now injection Hhd as <-. }
  induction fuel as [|fuel IH]; intros ins c; [reflexivity|].
  rewrite !eval_S. rewrite <- Hev, <- Hnp.
  destruct (next_predecessor graph ins) as [p|e]; [rewrite !IH|]; reflexivity.
Qed.

(** A join of two pipelines over one source, with both inputs and with
    its second input edge removed: the join evaluates alike. *)
Lemma evaluator_first_predecessor_only_witness :
  _evaluate_instruction_in_graph Ex.src Ex.trf 5 Ex.H0
    (mkGraph cIRGraphEvaluable [1; 2; 5; 22]%N
             [(1, 2); (1, 5); (2, 22); (5, 22)]%N (Some "A")) 22%N
    Ex.empty_cache
  = _evaluate_instruction_in_graph Ex.src Ex.trf 5 Ex.H0
      (mkGraph cIRGraphEvaluable [1; 2; 5; 22]%N
               [(1, 2); (1, 5); (2, 22)]%N (Some "A")) 22%N Ex.empty_cache.
Proof.
  apply evaluator_first_predecessor_only.
  - reflexivity.
  - intros n. reflexivity.
  - intros n _. unfold nx_pred. cbn [g_edges filter snd].
    destruct (N.eqb 2 n); [reflexivity|].
    destruct (N.eqb 5 n); [reflexivity|].
    destruct (N.eqb 22 n); reflexivity.
Defined.

(** ** Look-ups by name *)

Lemma filter_singleton {X : Type} (P : X -> bool) l :
  NoDup l ->
  (filter P l = [] <-> forall y, In y l -> P y = false) /\
  (forall x, filter P l = [x] <->
             In x l /\ P x = true /\
             forall y, In y l -> P y = true -> y = x) /\
  ((exists a b rest, filter P l = a :: b :: rest) <->
   exists a b, a <> b /\ In a l /\ In b l /\ P a = true /\ P b = true).
Proof.
  intros Hnd.
  assert (Hmem : forall y, In y (filter P l) <-> In y l /\ P y = true)
    by (intros y; apply filter_In).
  split; [|split].
  - split.
    + intros E y Hy. destruct (P y) eqn:Py; [|reflexivity].
      assert (Hin : In y (filter P l)) by (apply Hmem; auto).
      rewrite E in Hin. destruct Hin.
    + intros Hno. now apply filter_none.
  - intros x. split.
    + intros E.
      assert (Hx : In x (filter P l)) by (rewrite E; now left).
      apply Hmem in Hx as [Hx Px]. repeat split; auto.
      intros y Hy Py. assert (Hin : In y (filter P l)) by (apply Hmem; auto).
      rewrite E in Hin. destruct Hin as [<-|[]]. reflexivity.
    + intros (Hx & Px & Huniq).
      destruct (filter_at_most_one P l Hnd) as [E|[x' E]].
      * intros a b Ha Hb Pa Pb. rewrite (Huniq a Ha Pa), (Huniq b Hb Pb).
        reflexivity.
      * assert (Hin : In x (filter P l)) by (apply Hmem; auto).
        rewrite E in Hin. destruct Hin.
      * assert (Hin : In x (filter P l)) by (apply Hmem; auto).
        rewrite E in Hin. destruct Hin as [->|[]]. exact E.
  - split.
    + intros (a & b & rest & E).
      assert (Hnd' : NoDup (filter P l)) by now apply NoDup_filter.
      rewrite E in Hnd'. inversion Hnd' as [|? ? Hnotin _]; subst.
      assert (Ha : In a (filter P l)) by (rewrite E; now left).
      assert (Hb : In b (filter P l)) by (rewrite E; right; now left).
      apply Hmem in Ha as [Ha Pa]. apply Hmem in Hb as [Hb Pb].
      exists a, b. repeat split; auto.
      intros ->. apply Hnotin. now left.
    + intros (a & b & Hne & Ha & Hb & Pa & Pb).
      assert (Ha' : In a (filter P l)) by (apply Hmem; auto).
      assert (Hb' : In b (filter P l)) by (apply Hmem; auto).
      destruct (filter P l) as [|c [|d rest]]; [destruct Ha'| |eauto].
      destruct Ha' as [<-|[]]. destruct Hb' as [<-|[]]. congruence.
Qed.

(** X6. [get_reference(name)] on a graph: it returns a node exactly when
    that node is the only Reference of the name among the nodes; it raises
    ReferenceNotFound exactly when no node is a Reference of the name, and
    DuplicatedReference exactly when two different nodes are; it raises
    nothing else. *)
Theorem get_reference_outcomes :
  forall (H : Heap) (g : IRGraph) (x : string),
    NoDup (g_nodes g) ->
    (forall r, get_reference H g x = Ok r <->
               In r (g_nodes g) /\ H r = Reference x /\
               forall r', In r' (g_nodes g) -> H r' = Reference x -> r' = r) /\
    (get_reference H g x = Raise ReferenceNotFound <->
     forall n, In n (g_nodes g) -> H n <> Reference x) /\
    (get_reference H g x = Raise DuplicatedReference <->
     exists a b, a <> b /\ In a (g_nodes g) /\ In b (g_nodes g) /\
                 H a = Reference x /\ H b = Reference x) /\
    (forall e, get_reference H g x = Raise e ->
               e = ReferenceNotFound \/ e = DuplicatedReference).
Proof.
  intros H g x Hnd.
  assert (HP : forall n, is_ref_named x (H n) = true <-> H n = Reference x).
  { intros n. unfold is_ref_named. destruct (H n); split; try discriminate.
    - intros E. apply String.eqb_eq in E. now subst.
    - intros [= ->]. apply String.eqb_refl. }
  destruct (filter_singleton (fun n => is_ref_named x (H n)) (g_nodes g) Hnd)
    as (H0 & H1 & H2).
  rewrite <- refs_named_filter in H0, H1, H2.
  unfold get_reference. fold (refs_named H g x).
  split; [|split; [|split]].
  - intros r. rewrite <- (HP r).
    assert (Hall : (forall r', In r' (g_nodes g) -> H r' = Reference x -> r' = r)
                   <-> (forall y, In y (g_nodes g) ->
                                  is_ref_named x (H y) = true -> y = r)).
    { split; intros Hu y Hy Py; apply Hu; auto; now apply HP. }
    rewrite Hall, <- H1.
    destruct (refs_named H g x) as [|a [|b l]]; split; intros E;
      try discriminate; congruence.
  - assert (Hall : (forall n, In n (g_nodes g) -> H n <> Reference x)
                   <-> (forall y, In y (g_nodes g) ->
                                  is_ref_named x (H y) = false)).
    { split; intros Hu y Hy.
      - destruct (is_ref_named x (H y)) eqn:E; [|reflexivity].
        apply HP in E. destruct (Hu y Hy E).
      - intros E. apply HP in E. rewrite (Hu y Hy) in E. discriminate. }
    rewrite Hall, <- H0.
    destruct (refs_named H g x) as [|a [|b l]]; split; intros E;
      try discriminate; reflexivity.
  - assert (Hall : (exists a b, a <> b /\ In a (g_nodes g) /\ In b (g_nodes g) /\
                                H a = Reference x /\ H b = Reference x)
                   <-> (exists a b, a <> b /\ In a (g_nodes g) /\
                                    In b (g_nodes g) /\
                                    is_ref_named x (H a) = true /\
                                    is_ref_named x (H b) = true)).
    { split; intros (a & b & Hne & Ha & Hb & Pa & Pb); exists a, b;
        repeat split; auto; now apply HP. }
    rewrite Hall, <- H2.
    destruct (refs_named H g x) as [|a [|b l]]; split; intros E;
      try discriminate; try reflexivity; eauto.
    + destruct E as (? & ? & ? & E). discriminate.
    + destruct E as (? & ? & ? & E). discriminate.
  - intros e. destruct (refs_named H g x) as [|a [|b l]]; intros [= <-]; auto.
Qed.

Lemma get_reference_outcomes_witness :
  get_reference Ex.H0 Ex.h_s3 "x" = Ok 10%N /\
  get_reference Ex.H0 Ex.g_s1 "x" = Raise ReferenceNotFound.
Proof.
  assert (H3 : NoDup (g_nodes Ex.h_s3))
    by (vm_compute; repeat constructor; simpl; intuition discriminate).
  assert (H1 : NoDup (g_nodes Ex.g_s1))
    by (vm_compute; repeat constructor; simpl; intuition discriminate).
  split.
  - apply (proj1 (get_reference_outcomes Ex.H0 Ex.h_s3 "x" H3)).
    split; [simpl; auto|]. split; [reflexivity|].
    intros r' Hin Hr. simpl in Hin.
    destruct Hin as [<-|[<-|[<-|[]]]]; try discriminate Hr. reflexivity.
  - apply (proj1 (proj2 (get_reference_outcomes Ex.H0 Ex.g_s1 "x" H1))).
    intros n Hin Hr. simpl in Hin.
    destruct Hin as [<-|[<-|[<-|[<-|[]]]]]; discriminate Hr.
Defined.

Lemma is_datasource_true i d ins :
  forallb (fun kv : string * pyval =>
             match getattr ins (fst kv) with
             | Some v => pyval_eqb v (snd kv)
             | None => false
             end)
          [("interface", VStr i); ("datasource", VStr d)]
  && isinstance ins TDataSource = true <-> ins = DataSource i d.
Proof.
  destruct ins; unfold isinstance; simpl; split; try discriminate;
    rewrite ?andb_false_r; try discriminate.
  - rewrite !andb_true_r. intros E. apply andb_true_iff in E as [E1 E2].
    apply String.eqb_eq in E1, E2. now subst.
  - intros [= -> ->]. now rewrite !String.eqb_refl.
Qed.

(** X7. [get_datasource(interface, datasource)]: it returns a node exactly
    when that node is the only DataSource of the given interface and name
    among the nodes, whatever its edges; it raises DataSourceNotFound
    exactly when there is none and DuplicatedDataSource exactly when two
    different nodes are such DataSources; it raises nothing else. *)
Theorem get_datasource_outcomes :
  forall (H : Heap) (g : IRGraph) (i d : string),
    NoDup (g_nodes g) ->
    (forall s, get_datasource H g i d = Ok s <->
               In s (g_nodes g) /\ H s = DataSource i d /\
               forall s', In s' (g_nodes g) -> H s' = DataSource i d -> s' = s) /\
    (get_datasource H g i d = Raise DataSourceNotFound <->
     forall n, In n (g_nodes g) -> H n <> DataSource i d) /\
    (get_datasource H g i d = Raise DuplicatedDataSource <->
     exists a b, a <> b /\ In a (g_nodes g) /\ In b (g_nodes g) /\
                 H a = DataSource i d /\ H b = DataSource i d) /\
    (forall e, get_datasource H g i d = Raise e ->
               e = DataSourceNotFound \/ e = DuplicatedDataSource).
Proof.
  intros H g i d Hnd.
  set (P := fun n : UUID =>
              forallb (attr_match H n)
                      [("interface", VStr i); ("datasource", VStr d)]
              && isinstance (H n) TDataSource).
  assert (HP : forall n, P n = true <-> H n = DataSource i d)
    by (intros n; apply is_datasource_true).
  assert (Exs : get_nodes_by_type_and_attributes H g TDataSource
                  [("interface", VStr i); ("datasource", VStr d)]
                = filter P (g_nodes g)).
  { unfold get_nodes_by_type_and_attributes, get_nodes_by_type.
    rewrite <- filter_andb. apply filter_ext. intros n. unfold P.
    apply andb_comm. }
  destruct (filter_singleton P (g_nodes g) Hnd) as (H0 & H1 & H2).
  unfold get_datasource. rewrite Exs.
  split; [|split; [|split]].
  - intros s. rewrite <- (HP s).
    assert (Hall : (forall s', In s' (g_nodes g) -> H s' = DataSource i d -> s' = s)
                   <-> (forall y, In y (g_nodes g) -> P y = true -> y = s)).
    { split; intros Hu y Hy Py; apply Hu; auto; now apply HP. }
    rewrite Hall, <- H1.
    destruct (filter P (g_nodes g)) as [|a [|b l]]; split; intros E;
      try discriminate; congruence.
  - assert (Hall : (forall n, In n (g_nodes g) -> H n <> DataSource i d)
                   <-> (forall y, In y (g_nodes g) -> P y = false)).
    { split; intros Hu y Hy.
      - destruct (P y) eqn:E; [|reflexivity].
        apply HP in E. destruct (Hu y Hy E).
      - intros E. apply HP in E. rewrite (Hu y Hy) in E. discriminate. }
    rewrite Hall, <- H0.
    destruct (filter P (g_nodes g)) as [|a [|b l]]; split; intros E;
      try discriminate; reflexivity.
  - assert (Hall : (exists a b, a <> b /\ In a (g_nodes g) /\ In b (g_nodes g) /\
                                H a = DataSource i d /\ H b = DataSource i d)
                   <-> (exists a b, a <> b /\ In a (g_nodes g) /\
                                    In b (g_nodes g) /\
                                    P a = true /\ P b = true)).
    { split; intros (a & b & Hne & Ha & Hb & Pa & Pb); exists a, b;
        repeat split; auto; now apply HP. }
    rewrite Hall, <- H2.
    destruct (filter P (g_nodes g)) as [|a [|b l]]; split; intros E;
      try discriminate; try reflexivity; eauto.
    + destruct E as (? & ? & ? & E). discriminate.
    + destruct E as (? & ? & ? & E). discriminate.
  - intros e. destruct (filter P (g_nodes g)) as [|a [|b l]]; intros [= <-]; auto.
Qed.

(** In the graph of the round-trip counterexample the two DataSources of
    [A://t1] are both found, although only one of them has no
    predecessor. *)
Lemma get_datasource_outcomes_witness :
  get_datasource Ex.H0 Ex.g_two_sources "A" "t1" = Raise DuplicatedDataSource /\
  get_datasource Ex.H0 Ex.g_two_sources "B" "t2" = Ok 20%N.
Proof.
  assert (Hnd : NoDup (g_nodes Ex.g_two_sources))
    by (vm_compute; repeat constructor; simpl; intuition discriminate).
  split.
  - apply (proj1 (proj2 (proj2
             (get_datasource_outcomes Ex.H0 Ex.g_two_sources "A" "t1" Hnd)))).
    exists 1%N, 14%N. simpl. repeat split; auto. discriminate.
  - apply (proj1 (get_datasource_outcomes Ex.H0 Ex.g_two_sources "B" "t2" Hnd)).
    split; [simpl; auto|]. split; [reflexivity|].
    intros s' Hin Hs. simpl in Hin.
    destruct Hin as [<-|[<-|[<-|[<-|[]]]]]; try discriminate Hs. reflexivity.
Defined.

(** ** The symbol table *)

Lemma get_variable_Raise H g x e :
  get_variable H g x = Raise e ->
  (e = VariableNotFound /\ vars_named H g x = []) \/
  (e = DuplicatedVariable /\
   ~ NoDup (map (fun n => version_of (H n)) (vars_named H g x))).
Proof.
  unfold get_variable. fold (vars_named H g x).
  destruct (vars_named H g x) as [|n l] eqn:E; [intros [= <-]; auto|].
  destruct (_ <? _)%nat eqn:El; [|discriminate].
  intros [= <-]. right. split; [reflexivity|]. intros Hnd.
  rewrite (nodup_fixed_point Z.eq_dec Hnd), length_map, Nat.ltb_irrefl in El.
  discriminate.
Qed.

Lemma nodup_length_eq {X : Type} (dec : forall x y : X, {x = y} + {x <> y}) l :
  List.length (nodup dec l) = List.length l -> NoDup l.
Proof.
  induction l as [|x l IH]; intros E; [constructor|].
  simpl in E. destruct (in_dec dec x l) as [Hin|Hnin].
  - pose proof (nodup_length_le dec l). lia.
  - simpl in E. constructor; [assumption|]. apply IH. lia.
Qed.

(** When [get_variable] returns, the versions of the name are pairwise
    different. *)
Lemma get_variable_Ok_NoDup H g x v :
  get_variable H g x = Ok v ->
  NoDup (map (fun n => version_of (H n)) (vars_named H g x)).
Proof.
  unfold get_variable. fold (vars_named H g x).
  destruct (vars_named H g x) as [|n l] eqn:E; [discriminate|].
  destruct (_ <? _)%nat eqn:El; [discriminate|]. intros _.
  apply Nat.ltb_ge in El.
  apply (nodup_length_eq Z.eq_dec).
  pose proof (nodup_length_le Z.eq_dec
                (map (fun n => version_of (H n)) (n :: l))) as Hle.
  rewrite length_map in Hle. rewrite length_map. lia.
Qed.

Lemma In_variable_names H g x :
  In x (nodup string_dec
          (map (fun v => name_of (H v)) (get_nodes_by_type H g TVariable)))
  <-> vars_named H g x <> [].
Proof.
  rewrite nodup_In, in_map_iff. split.
  - intros (n & En & Hn). unfold get_nodes_by_type in Hn.
    apply filter_In in Hn as [Hn Hk].
    destruct (H n) as [| y ver | | |] eqn:Hy; try discriminate Hk.
    simpl in En. subst y.
    assert (Hin : In n (vars_named H g x)) by (apply In_vars_named; eauto).
    intros E. rewrite E in Hin. destruct Hin.
  - intros Hne. destruct (vars_named H g x) as [|n l] eqn:E; [congruence|].
    assert (Hin : In n (vars_named H g x)) by (rewrite E; now left).
    apply In_vars_named in Hin as [Hin [ver Hv]].
    exists n. split; [now rewrite Hv|].
    unfold get_nodes_by_type. apply filter_In. split; [assumption|].
    now rewrite Hv.
Qed.

(** [get_variables] raises nothing but DuplicatedVariable. *)
Lemma get_variables_Raise H g e :
  get_variables H g = Raise e ->
  e = DuplicatedVariable /\
  exists x, ~ NoDup (map (fun n => version_of (H n)) (vars_named H g x)).
Proof.
  intros E. unfold get_variables in E.
  apply map_result_Raise in E as (x & Hx & E).
  apply get_variable_Raise in E as [[_ E]|[-> E]].
  - apply In_variable_names in Hx. congruence.
  - eauto.
Qed.

(** X4. [get_variables()], the symbol table.  It returns exactly when,
    for every name, the Variables of the name have pairwise different
    versions; when two Variables of some name have the same version it
    raises DuplicatedVariable, and it raises nothing else.  What it
    returns has exactly one entry per variable name of the graph, and the
    entry of a name is a node of the graph whose version no Variable of
    the name exceeds: shadowed variables are left out. *)
Theorem get_variables_symbol_table :
  forall (H : Heap) (g : IRGraph),
    ((forall x, NoDup (map (fun n => version_of (H n)) (vars_named H g x))) <->
     exists vs, get_variables H g = Ok vs) /\
    (forall e, get_variables H g = Raise e ->
       e = DuplicatedVariable /\
       exists x, ~ NoDup (map (fun n => version_of (H n)) (vars_named H g x))) /\
    (forall x, ~ NoDup (map (fun n => version_of (H n)) (vars_named H g x)) ->
       get_variables H g = Raise DuplicatedVariable) /\
    (forall vs, get_variables H g = Ok vs ->
       NoDup (map (fun v => name_of (H v)) vs) /\
       (forall v, In v vs ->
          In v (g_nodes g) /\
          exists x ver, H v = Variable' x ver /\
            forall n ver', In n (g_nodes g) -> H n = Variable' x ver' ->
                           ver' <= ver) /\
       (forall n x ver, In n (g_nodes g) -> H n = Variable' x ver ->
          exists v ver', In v vs /\ H v = Variable' x ver')).
Proof.
  intros H g.
  set (names := nodup string_dec
                  (map (fun v => name_of (H v)) (get_nodes_by_type H g TVariable))).
  assert (Hnames : forall x, In x names <-> vars_named H g x <> [])
    by (intros x; apply In_variable_names).
  pose proof (get_variables_Raise H g) as Hraise.
  assert (Hok : forall vs, get_variables H g = Ok vs ->
                  forall x, NoDup (map (fun n => version_of (H n))
                                       (vars_named H g x))).
  { intros vs E x. unfold get_variables in E. fold names in E.
    apply map_result_Forall2 in E.
    destruct (vars_named H g x) as [|n l] eqn:Ex; [constructor|].
    assert (Hx : In x names) by (apply Hnames; rewrite Ex; discriminate).
    destruct (Forall2_In_l _ _ _ x E Hx) as (v & _ & Ev).
    rewrite <- Ex. exact (get_variable_Ok_NoDup H g x v Ev). }
  split; [|split; [exact Hraise|split]].
  - split.
    + intros Hdistinct.
      destruct (get_variables H g) as [vs|e] eqn:E; [eauto|].
      destruct (Hraise e eq_refl) as (_ & x & Hx).
      destruct (Hx (Hdistinct x)).
    + intros [vs E]. exact (Hok vs E).
  - intros x Hx. destruct (get_variables H g) as [vs|e] eqn:E.
    + destruct (Hx (Hok vs eq_refl x)).
    + now destruct (Hraise e eq_refl) as [-> _].
  - intros vs E. unfold get_variables in E. fold names in E.
    apply map_result_Forall2 in E.
    assert (Hname : forall x v, get_variable H g x = Ok v ->
              In v (g_nodes g) /\ exists ver, H v = Variable' x ver).
    { intros x v Ev. apply get_variable_Ok in Ev as [Hin _].
      now apply In_vars_named in Hin. }
    assert (Emap : map (fun v => name_of (H v)) vs = names).
    { clear Hnames Hraise. induction E as [|x v l l' Ev E IH]; [reflexivity|].
      simpl. rewrite IH. destruct (Hname x v Ev) as (_ & ver & Hv).
      now rewrite Hv. }
    split; [rewrite Emap; apply NoDup_nodup|]. split.
    + intros v Hv. destruct (Forall2_In_r _ _ _ v E Hv) as (x & _ & Ev).
      destruct (Hname x v Ev) as (Hin & ver & Hver).
      split; [assumption|]. exists x, ver. split; [assumption|].
      intros n ver' Hn Hn'. apply get_variable_Ok in Ev as [_ Hmax].
      assert (Hvn : In n (vars_named H g x)) by (apply In_vars_named; eauto).
      apply Hmax in Hvn. now rewrite Hn', Hver in Hvn.
    + intros n x ver Hn Hver.
      assert (Hx : In x names).
      { apply Hnames. intros E0.
        assert (Hin : In n (vars_named H g x)) by (apply In_vars_named; eauto).
        rewrite E0 in Hin. destruct Hin. }
      destruct (Forall2_In_l _ _ _ x E Hx) as (v & Hv & Ev).
      destruct (Hname x v Ev) as (_ & ver' & Hver'). eauto.
Qed.

Lemma get_variables_symbol_table_witness :
  exists vs, get_variables Ex.H0 Ex.g_s1 = Ok vs /\
             NoDup (map (fun v => name_of (Ex.H0 v)) vs).
Proof.
  destruct (get_variables_symbol_table Ex.H0 Ex.g_s1) as (Htot & _ & _ & Hok).
  destruct (proj1 Htot) as [vs E].
  - intros x. rewrite vars_named_filter. cbn -[String.eqb].
    destruct (String.eqb "x" x); simpl; repeat constructor; intros [].
  - exists vs. split; [exact E|]. exact (proj1 (Hok vs E)).
Defined.

(** The maximum that [get_max_return_sequence] computes. *)
Lemma max_return_sequence_spec H g :
  ((forall n, In n (g_nodes g) -> isinstance (H n) TReturn = false) ->
   get_max_return_sequence H g = -1) /\
  (forall n s, In n (g_nodes g) -> H n = Return s ->
     s <= get_max_return_sequence H g /\
     exists m, In m (g_nodes g) /\
               H m = Return (get_max_return_sequence H g)).
Proof.
  unfold get_max_return_sequence.
  assert (Hin : forall s, In s (map (fun x => sequence_of (H x))
                                    (get_returns H g)) <->
                          exists n, In n (g_nodes g) /\ H n = Return s).
  { intros s. rewrite in_map_iff. split.
    - intros (n & E & Hn). apply In_get_returns in Hn as [Hn Hk].
      exists n. split; [assumption|].
      destruct (H n); try discriminate Hk. simpl in E. now subst.
    - intros (n & Hn & Hs). exists n. split; [now rewrite Hs|].
      apply In_get_returns. split; [assumption|now rewrite Hs]. }
  split.
  - intros Hno.
    destruct (map (fun x => sequence_of (H x)) (get_returns H g)) as [|s ss];
      [reflexivity|].
    destruct (proj1 (Hin s) (or_introl eq_refl)) as (n & Hn & Hs).
    specialize (Hno n Hn). rewrite Hs in Hno. discriminate.
  - intros n s Hn Hs.
    assert (Hs' : In s (map (fun x => sequence_of (H x)) (get_returns H g)))
      by (apply Hin; eauto).
    destruct (map (fun x => sequence_of (H x)) (get_returns H g)) as [|s0 ss];
      [destruct Hs'|].
    destruct (fold_left_max_ge ss s0) as (A & B & C).
    split.
    + destruct Hs' as [<-|Hs']; [assumption|auto].
    + apply Hin in C. exact C.
Qed.

(** X5. [get_returns()] lists the Return nodes of the graph, each once,
    by ascending sequence number.  [get_max_return_sequence()] is -1 when
    the graph has no Return node; otherwise it is the sequence number of
    some Return node of the graph and no Return node has a higher one. *)
Theorem get_returns_sorted_and_max :
  forall (H : Heap) (g : IRGraph),
    Permutation (get_returns H g) (get_nodes_by_type H g TReturn) /\
    is_sorted (fun n => sequence_of (H n)) (get_returns H g) /\
    ((forall n, In n (g_nodes g) -> isinstance (H n) TReturn = false) ->
     get_max_return_sequence H g = -1) /\
    (forall n s, In n (g_nodes g) -> H n = Return s ->
       s <= get_max_return_sequence H g /\
       exists m, In m (g_nodes g) /\
                 H m = Return (get_max_return_sequence H g)).
Proof.
  intros H g. split; [apply sort_by_perm|]. split; [apply sort_by_sorted'|].
  apply max_return_sequence_spec.
Qed.

(** ** Merging an empty graph *)

(** X8. [update] (hence [compose] and [union]) with an argument that has
    no node: the receiver and every object are left exactly as they were;
    the call still raises DuplicatedVariable when the receiver holds two
    Variables of one name and version, because the symbol table is read
    first. *)
Theorem update_empty_argument :
  forall (H : Heap) (g ng : IRGraph),
    g_nodes ng = [] ->
    union ng (mkWorld H g) =
      match get_variables H g with
      | Ok _ => (mkWorld H g, Ok tt)
      | Raise e => (mkWorld H g, Raise e)
      end /\
    (forall e, snd (union ng (mkWorld H g)) = Raise e ->
               e = DuplicatedVariable).
Proof.
  intros H g ng Hn.
  assert (E : union ng (mkWorld H g) =
              match get_variables H g with
              | Ok _ => (mkWorld H g, Ok tt)
              | Raise e => (mkWorld H g, Raise e)
              end).
  { unfold union, compose. rewrite update_unfold.
    destruct (get_variables H g) as [ovs|e]; [|reflexivity].
    unfold prepared, merge, get_references, get_returns, get_nodes_by_type,
      nx_edges. rewrite !Hn. reflexivity. }
  split; [exact E|].
  intros e. rewrite E.
  destruct (get_variables H g) as [ovs|e'] eqn:Eg; simpl; [discriminate|].
  intros [= ->]. exact (proj1 (get_variables_Raise H g e Eg)).
Qed.

Lemma update_empty_argument_witness :
  union empty_graph (mkWorld Ex.H0 Ex.g_s1) = (mkWorld Ex.H0 Ex.g_s1, Ok tt).
Proof.
  exact (proj1 (update_empty_argument Ex.H0 Ex.g_s1 empty_graph eq_refl)).
Defined.

(** ** Adding a node and finding it again *)

(** [add_edge] into a transforming instruction, for either class: the
    instruction is a node afterwards and an edge enters it. *)
Lemma add_edge_target u v w w' :
  isinstance (heap w v) TTransformingInstruction = true ->
  add_edge u v false w = (w', Ok tt) ->
  heap w' = heap w /\ In v (g_nodes (self w')) /\
  incl (g_nodes (self w)) (g_nodes (self w')) /\
  exists ux, In (ux, v) (g_edges (self w')).
Proof.
  intros Hk E. unfold add_edge in E.
  apply bind_Ok in E as (w1 & ux & E1 & E).
  apply bind_Ok in E as (w2 & vx & E2 & E).
  pose proof (grows_graph__add_node u false w w1 _ E1) as (_ & Hi1 & _).
  pose proof (grows_graph__add_node v false w1 w2 _ E2) as (_ & Hi2 & _).
  apply _add_node_struct in E1 as (Hh1 & _ & _ & _).
  apply _add_node_struct in E2 as (Hh2 & _ & _ & Hcase).
  rewrite Hh1 in Hcase.
  assert (Hvx : vx = v).
  { destruct Hcase as [(_ & -> & _)|[(_ & _ & Hr & _)|
                      [(_ & _ & Hs & _)|(_ & -> & _)]]]; try reflexivity.
    - destruct (heap w v); discriminate.
    - unfold singleton_kind in Hs. destruct (heap w v); discriminate. }
  subst vx. injection E as <-. simpl.
  split; [congruence|]. split; [|split].
  - unfold nx_add_edge. destruct (mem_edge _ _); simpl; apply nx_add_node_In.
  - eapply incl_tran; [exact Hi1|]. eapply incl_tran; [exact Hi2|].
    apply nx_add_edge_incl.
  - exists ux. unfold nx_add_edge.
    destruct (mem_edge (ux, v) _) eqn:Em; simpl.
    + now apply mem_edge_In in Em.
    + apply in_or_app. right. now left.
Qed.

(** [_add_node_with_dependent_node] of a transforming instruction, when it
    returns: it returns the instruction itself, which is a node then. *)
Lemma _add_node_with_dependent_node_Ok node d w w' n' :
  isinstance (heap w node) TTransformingInstruction = true ->
  _add_node_with_dependent_node node d w = (w', Ok n') ->
  n' = node /\ In node (g_nodes (self w')) /\
  incl (g_nodes (self w)) (g_nodes (self w')).
Proof.
  intros Hk E. unfold _add_node_with_dependent_node in E.
  unfold bind at 1, get_world at 1 in E.
  destruct d as [d|]; [|discriminate].
  destruct (has_node (self w) d); [|discriminate].
  destruct (has_node (self w) node) eqn:Hn; simpl in E.
  { injection E as <- <-. split; [reflexivity|].
    split; [now apply mem_In|apply incl_refl]. }
  apply bind_Ok in E as (w1 & [] & E1 & E).
  apply bind_Ok in E as (w2 & [] & E2 & E).
  apply bind_Ok in E as (w3 & [] & E3 & E).
  injection E as <- <-.
  assert (Hs1 : same_object (heap w node) (heap w1 node) /\ self w1 = self w).
  { destruct (isinstance (heap w node) TVariable).
    - destruct (get_variable _ _ _) as [ve|[]]; try discriminate E1;
        injection E1 as <-; simpl; (split; [|reflexivity]);
        rewrite upd_same; apply same_object_set_version.
    - injection E1 as <-. split; [apply same_object_refl|reflexivity]. }
  destruct Hs1 as [Hs1 Hg1].
  assert (Hs2 : same_object (heap w1 node) (heap w2 node) /\ self w2 = self w1).
  { destruct (isinstance (heap w node) TReturn).
    - injection E2 as <-. simpl. split; [|reflexivity].
      rewrite upd_same. apply same_object_set_sequence.
    - injection E2 as <-. split; [apply same_object_refl|reflexivity]. }
  destruct Hs2 as [Hs2 Hg2].
  assert (Hk2 : isinstance (heap w2 node) TTransformingInstruction = true).
  { rewrite (same_object_isinstance _ _ _ Hs2),
            (same_object_isinstance _ _ _ Hs1). exact Hk. }
  apply add_edge_target in E3 as (_ & Hin & Hincl & _); [|exact Hk2].
  rewrite Hg2, Hg1 in Hincl. auto.
Qed.

(** X9. The node that [add_node] returns is a node of the graph, for
    either class of graph and every kind of instruction, and
    [get_node_by_id] finds it under its id. *)
Theorem add_node_then_get_node_by_id :
  forall (node : UUID) (d : option UUID) (deref : bool) (w w' : World)
         (n' : UUID),
    add_node node d deref w = (w', Ok n') ->
    In n' (g_nodes (self w')) /\ get_node_by_id (self w') n' = Ok n'.
Proof.
  intros node d deref w w' n' E.
  assert (Hin : In n' (g_nodes (self w'))).
  { unfold add_node in E. unfold bind at 1, get_world at 1 in E.
    destruct (has_node (self w) node) eqn:Hn; simpl in E.
    - injection E as <- <-. now apply mem_In.
    - destruct (isinstance (heap w node) TTransformingInstruction) eqn:Hk.
      + apply _add_node_with_dependent_node_Ok in E as (-> & Hin & _);
          assumption.
      + pose proof E as E'.
        apply _add_node_struct in E as (_ & _ & _ & Hcase).
        destruct Hcase as [(En & -> & Hin)|[(En & _ & _ & Hg)|
                          [(En & _ & _ & Hm)|(En & -> & _)]]]; rewrite En.
        * assumption.
        * apply get_variable_Ok in Hg as [Hv _].
          now apply In_vars_named in Hv as [Hv _].
        * now apply In_singleton_matches in Hm as (Hm & _).
        * apply in_or_app. right. now left. }
  split; [assumption|]. now apply get_node_by_id_In.
Qed.

Lemma add_node_then_get_node_by_id_witness :
  exists w' n',
    add_node 10%N None true (mkWorld Ex.H0 Ex.g_s1) = (w', Ok n') /\
    n' = 3%N /\ get_node_by_id (self w') n' = Ok n'.
Proof.
  destruct (add_node 10%N None true (mkWorld Ex.H0 Ex.g_s1)) as [w' r] eqn:E.
  assert (Er : r = Ok 3%N)
    by (change r with (snd (w', r)); rewrite <- E; vm_compute; reflexivity).
  subst r. exists w', 3%N. split; [reflexivity|]. split; [reflexivity|].
  exact (proj2 (add_node_then_get_node_by_id _ _ _ _ _ _ E)).
Defined.

(** X10. [add_node] on an [IRGraph] is idempotent: when a call returns,
    the same call repeated on the graph it left returns the same node and
    changes nothing, neither the graph nor any object; in particular the
    version of a Variable or the sequence of a Return is assigned once. *)
Theorem add_node_idempotent :
  forall (node : UUID) (d : option UUID) (deref : bool) (w w' : World)
         (n' : UUID),
    g_class (self w) = cIRGraph ->
    add_node node d deref w = (w', Ok n') ->
    add_node node d deref w' = (w', Ok n').
Proof.
  intros node d deref w w' n' Hc E.
  assert (Hcase : w' = w \/ (n' = node /\ has_node (self w') node = true)).
  { pose proof E as E0. unfold add_node in E.
    unfold bind at 1, get_world at 1 in E.
    destruct (has_node (self w) node) eqn:Hn; simpl in E.
    - injection E as <- <-. now left.
    - destruct (isinstance (heap w node) TTransformingInstruction) eqn:Hk.
      + apply _add_node_with_dependent_node_Ok in E as (-> & Hin & _);
          [|assumption].
        right. split; [reflexivity|now apply mem_In].
      + apply (_add_node_outcome node deref w w' (Ok n') Hc) in E.
        apply add_outcome_Ok_inv in E.
        destruct E as [(-> & _)|[(-> & _)|[(-> & _)|(-> & -> & _)]]];
          try (now left).
        right. split; [reflexivity|]. apply mem_In. simpl.
        apply in_or_app. right. now left. }
  destruct Hcase as [->|[-> Hin]]; [exact E|].
  unfold add_node, bind, get_world. rewrite Hin. reflexivity.
Qed.

Lemma add_node_idempotent_witness :
  exists w',
    add_node 6%N (Some 2%N) true (mkWorld Ex.H0 Ex.g_s1) = (w', Ok 6%N) /\
    heap w' 6%N = Variable' "x" 1 /\
    add_node 6%N (Some 2%N) true w' = (w', Ok 6%N).
Proof.
  destruct (add_node 6%N (Some 2%N) true (mkWorld Ex.H0 Ex.g_s1))
    as [w' r] eqn:E.
  assert (Er : r = Ok 6%N)
    by (change r with (snd (w', r)); rewrite <- E; vm_compute; reflexivity).
  assert (Eh : heap w' 6%N = Variable' "x" 1)
    by (change w' with (fst (w', r)); rewrite <- E; vm_compute; reflexivity).
  subst r. exists w'. split; [reflexivity|]. split; [exact Eh|].
  exact (add_node_idempotent 6%N (Some 2%N) true (mkWorld Ex.H0 Ex.g_s1)
           w' 6%N eq_refl E).
Defined.

(** ** Returns *)

(** The effect of [add_return(d)] on an [IRGraph], with [r] the new
    [Return()] object. *)
Lemma add_return_step H g r d s0 :
  g_class g = cIRGraph ->
  has_node g d = true ->
  has_node g r = false ->
  H r = Return s0 ->
  add_return r d (mkWorld H g) =
    (mkWorld (upd H r (Return (get_max_return_sequence H g + 1)))
             (nx_add_edge (nx_add_node g r) d r), Ok r).
Proof.
  intros Hc Hd Hn Hr.
  unfold add_return, add_node, bind, get_world. simpl. rewrite Hn. simpl.
  rewrite Hr. unfold isinstance at 1.
  unfold _add_node_with_dependent_node, bind, get_world. simpl.
  rewrite Hd, Hn. simpl. rewrite Hr. unfold isinstance at 1 2. simpl.
  unfold modify_heap, ret. simpl. rewrite Hr. simpl.
  unfold add_edge, _add_node, IRGraph__add_node. mrun.
  repeat (first [rewrite Hc | rewrite Hd | rewrite Hn]; mrun).
  rewrite upd_same. unfold isinstance. reflexivity.
Qed.

(** X11. [add_return(d)], with [r] the new Return object.  When [d] is
    not a node it raises InstructionNotFound and changes nothing.  When
    [d] is a node of an [IRGraph], it returns [r]; [r] is added as the
    last node with an edge from [d]; its sequence is the maximum return
    sequence of the graph plus one, which exceeds the sequence of every
    Return already there and is the new maximum; no other object and no
    other edge changes. *)
Theorem add_return_next_sequence :
  forall (H : Heap) (g : IRGraph) (r d : UUID) (s0 : Z),
    has_node g r = false ->
    H r = Return s0 ->
    (has_node g d = false ->
     add_return r d (mkWorld H g) = (mkWorld H g, Raise InstructionNotFound)) /\
    (has_node g d = true -> g_class g = cIRGraph ->
     exists w',
       add_return r d (mkWorld H g) = (w', Ok r) /\
       heap w' r = Return (get_max_return_sequence H g + 1) /\
       (forall n, n <> r -> heap w' n = H n) /\
       g_nodes (self w') = g_nodes g ++ [r] /\
       (forall e, In e (g_edges (self w')) <-> In e (g_edges g) \/ e = (d, r)) /\
       (forall n s, In n (g_nodes g) -> H n = Return s ->
                    s < get_max_return_sequence H g + 1) /\
       get_max_return_sequence (heap w') (self w')
       = get_max_return_sequence H g + 1).
Proof.
  intros H g r d s0 Hn Hr. split.
  - intros Hd. unfold add_return, add_node, bind, get_world. simpl.
    rewrite Hn. simpl. rewrite Hr. unfold isinstance at 1.
    unfold _add_node_with_dependent_node, bind, get_world. simpl.
    now rewrite Hd.
  - intros Hd Hc. rewrite (add_return_step H g r d s0 Hc Hd Hn Hr).
    eexists. split; [reflexivity|]. simpl.
    set (M := get_max_return_sequence H g).
    set (H' := upd H r (Return (M + 1))).
    assert (Hnodes : g_nodes (nx_add_edge (nx_add_node g r) d r)
                     = g_nodes g ++ [r]) by now apply nx_add_edge_nodes.
    assert (Hold : forall n s, In n (g_nodes g) -> H n = Return s -> s < M + 1).
    { intros n s Hin Hs.
      destruct (proj2 (max_return_sequence_spec H g) n s Hin Hs) as [Hle _].
      unfold M. lia. }
    assert (Hfresh : ~ In r (g_nodes g)) by (apply mem_false; exact Hn).
    split; [apply upd_same|]. split; [intros n Hne; now apply upd_other|].
    split; [exact Hnodes|]. split; [|split; [exact Hold|]].
    + intros e. unfold nx_add_edge. rewrite !nx_add_node_edges.
      destruct (mem_edge (d, r) (g_edges g)) eqn:Em; simpl;
        rewrite ?nx_add_node_edges.
      * apply mem_edge_In in Em. split; [auto|]. intros [He| ->]; assumption.
      * rewrite in_app_iff. simpl. intuition.
    + set (g' := nx_add_edge (nx_add_node g r) d r) in *.
      destruct (proj2 (max_return_sequence_spec H' g') r (M + 1))
        as (Hle & m & Hm & Em).
      { rewrite Hnodes. apply in_or_app. right. now left. }
      { apply upd_same. }
      rewrite Hnodes in Hm. apply in_app_or in Hm as [Hm|[<-|[]]].
      * assert (Hne : m <> r) by (intros ->; contradiction).
        unfold H' in Em at 1. rewrite upd_other in Em by assumption.
        specialize (Hold m _ Hm Em). lia.
      * unfold H' in Em at 1. rewrite upd_same in Em. now injection Em.
Qed.

(** A second Return on the pipeline of S1 gets sequence 1. *)
Lemma add_return_next_sequence_witness :
  exists w',
    add_return 23%N 2%N (mkWorld Ex.H0 Ex.g_s1) = (w', Ok 23%N) /\
    heap w' 23%N = Return 1 /\
    get_max_return_sequence (heap w') (self w') = 1.
Proof.
  destruct (add_return_next_sequence Ex.H0 Ex.g_s1 23%N 2%N 0 eq_refl eq_refl)
    as [_ Hok].
  destruct (Hok eq_refl eq_refl) as (w' & E & Hr & _ & _ & _ & _ & Hmax).
  exists w'. split; [exact E|]. split; [exact Hr|exact Hmax].
Defined.

(** ** What the mutating methods never do *)

Lemma grows_add_edge u v deref : preserves grows (add_edge u v deref).
Proof.
  eapply preserves_weaken; [apply grows_graph_grows|apply grows_graph_add_edge].
Qed.

Lemma grows__add_node_with_dependent_node node d :
  preserves grows (_add_node_with_dependent_node node d).
Proof.
  unfold _add_node_with_dependent_node. pres_grows.
  destruct d as [d|]; [|pres_grows]. pres_grows.
  - destruct (get_variable _ _ _) as [ve|[]]; pres_grows;
      apply grows_modify_heap; intros Hp n;
      apply same_object_upd, same_object_set_version.
  - apply grows_modify_heap. intros Hp n.
    apply same_object_upd, same_object_set_sequence.
  - apply grows_add_edge.
Qed.

Lemma grows_add_node node d deref : preserves grows (add_node node d deref).
Proof.
  unfold add_node. pres_grows.
  - apply grows__add_node_with_dependent_node.
  - apply grows__add_node.
Qed.

(** X12. Whatever they do, and whether they return or raise,
    [add_node], [add_nodes_from], [add_edge], [add_edges_from] and
    [update] (hence [compose] and [union]) never remove a node or an edge
    of the graph they are called on, never change its class, and never
    change the kind of an object, the name of a Variable or any attribute
    of a DataSource, a Reference or an operator: the only attributes they
    write are the version of a Variable and the sequence of a Return. *)
Theorem mutators_never_shrink :
  forall (w w' : World),
    (forall node d deref r, add_node node d deref w = (w', r) -> grows w w') /\
    (forall nodes deref r, add_nodes_from nodes deref w = (w', r) ->
                           grows w w') /\
    (forall u v deref r, add_edge u v deref w = (w', r) -> grows w w') /\
    (forall es deref r, add_edges_from es deref w = (w', r) -> grows w w') /\
    (forall ng r, union ng w = (w', r) -> grows w w').
Proof.
  intros w w'. split; [|split; [|split; [|split]]].
  - intros node d deref r E. exact (grows_add_node node d deref w w' r E).
  - intros nodes deref r. revert w w' r.
    change (preserves grows (add_nodes_from nodes deref)).
    unfold add_nodes_from. pres_grows. apply grows__add_node.
  - intros u v deref r E. exact (grows_add_edge u v deref w w' r E).
  - intros es deref r. revert w w' r.
    change (preserves grows (add_edges_from es deref)).
    unfold add_edges_from. pres_grows. apply grows_add_edge.
  - intros ng r E. exact (grows_update ng w w' r E).
Qed.

(** ** [copy] always returns on a well-formed graph *)

(** [_add_node] inserts a new node when the singleton guard finds nothing
    of its content and, for a Reference, the graph has no Variable of the
    name. *)
Lemma _add_node_insert n deref w :
  g_class (self w) = cIRGraph ->
  has_node (self w) n = false ->
  (singleton_kind (heap w n) = true ->
   singleton_matches (heap w) (self w) n = []) ->
  (isinstance (heap w n) TReference = true ->
   vars_named (heap w) (self w) (name_of (heap w n)) = []) ->
  _add_node n deref w
  = (mkWorld (heap w) (set_nodes (self w) (g_nodes (self w) ++ [n])), Ok n).
Proof.
  intros Hc Hn Hm Hv. unfold _add_node, IRGraph__add_node. mrun.
  rewrite Hc. mrun. rewrite Hn. mrun.
  unfold singleton_kind in Hm.
  assert (Hsingle : _add_singleton_instruction n w
            = (mkWorld (heap w) (set_nodes (self w) (g_nodes (self w) ++ [n])),
               Ok n) \/ singleton_kind (heap w n) = false).
  { destruct (singleton_kind (heap w n)) eqn:Hk; [left|now right].
    unfold _add_singleton_instruction; mrun.
    fold (singleton_matches (heap w) (self w) n).
    rewrite (Hm Hk). simpl. unfold nx_add_node. rewrite Hn. reflexivity. }
  destruct (heap w n) eqn:Hk; unfold isinstance in *; cbn iota;
    try (unfold nx_add_node; rewrite Hn; reflexivity).
  - destruct Hsingle as [E|E]; [exact E|discriminate E].
  - assert (Enf : get_variable (heap w) (self w) name = Raise VariableNotFound)
      by (apply get_variable_not_found; now apply Hv).
    simpl in Enf. destruct deref.
    + simpl. rewrite Enf. destruct Hsingle as [E|E]; [exact E|discriminate E].
    + destruct Hsingle as [E|E]; [exact E|discriminate E].
Qed.

(** The nodes of [ns], unique by content among themselves and the nodes
    already there, are all inserted. *)
Lemma add_pairs_total H : forall ns w,
  g_class (self w) = cIRGraph ->
  g_edges (self w) = [] ->
  heap w = H ->
  NoDup (g_nodes (self w) ++ ns) ->
  (forall a b, In a (g_nodes (self w) ++ ns) -> In b (g_nodes (self w) ++ ns) ->
               singleton_kind (H a) = true -> H a = H b -> a = b) ->
  (forall n, In n ns -> isinstance (H n) TReference = true ->
             forall m, In m (g_nodes (self w)) \/ In m ns ->
                       isinstance (H m) TVariable = false) ->
  exists w',
    add_pairs ns w = (w', Ok (map (fun n => (n, n)) ns)) /\
    g_class (self w') = cIRGraph /\ g_edges (self w') = [] /\ heap w' = H /\
    g_nodes (self w') = g_nodes (self w) ++ ns.
Proof.
  induction ns as [|n ns IH]; intros w Hc He Hh Hnd Hu Hph.
  - exists w. rewrite app_nil_r. repeat split; auto.
  - assert (Hn : has_node (self w) n = false).
    { apply mem_false. intros Hin.
      apply NoDup_remove_2 in Hnd. apply Hnd, in_or_app. now left. }
    assert (Hadd : _add_node n true w
                   = (mkWorld (heap w)
                        (set_nodes (self w) (g_nodes (self w) ++ [n])), Ok n)).
    { apply _add_node_insert; [exact Hc|exact Hn| |].
      - intros Hk. unfold singleton_matches.
        apply filter_none. intros x Hx. apply andb_false_iff. left.
        destruct (has_same_content_as (heap w x) (heap w n)) eqn:E;
          [|reflexivity].
        exfalso. apply same_content_eq in E. rewrite Hh in E, Hk.
        assert (n = x).
        { apply Hu; auto.
          - apply in_or_app. right. now left.
          - apply in_or_app. now left. }
        subst x. apply mem_In in Hx. unfold has_node in Hn. congruence.
      - intros Hr. rewrite Hh in *. rewrite vars_named_filter.
        apply filter_none. intros m Hm.
        assert (Hnv : isinstance (H m) TVariable = false)
          by (apply (Hph n); auto; now left).
        destruct (H m); try discriminate Hnv; reflexivity. }
    set (w1 := mkWorld (heap w)
                 (set_nodes (self w) (g_nodes (self w) ++ [n]))) in *.
    destruct (IH w1) as (w' & E & Hc' & He' & Hh' & Hn'); auto.
    + simpl. rewrite <- app_assoc. exact Hnd.
    + simpl. rewrite <- app_assoc. exact Hu.
    + intros m Hm Hr k Hk. apply (Hph m); [now right|assumption|].
      simpl in Hk. destruct Hk as [Hk|Hk]; [|right; now right].
      apply in_app_or in Hk as [Hk|[<-|[]]]; [now left|right; now left].
    + exists w'. split.
      * unfold add_pairs. simpl forM. unfold bind at 1. unfold bind at 1.
        rewrite Hadd. fold w1. unfold ret at 1.
        unfold add_pairs in E. unfold bind at 1. rewrite E. reflexivity.
      * simpl in Hn'. rewrite <- app_assoc in Hn'. auto.
Qed.

Lemma get_references_total H g :
  NoDup (g_nodes g) -> singletons_unique H g ->
  exists refs, get_references H g = Ok refs.
Proof.
  intros Hnd Hu. destruct (get_references H g) as [refs|e] eqn:E; [eauto|].
  exfalso. apply get_references_Raise in E as (_ & x & a & b & l & Er).
  assert (Hnd' : NoDup (refs_named H g x))
    by (rewrite refs_named_filter; now apply NoDup_filter).
  assert (Ha : In a (refs_named H g x)) by (rewrite Er; now left).
  assert (Hb : In b (refs_named H g x)) by (rewrite Er; right; now left).
  rewrite Er in Hnd'. inversion Hnd' as [|? ? Hnotin _]; subst.
  apply In_refs_named in Ha as [Ha Hra]. apply In_refs_named in Hb as [Hb Hrb].
  apply Hnotin. left. symmetry. apply Hu; auto.
  - rewrite Hra. reflexivity.
  - congruence.
Qed.

Lemma dict_get_identity_In ns k :
  In k ns -> dict_get N.eqb (map (fun n : UUID => (n, n)) ns) k = Some k.
Proof.
  induction ns as [|n ns IH]; intros Hin; [destruct Hin|].
  simpl. destruct (in_dec N.eq_dec k ns) as [Hk|Hk].
  - now rewrite (IH Hk).
  - destruct Hin as [->|Hin]; [|contradiction].
    destruct (dict_get N.eqb (map (fun n : UUID => (n, n)) ns) k) as [v|] eqn:E.
    + apply dict_get_identity in E as [-> _]. reflexivity.
    + now rewrite N.eqb_refl.
Qed.

Lemma rewrite_edges_identity ns es :
  (forall e, In e es -> In (fst e) ns /\ In (snd e) ns) ->
  rewrite_edges (map (fun n : UUID => (n, n)) ns) es = Ok es.
Proof.
  unfold rewrite_edges. induction es as [|[u v] es IH]; intros Hin;
    [reflexivity|].
  simpl. destruct (Hin (u, v) (or_introl eq_refl)) as [Hu Hv]. simpl in Hu, Hv.
  rewrite (dict_get_identity_In ns u Hu), (dict_get_identity_In ns v Hv).
  rewrite IH; [reflexivity|]. intros e He. apply Hin. now right.
Qed.

Lemma Forall2_NoDup_inj {A B : Type} (R : A -> B -> Prop) l l' :
  (forall x y r, R x r -> R y r -> x = y) ->
  Forall2 R l l' -> NoDup l -> NoDup l'.
Proof.
  intros Hinj E. induction E as [|x r l l' Ex E IH]; intros Hn;
    [constructor|].
  inversion Hn as [|? ? Hx Hl]; subst. constructor; [|now apply IH].
  intros Hin. apply Hx.
  destruct (Forall2_In_r _ _ _ r E Hin) as (y & Hy & Ey).
  now rewrite (Hinj x y r Ex Ey).
Qed.

(** [copy] returns on a well-formed graph, with the same nodes and
    edges. *)
Lemma copy_total H g :
  NoDup (g_nodes g) -> edges_closed g -> singletons_unique H g ->
  exists H1 g1,
    copy H g = (H1, Ok g1) /\
    (forall n, H1 n = H n) /\
    g_class g1 = cIRGraph /\
    NoDup (g_nodes g1) /\
    (forall n, In n (g_nodes g1) <-> In n (g_nodes g)) /\
    (forall e, In e (g_edges g1) <-> In e (g_edges g)).
Proof.
  intros Hnd Hcl Hu.
  unfold copy, construct. rewrite update_unfold.
  change (get_variables H empty_graph) with (@Ok (list UUID) []).
  cbv beta iota.
  set (H' := prepared H empty_graph g []).
  assert (Hext : forall n, H' n = H n)
    by (intros n; now apply prepared_fresh).
  assert (Hu' : singletons_unique H' g)
    by now apply (singletons_unique_ext H).
  destruct (get_references_total H' g Hnd Hu') as [refs Er].
  pose proof (get_references_Ok H' g refs Er) as Hrefs.
  assert (Hrefs_nd : NoDup refs).
  { unfold get_references in Er. apply map_result_Forall2 in Er.
    assert (Hinj : forall x y r, get_reference H' g x = Ok r ->
                                 get_reference H' g y = Ok r -> x = y).
    { intros x y r Ex Ey. apply get_reference_Ok in Ex, Ey.
      assert (Hx : In r (refs_named H' g x)) by (rewrite Ex; now left).
      assert (Hy : In r (refs_named H' g y)) by (rewrite Ey; now left).
      apply In_refs_named in Hx as [_ Hx]. apply In_refs_named in Hy as [_ Hy].
      congruence. }
    eapply Forall2_NoDup_inj; [exact Hinj|exact Er|apply NoDup_nodup]. }
  set (w0 := mkWorld H' empty_graph).
  destruct (add_pairs_total H' refs w0) as (w3 & E3 & Hc3 & He3 & Hh3 & Hn3);
    try reflexivity.
  { exact Hrefs_nd. }
  { intros a b Ha Hb. apply Hu'; [now apply Hrefs in Ha|now apply Hrefs in Hb]. }
  { intros n Hn Hr m [[]|Hm]. apply Hrefs in Hm as [_ Hk].
    destruct (H' m); try discriminate Hk; reflexivity. }
  simpl in Hn3.
  set (ns2 := filter (fun n => negb (dict_mem N.eqb
                        (map (fun n : UUID => (n, n)) refs) n)) (g_nodes g)).
  assert (Hns2 : forall n, In n ns2 <-> In n (g_nodes g) /\ ~ In n refs).
  { intros n. unfold ns2. rewrite filter_In, dict_mem_fst, map_map.
    simpl. rewrite map_id, negb_true_iff, mem_false. reflexivity. }
  destruct (add_pairs_total H' ns2 w3) as (w4 & E4 & Hc4 & He4 & Hh4 & Hn4);
    auto.
  { rewrite Hn3. apply NoDup_app; [assumption| |].
    - unfold ns2. now apply NoDup_filter.
    - intros n Hr Hn2. now apply Hns2 in Hn2 as [_ Hn2]. }
  { rewrite Hn3. intros a b Ha Hb. apply Hu'.
    - apply in_app_or in Ha as [Ha|Ha]; [now apply Hrefs|now apply Hns2].
    - apply in_app_or in Hb as [Hb|Hb]; [now apply Hrefs|now apply Hns2]. }
  { intros n Hn Hr. exfalso. apply Hns2 in Hn as [Hn Hnr].
    apply Hnr, Hrefs. auto. }
  rewrite Hn3 in Hn4.
  assert (Hall : forall n, In n (refs ++ ns2) <-> In n (g_nodes g)).
  { intros n. rewrite in_app_iff. split.
    - intros [Hr|H2]; [now apply Hrefs|now apply Hns2].
    - intros Hn. destruct (in_dec N.eq_dec n refs) as [Hr|Hr]; [auto|].
      right. apply Hns2. auto. }
  assert (Ee : rewrite_edges (map (fun n : UUID => (n, n)) refs
                              ++ map (fun n : UUID => (n, n)) ns2) (nx_edges g)
               = Ok (nx_edges g)).
  { rewrite <- map_app. apply rewrite_edges_identity.
    intros [u v] He. apply In_nx_edges in He as [_ He].
    destruct (Hcl u v He) as [Hu1 Hv1]. simpl. split; now apply Hall. }
  destruct (add_edges_from_present (nx_edges g) w4 Hc4)
    as (w5 & E5 & Hh5 & Hn5 & Hc5 & He5).
  { intros [u v] He. apply In_nx_edges in He as [_ He].
    destruct (Hcl u v He) as [Hu1 Hv1]. rewrite Hn4. simpl.
    split; now apply Hall. }
  assert (Em : merge g w0 = (w5, Ok tt)).
  { unfold merge. unfold bind at 1, get_world at 1.
    unfold bind at 1, lift at 1. cbn [heap w0]. rewrite Er.
    unfold bind at 1. rewrite E3. unfold bind at 1. fold ns2. rewrite E4.
    unfold bind at 1, lift at 1. rewrite Ee. exact E5. }
  fold w0. rewrite Em. exists (heap w5), (self w5).
  split; [reflexivity|]. split; [intros n; rewrite Hh5, Hh4; apply Hext|].
  split; [assumption|]. split; [|split].
  - rewrite Hn5, Hn4. apply NoDup_app; [assumption| |].
    + unfold ns2. now apply NoDup_filter.
    + intros n Hr Hn2. now apply Hns2 in Hn2 as [_ Hn2].
  - intros n. rewrite Hn5, Hn4. apply Hall.
  - intros [u v]. rewrite He5, He4, In_nx_edges. simpl. split.
    + intros [[]|[_ He]]. exact He.
    + intros He. right. split; [|assumption]. now apply (Hcl u v).
Qed.

(** X13. [copy()] of a graph whose node list has no repetition, whose
    edges join its nodes and whose Source and Reference nodes are unique
    by content always returns: the copy is a new [IRGraph] with the same
    nodes and the same edges; the nodes are the very objects of the
    original (no object is created) and no attribute of any object is
    changed. *)
Theorem copy_returns_same_graph :
  forall (H : Heap) (g : IRGraph),
    NoDup (g_nodes g) -> edges_closed g -> singletons_unique H g ->
    exists H1 g1,
      copy H g = (H1, Ok g1) /\
      (forall n, H1 n = H n) /\
      g_class g1 = cIRGraph /\
      NoDup (g_nodes g1) /\
      (forall n, In n (g_nodes g1) <-> In n (g_nodes g)) /\
      (forall e, In e (g_edges g1) <-> In e (g_edges g)).
Proof. intros H g. apply copy_total. Qed.

Lemma copy_returns_same_graph_witness :
  exists H1 g1,
    copy Ex.H0 Ex.g_s1 = (H1, Ok g1) /\
    (forall n, In n (g_nodes g1) <-> In n (g_nodes Ex.g_s1)) /\
    (forall e, In e (g_edges g1) <-> In e (g_edges Ex.g_s1)).
Proof.
  destruct (copy_returns_same_graph Ex.H0 Ex.g_s1)
    as (H1 & g1 & E & _ & _ & _ & Hn & He).
  - vm_compute. repeat constructor; simpl; intuition discriminate.
  - intros u v Hin. vm_compute in Hin. vm_compute. intuition congruence.
  - intros a b Ha Hb. vm_compute in Ha, Hb.
    destruct Ha as [<-|[<-|[<-|[<-|[]]]]];
      destruct Hb as [<-|[<-|[<-|[<-|[]]]]];
      vm_compute; congruence.
  - exists H1, g1. auto.
Defined.

(** ** The segments of the segmenter *)

Lemma In_set_add' x s y : In y (set_add x s) <-> In y s \/ y = x.
Proof. rewrite In_set_add. tauto. Qed.

Lemma In_set_union s xs y : In y (set_union s xs) <-> In y s \/ In y xs.
Proof.
  unfold set_union. revert s. induction xs as [|x xs IH]; intros s; simpl.
  - tauto.
  - rewrite IH, In_set_add'. intuition.
Qed.

Lemma In_set_diff s t y : In y (set_diff s t) <-> In y s /\ ~ In y t.
Proof.
  unfold set_diff. rewrite filter_In, negb_true_iff, mem_false. reflexivity.
Qed.

Lemma In_set_inter s t y : In y (set_inter s t) <-> In y s /\ In y t.
Proof. unfold set_inter. rewrite filter_In, mem_In. reflexivity. Qed.

Lemma combinations2_ordpairs {X : Type} (R : X -> X -> Prop) (l : list X) :
  (forall p, In p (combinations2 l) -> R (fst p) (snd p)) ->
  ForallOrdPairs R l.
Proof.
  induction l as [|x l IH]; intros Hp; [constructor|].
  constructor.
  - apply Forall_forall. intros y Hy.
    apply (Hp (x, y)). simpl. apply in_or_app. left. now apply in_map.
  - apply IH. intros p Hin. apply Hp. simpl. apply in_or_app. now right.
Qed.

Lemma ForallOrdPairs_map {X Y : Type} (f : X -> Y) (R : Y -> Y -> Prop) l :
  ForallOrdPairs (fun a b => R (f a) (f b)) l -> ForallOrdPairs R (map f l).
Proof.
  induction 1 as [|x l Hx Hl IH]; simpl; constructor; [|assumption].
  apply Forall_forall. intros y Hy. apply in_map_iff in Hy as (a & <- & Ha).
  revert a Ha. now apply Forall_forall.
Qed.

Lemma ForallOrdPairs_filter {X : Type} (P : X -> bool) (R : X -> X -> Prop) l :
  ForallOrdPairs R l -> ForallOrdPairs R (filter P l).
Proof.
  induction 1 as [|x l Hx Hl IH]; simpl; [constructor|].
  destruct (P x); [|assumption]. constructor; [|assumption].
  apply Forall_forall. intros y Hy. apply filter_In in Hy as [Hy _].
  revert y Hy. now apply Forall_forall.
Qed.

Lemma ForallOrdPairs_Forall2 {X Y : Type} (R : X -> X -> Prop)
      (S : Y -> Y -> Prop) (T : X -> Y -> Prop) l l' :
  (forall x1 x2 y1 y2, T x1 y1 -> T x2 y2 -> R x1 x2 -> S y1 y2) ->
  Forall2 T l l' -> ForallOrdPairs R l -> ForallOrdPairs S l'.
Proof.
  intros Himp E. induction E as [|x y l l' Hxy E IH]; intros Hr;
    [constructor|].
  inversion Hr as [|? ? Hx Hl]; subst. constructor; [|now apply IH].
  apply Forall_forall. intros y2 Hy2.
  destruct (Forall2_In_r _ _ _ y2 E Hy2) as (x2 & Hx2 & Hxy2).
  apply (Himp x x2 y y2 Hxy Hxy2).
  exact (proj1 (Forall_forall _ _) Hx x2 Hx2).
Qed.

Lemma emit_nodes H g :
  singletons_unique H g ->
  forall uns H1 H' dgs,
    (forall n, H1 n = H n) ->
    emit H1 g uns = (H', Ok dgs) ->
    Forall2 (fun ns E => forall n, In n (g_nodes E) -> In n ns)
            (filter nonempty uns) dgs.
Proof.
  intros Hu. induction uns as [|ns rest IH]; intros H1 H' dgs Hext E.
  - injection E as <- <-. constructor.
  - destruct ns as [|a ns']; [exact (IH H1 H' dgs Hext E)|].
    cbn [emit] in E.
    destruct (subgraph g (a :: ns')) as [view|e] eqn:Es; [|discriminate].
    apply subgraph_Ok in Es as [-> _].
    destruct (IRGraphEvaluable H1 (induced_subgraph g (a :: ns')))
      as [Ha [dg|e]] eqn:Ee; [|discriminate].
    destruct (emit Ha g rest) as [Hb [dgs'|e]] eqn:Er; [|discriminate].
    injection E as <- <-.
    apply evaluable_fresh in Ee as (Hexta & Hn & _).
    2:{ apply (singletons_unique_ext H); [assumption|].
        now apply singletons_unique_subgraph. }
    simpl. constructor.
    + intros n Hin. apply Hn in Hin. simpl in Hin.
      apply filter_In in Hin as [_ Hm]. now apply mem_In.
    + apply (IH Ha Hb); [|assumption]. intros n. now rewrite Hexta.
Qed.

(** X14. The graphs that [find_dependent_subgraphs_of_node] emits share
    no node: a node that two interfaces (or an interface and the cache
    bucket) both reach is left out of every segment of the round. *)
Theorem segmenter_segments_disjoint :
  forall (A : Type) (cache : list (UUID * A)) (H : Heap) (self_ : IRGraph)
         (node : UUID) (H' : Heap) (dgs : list IRGraph),
    find_dependent_subgraphs_of_node cache H self_ node = (H', Ok dgs) ->
    ForallOrdPairs
      (fun E1 E2 => forall n, In n (g_nodes E1) -> ~ In n (g_nodes E2)) dgs.
Proof.
  intros A cache H self_ node H' dgs E.
  unfold find_dependent_subgraphs_of_node in E.
  destruct (find_cached_dependent_subgraph_of_node cache H self_ node)
    as [H2 [g3|e]] eqn:Ec; [|discriminate].
  apply find_cached_spec in Ec as (H1 & g1 & _ & Hext & Hu & _).
  destruct (source_buckets cache H2 g3 []
              (get_nodes_by_type H2 g3 TSourceInstruction))
    as [a2ns0|e]; [|discriminate].
  cbv zeta in E.
  apply (emit_nodes H g3 Hu) in E; [|assumption].
  eapply ForallOrdPairs_Forall2; [|exact E|].
  - intros ns1 ns2 E1 E2 Hn1 Hn2 Hdis n Hin1 Hin2.
    exact (Hdis n (Hn1 n Hin1) (Hn2 n Hin2)).
  - apply ForallOrdPairs_filter, ForallOrdPairs_map.
    apply combinations2_ordpairs. intros [kv1 kv2] Hp n Hin1 Hin2.
    apply In_set_diff in Hin1 as [Hin1 Hns].
    apply In_set_diff in Hin2 as [Hin2 _].
    apply Hns. apply In_set_union. right. apply in_concat.
    exists (set_inter (snd kv1) (snd kv2)). split.
    + apply in_map_iff. exists (kv1, kv2). auto.
    + apply In_set_inter. auto.
Qed.

(** S4 with an empty cache: one segment per interface, the join and its
    return in neither. *)
Lemma segmenter_segments_disjoint_witness :
  exists H' E1 E2,
    find_dependent_subgraphs_of_node (@nil (UUID * unit)) Ex.H0 Ex.g_s4 23%N
    = (H', Ok [E1; E2]) /\
    g_nodes E1 = [1; 2; 13]%N /\ g_nodes E2 = [20; 21]%N /\
    forall n, In n (g_nodes E1) -> ~ In n (g_nodes E2).
Proof.
  destruct (find_dependent_subgraphs_of_node (@nil (UUID * unit)) Ex.H0
              Ex.g_s4 23%N) as [H' r] eqn:Er.
  assert (Hr : r = Ok [mkGraph cIRGraphEvaluable [1; 2; 13]%N
                          [(1, 2); (2, 13)]%N (Some "A");
                       mkGraph cIRGraphEvaluable [20; 21]%N
                          [(20, 21)]%N (Some "B")]).
  { change r with (snd (H', r)). rewrite <- Er. vm_compute. reflexivity. }
  subst r.
  pose proof (segmenter_segments_disjoint unit [] Ex.H0 Ex.g_s4 23%N H' _ Er)
    as Hd.
  eexists. eexists. eexists. split; [reflexivity|].
  split; [reflexivity|]. split; [reflexivity|].
  inversion Hd as [|? ? Hfirst _]; subst.
  inversion Hfirst as [|? ? Hpair _]; subst. exact Hpair.
Defined.

(** ** The symbol table of a union *)

Lemma keeps_nodup_refl w : keeps_nodup w w.
Proof. intros Hnd. exact Hnd. Qed.

Lemma keeps_nodup_trans w1 w2 w3 :
  keeps_nodup w1 w2 -> keeps_nodup w2 w3 -> keeps_nodup w1 w3.
Proof. unfold keeps_nodup. auto. Qed.

Ltac pres_nodup := pres keeps_nodup keeps_nodup_refl keeps_nodup_trans.

Lemma nodup_nx_add_node g n :
  NoDup (g_nodes g) -> NoDup (g_nodes (nx_add_node g n)).
Proof.
  intros Hnd. unfold nx_add_node. destruct (has_node g n) eqn:Hn; [assumption|].
  simpl. apply NoDup_app; [assumption|repeat constructor; intros []|].
  intros m Hm [<-|[]]. apply mem_In in Hm. unfold has_node in Hn. congruence.
Qed.

Lemma nodup_nx_add_edge g u v :
  NoDup (g_nodes g) -> NoDup (g_nodes (nx_add_edge g u v)).
Proof.
  intros Hnd. unfold nx_add_edge.
  destruct (mem_edge _ _); simpl; now apply nodup_nx_add_node, nodup_nx_add_node.
Qed.

Lemma keeps_nodup_modify_self f :
  (forall g, NoDup (g_nodes g) -> NoDup (g_nodes (f g))) ->
  preserves keeps_nodup (modify_self f).
Proof. intros Hf w w' r E. injection E as <- _. intros Hnd. now apply Hf. Qed.

Lemma keeps_nodup_modify_heap f : preserves keeps_nodup (modify_heap f).
Proof. intros w w' r E. injection E as <- _. intros Hnd. exact Hnd. Qed.

Lemma keeps_nodup_add_singleton n :
  preserves keeps_nodup (_add_singleton_instruction n).
Proof.
  unfold _add_singleton_instruction. pres_nodup.
  destruct (filter _ _) as [|x [|y l]]; pres_nodup.
  apply keeps_nodup_modify_self. intros g. apply nodup_nx_add_node.
Qed.

Lemma keeps_nodup_IRGraph__add_node n deref :
  preserves keeps_nodup (IRGraph__add_node n deref).
Proof.
  unfold IRGraph__add_node. pres_nodup;
    try apply keeps_nodup_add_singleton;
    try (apply keeps_nodup_modify_self; intros g; apply nodup_nx_add_node).
  destruct (get_variable _ _ _) as [v|[]]; pres_nodup;
    apply keeps_nodup_add_singleton.
Qed.

Lemma keeps_nodup__add_node n deref : preserves keeps_nodup (_add_node n deref).
Proof.
  unfold _add_node. pres_nodup.
  destruct (g_class _); [apply keeps_nodup_IRGraph__add_node|].
  unfold IRGraphEvaluable__add_node. pres_nodup;
    try apply keeps_nodup_IRGraph__add_node.
  apply keeps_nodup_modify_self. intros g. simpl. auto.
Qed.

Lemma keeps_nodup_add_edges_from es deref :
  preserves keeps_nodup (add_edges_from es deref).
Proof.
  unfold add_edges_from, add_edge. pres_nodup;
    try apply keeps_nodup__add_node.
  apply keeps_nodup_modify_self. intros g. apply nodup_nx_add_edge.
Qed.

Lemma keeps_nodup_update ng : preserves keeps_nodup (update ng).
Proof.
  unfold update. pres_nodup; try apply keeps_nodup__add_node;
    try apply keeps_nodup_modify_heap.
  apply keeps_nodup_add_edges_from.
Qed.

Lemma NoDup_map_inj_on {X Y : Type} (f : X -> Y) l :
  NoDup l -> (forall a b, In a l -> In b l -> f a = f b -> a = b) ->
  NoDup (map f l).
Proof.
  induction 1 as [|x l Hx Hl IH]; intros Hinj; simpl; constructor.
  - intros Hin. apply in_map_iff in Hin as (y & E & Hy).
    assert (y = x) by (apply Hinj; simpl; auto). subst y. contradiction.
  - apply IH. intros a b Ha Hb. apply Hinj; now right.
Qed.

(** [get_variable] returns the variable of the name whose version is the
    highest, when the versions of the name are pairwise different. *)
Lemma get_variable_max_unique H g x v :
  NoDup (map (fun n => version_of (H n)) (vars_named H g x)) ->
  In v (vars_named H g x) ->
  (forall n, In n (vars_named H g x) -> version_of (H n) <= version_of (H v)) ->
  get_variable H g x = Ok v.
Proof.
  intros Hnd Hv Hmax.
  assert (Hne : vars_named H g x <> [])
    by (intros E; rewrite E in Hv; destruct Hv).
  rewrite (get_variable_distinct H g x Hnd Hne). f_equal.
  set (key := fun n => version_of (H n)).
  set (v' := last (sort_by key (vars_named H g x)) 0%N).
  assert (Hv' : In v' (vars_named H g x)).
  { apply (sort_by_In key). apply last_In. intros E.
    assert (Hin : In v (sort_by key (vars_named H g x)))
      by now apply sort_by_In.
    rewrite E in Hin. destruct Hin. }
  assert (Hle : key v <= key v').
  { apply sorted_last_max; [apply sort_by_sorted'|now apply sort_by_In]. }
  apply (NoDup_map_inj key (vars_named H g x)); auto.
  specialize (Hmax v' Hv'). unfold key in *. lia.
Qed.

(** X15. The symbol table after [union(g, h)], for graphs that share no
    object: a name that [h] does not define keeps the live variable it
    has in [g] (or stays undefined); a name that [h] defines, with
    versions that are not negative, gets the live variable of [h] as its
    live variable, whatever [g] held under the name. *)
Theorem union_symbol_table :
  forall (H : Heap) (g h : IRGraph) (w' : World),
    g_class g = cIRGraph ->
    NoDup (g_nodes g) -> NoDup (g_nodes h) -> disjoint g h ->
    union h (mkWorld H g) = (w', Ok tt) ->
    forall x,
      (vars_named H h x = [] ->
       get_variable (heap w') (self w') x = get_variable H g x) /\
      (forall vh,
         get_variable H h x = Ok vh ->
         (forall n v, In n (g_nodes h) -> H n = Variable' x v -> 0 <= v) ->
         get_variable (heap w') (self w') x = Ok vh).
Proof.
  intros H g h w' Hc Hndg Hndh Hdis E x. unfold union, compose in E.
  pose proof (keeps_nodup_update h _ _ _ E Hndg) as Hnd'. simpl in Hnd'.
  apply update_Ok in E as (ovs & Hovs & E).
  apply merge_spec in E as (Hh & _ & Hincl & Hnew & _ & Hshare & _);
    [|assumption].
  simpl in Hh, Hincl, Hnew, Hshare.
  pose proof (prepared_spec H g h ovs Hndh Hdis Hovs) as Hp.
  rewrite <- Hh in Hp, Hshare.
  set (sh := match get_variable H g x with
             | Ok ve => version_of (H ve) + 1
             | Raise _ => 0
             end).
  assert (Hg : forall n, In n (g_nodes g) -> heap w' n = H n).
  { intros n Hn. rewrite Hp. destruct (mem n (g_nodes h)) eqn:Em;
      [|reflexivity]. apply mem_In in Em. destruct (Hdis n Hn Em). }
  assert (Hhx : forall n v, In n (g_nodes h) -> H n = Variable' x v ->
                            heap w' n = Variable' x (v + sh)).
  { intros n v Hn Hv. rewrite Hp. apply mem_In in Hn. rewrite Hn, Hv.
    unfold sh. destruct (get_variable H g x); [reflexivity|].
    f_equal. lia. }
  assert (Hhx' : forall n v', In n (g_nodes h) ->
                   heap w' n = Variable' x v' ->
                   exists v, H n = Variable' x v /\ v' = v + sh).
  { intros n v' Hn Hv'. pose proof (Hp n) as E. apply mem_In in Hn.
    rewrite Hn, Hv' in E. destruct (H n) as [| y v | | |] eqn:Hk;
      try discriminate E.
    assert (y = x) by (destruct (get_variable H g y); congruence). subst y.
    exists v. split; [reflexivity|]. rewrite (Hhx n v) in Hv';
      [congruence|now apply mem_In|assumption]. }
  assert (Hgx : (exists ve, get_variable H g x = Ok ve) \/
                (vars_named H g x = [] /\
                 get_variable H g x = Raise VariableNotFound)).
  { pose proof (get_variables_Ok H g ovs Hovs x) as Hx.
    destruct (dict_get _ _ x) as [ov|]; [eauto|].
    right. split; [assumption|now apply get_variable_not_found]. }
  assert (Hcls : forall n, In n (vars_named (heap w') (self w') x) ->
            (In n (vars_named H g x) /\ heap w' n = H n) \/
            (exists v, In n (g_nodes h) /\ H n = Variable' x v /\
                       heap w' n = Variable' x (v + sh))).
  { intros n Hn. apply In_vars_named in Hn as [Hn [v' Hv']].
    destruct (Hnew n Hn) as [Hin|[Hin _]].
    - left. split; [|now apply Hg]. apply In_vars_named.
      split; [assumption|]. exists v'. now rewrite <- (Hg n Hin).
    - right. destruct (Hhx' n v' Hin Hv') as (v & Hv & ->). eauto. }
  assert (Hfrom_g : forall n, In n (vars_named H g x) ->
            In n (vars_named (heap w') (self w') x) /\ heap w' n = H n).
  { intros n Hn. apply In_vars_named in Hn as [Hn [v Hv]].
    split; [|now apply Hg]. apply In_vars_named.
    split; [now apply Hincl|]. exists v. now rewrite (Hg n Hn). }
  assert (Hnd_vars : NoDup (vars_named (heap w') (self w') x))
    by (rewrite vars_named_filter; now apply NoDup_filter).
  split.
  - (* a name that [h] does not define *)
    intros Hnone.
    assert (Hall : forall n, In n (vars_named (heap w') (self w') x) ->
                             In n (vars_named H g x) /\ heap w' n = H n).
    { intros n Hn. destruct (Hcls n Hn) as [Hl|(v & Hin & Hv & _)]; [exact Hl|].
      exfalso. assert (Hx : In n (vars_named H h x))
        by (apply In_vars_named; eauto).
      rewrite Hnone in Hx. destruct Hx. }
    destruct Hgx as [[ve Eg]|[Hnog Eg]]; rewrite Eg.
    + apply get_variable_max_unique.
      * apply NoDup_map_inj_on; [assumption|].
        intros a b Ha Hb Eab.
        destruct (Hall a Ha) as [Ha' Ea]. destruct (Hall b Hb) as [Hb' Eb].
        rewrite Ea, Eb in Eab.
        exact (NoDup_map_inj _ _ a b (get_variable_Ok_NoDup H g x ve Eg)
                 Ha' Hb' Eab).
      * apply Hfrom_g. now apply get_variable_Ok in Eg as [Hin _].
      * intros n Hn. destruct (Hall n Hn) as [Hn' En].
        apply get_variable_Ok in Eg as [Hin Hmax].
        destruct (Hfrom_g ve Hin) as [_ Eve]. rewrite En, Eve. now apply Hmax.
    + apply get_variable_not_found.
      destruct (vars_named (heap w') (self w') x) as [|n l] eqn:El;
        [reflexivity|].
      destruct (Hall n (or_introl eq_refl)) as [Hn _].
      rewrite Hnog in Hn. destruct Hn.
  - (* a name that [h] defines *)
    intros vh Eh Hpos.
    pose proof (get_variable_Ok_NoDup H h x vh Eh) as Hndh_v.
    apply get_variable_Ok in Eh as [Hvh Hmaxh].
    pose proof Hvh as Hvh'. apply In_vars_named in Hvh' as [Hvh_in [vv Hvv]].
    assert (Hsh : (exists ve, get_variable H g x = Ok ve /\
                              sh = version_of (H ve) + 1 /\
                              forall n, In n (vars_named H g x) ->
                                        version_of (H n) < sh) \/
                  (vars_named H g x = [] /\ sh = 0)).
    { destruct Hgx as [[ve Eg]|[Hnog Eg]].
      - left. exists ve. split; [assumption|]. unfold sh. rewrite Eg.
        split; [reflexivity|]. intros n Hn.
        apply get_variable_Ok in Eg as [_ Hmax]. specialize (Hmax n Hn). lia.
      - right. split; [assumption|]. unfold sh. now rewrite Eg. }
    assert (Hg_lt : forall n, In n (vars_named H g x) -> version_of (H n) < sh).
    { intros n Hn. destruct Hsh as [(ve & _ & _ & Hlt)|[Hnog _]]; [auto|].
      rewrite Hnog in Hn. destruct Hn. }
    apply get_variable_max_unique.
    + apply NoDup_map_inj_on; [assumption|].
      intros a b Ha Hb Eab.
      destruct (Hcls a Ha) as [[Ha' Ea]|(va & Hina & Hva & Ea)];
        destruct (Hcls b Hb) as [[Hb' Eb]|(vb & Hinb & Hvb & Eb)];
        rewrite Ea, Eb in Eab; simpl in Eab.
      * destruct Hsh as [(ve & Eg & _)|[Hnog _]].
        -- exact (NoDup_map_inj _ _ a b (get_variable_Ok_NoDup H g x ve Eg)
                    Ha' Hb' Eab).
        -- rewrite Hnog in Ha'. destruct Ha'.
      * exfalso. specialize (Hg_lt a Ha'). specialize (Hpos b vb Hinb Hvb). lia.
      * exfalso. specialize (Hg_lt b Hb'). specialize (Hpos a va Hina Hva). lia.
      * apply (NoDup_map_inj _ _ a b Hndh_v).
        -- apply In_vars_named. eauto.
        -- apply In_vars_named. eauto.
        -- rewrite Hva, Hvb. simpl. lia.
    + apply In_vars_named. split.
      * apply Hshare; [assumption|]. rewrite (Hhx vh vv Hvh_in Hvv). reflexivity.
      * exists (vv + sh). now apply Hhx.
    + intros n Hn. rewrite (Hhx vh vv Hvh_in Hvv). simpl.
      destruct (Hcls n Hn) as [[Hn' En]|(v & Hin & Hv & En)]; rewrite En.
      * specialize (Hg_lt n Hn'). specialize (Hpos vh vv Hvh_in Hvv). lia.
      * simpl. assert (Hle : version_of (H n) <= version_of (H vh)).
        { apply Hmaxh. apply In_vars_named. eauto. }
        rewrite Hv, Hvv in Hle. simpl in Hle. lia.
Qed.

(** S1 merged with a fragment that assigns [x] again: [x] now denotes the
    variable of the fragment, at version 1. *)
Lemma union_symbol_table_witness :
  exists w',
    union Ex.h_var (mkWorld Ex.H0 Ex.g_s1) = (w', Ok tt) /\
    get_variable (heap w') (self w') "x" = Ok 30%N /\
    heap w' 30%N = Variable' "x" 1.
Proof.
  destruct (union Ex.h_var (mkWorld Ex.H0 Ex.g_s1)) as [w' r] eqn:E.
  assert (Er : r = Ok tt)
    by (change r with (snd (w', r)); rewrite <- E; vm_compute; reflexivity).
  assert (Eh : heap w' 30%N = Variable' "x" 1)
    by (change w' with (fst (w', r)); rewrite <- E; vm_compute; reflexivity).
  subst r. exists w'. split; [reflexivity|]. split; [|exact Eh].
  apply (proj2 (union_symbol_table Ex.H0 Ex.g_s1 Ex.h_var w' eq_refl
                  ltac:(vm_compute; repeat constructor; simpl;
                        intuition discriminate)
                  ltac:(vm_compute; repeat constructor; simpl;
                        intuition discriminate)
                  ltac:(intros n Hg Hh; simpl in Hg, Hh;
                        destruct Hg as [<-|[<-|[<-|[<-|[]]]]];
                        destruct Hh as [Eq|[Eq|[Eq|[]]]]; discriminate Eq)
                  E "x")).
  - vm_compute. reflexivity.
  - intros n v Hn Hv. simpl in Hn.
    destruct Hn as [<-|[<-|[<-|[]]]]; try discriminate Hv.
    injection Hv as <-. lia.
Defined.

(** ** The dependent subgraph of a node *)

Lemma filter_length_lt {X : Type} (P Q : X -> bool) l a :
  (forall x, Q x = true -> P x = true) ->
  In a l -> P a = true -> Q a = false ->
  (List.length (filter Q l) < List.length (filter P l))%nat.
Proof.
  intros Himp. induction l as [|x l IH]; intros Hin Pa Qa; [destruct Hin|].
  assert (Hle : (List.length (filter Q l) <= List.length (filter P l))%nat).
  { clear IH Hin. induction l as [|y l IHl]; [apply Nat.le_refl|].
    simpl. destruct (Q y) eqn:Qy.
    - rewrite (Himp y Qy). simpl. lia.
    - destruct (P y); simpl; lia. }
  simpl. destruct Hin as [->|Hin].
  - rewrite Pa, Qa. simpl. lia.
  - specialize (IH Hin Pa Qa). destruct (Q x) eqn:Qx.
    + rewrite (Himp x Qx). simpl. lia.
    + destruct (P x); simpl; lia.
Qed.

(** With enough rounds the backward closure is closed: a node of the
    universe with a successor in the result is in the result. *)
Lemma closure_closed g universe : forall fuel seen,
  (List.length (filter (fun u => negb (mem u seen)) universe) <= fuel)%nat ->
  let R := closure (nx_succ g) universe fuel seen in
  incl seen R /\
  forall u v, In u universe -> In v R -> In (u, v) (g_edges g) -> In u R.
Proof.
  induction fuel as [|fuel IH]; intros seen Hfuel; cbn zeta.
  - simpl. split; [apply incl_refl|]. intros u v Hu _ _.
    destruct (mem u seen) eqn:Em; [now apply mem_In|].
    exfalso.
    assert (Hin : In u (filter (fun u => negb (mem u seen)) universe))
      by (apply filter_In; split; [assumption|now rewrite Em]).
    destruct (filter _ universe); [destruct Hin|simpl in Hfuel; lia].
  - simpl.
    destruct (filter (fun u => negb (mem u seen) &&
                existsb (fun v => mem v seen) (nx_succ g u)) universe)
      as [|a layer] eqn:El.
    + split; [apply incl_refl|]. intros u v Hu Hv He.
      destruct (mem u seen) eqn:Em; [now apply mem_In|].
      exfalso.
      assert (Hin : In u (filter (fun u => negb (mem u seen) &&
                existsb (fun v => mem v seen) (nx_succ g u)) universe)).
      { apply filter_In. split; [assumption|]. rewrite Em. simpl.
        apply existsb_exists. exists v. split; [now apply In_successors|].
        now apply mem_In. }
      rewrite El in Hin. destruct Hin.
    + assert (Ha : In a (filter (fun u => negb (mem u seen) &&
                existsb (fun v => mem v seen) (nx_succ g u)) universe))
        by (rewrite El; now left).
      apply filter_In in Ha as [Ha Hcond].
      apply andb_true_iff in Hcond as [Hunseen _].
      destruct (IH (seen ++ a :: layer)) as [Hincl Hclosed].
      { assert (Hlt : (List.length (filter (fun u => negb (mem u (seen ++ a :: layer)))
                                      universe)
                       < List.length (filter (fun u => negb (mem u seen)) universe))%nat).
        { apply (filter_length_lt _ _ universe a); auto.
          - intros x Hx. apply negb_true_iff, mem_false in Hx.
            apply negb_true_iff, mem_false. intros Hs. apply Hx.
            apply in_or_app. now left.
          - apply negb_false_iff, mem_In. apply in_or_app. right. now left. }
        lia. }
      split; [|exact Hclosed].
      intros x Hx. apply Hincl. apply in_or_app. now left.
Qed.

(** [networkx.ancestors] is complete on a graph whose edges join its
    nodes. *)
Lemma ancestors_complete g t l :
  edges_closed g ->
  ancestors g t = Ok l ->
  forall x, path g x t -> x <> t -> In x l.
Proof.
  intros Hcl. unfold ancestors. destruct (has_node g t); [|discriminate].
  intros [= <-] x Hp Hne.
  apply filter_In. split; [|now apply negb_true_iff, N.eqb_neq].
  destruct (closure_closed g (g_nodes g) (List.length (g_nodes g)) [t])
    as [Hincl Hclosed].
  { apply filter_length_le. }
  clear Hne. induction Hp as [u v He|u v t He Hp IH].
  - apply (Hclosed u v); [now apply (Hcl u v)| |assumption].
    apply Hincl. now left.
  - apply (Hclosed u v); [now apply (Hcl u v)|auto|assumption].
Qed.

(** The dependent subgraph of a node of a well-formed graph: it is
    returned, it has no repeated node, and it consists of the node and
    what has a path to it. *)
Lemma dependent_subgraph_total H g node :
  has_node g node = true ->
  g_class g = cIRGraph ->
  NoDup (g_nodes g) -> edges_closed g -> singletons_unique H g ->
  exists H1 g1,
    duplicate_dependent_subgraph_of_node H g node = (H1, Ok g1) /\
    (forall n, H1 n = H n) /\
    g_class g1 = cIRGraph /\
    NoDup (g_nodes g1) /\
    (forall n, In n (g_nodes g1) <->
               In n (g_nodes g) /\ (n = node \/ path g n node)) /\
    (forall u v, In (u, v) (g_edges g1) <->
                 In (u, v) (g_edges g) /\
                 (u = node \/ path g u node) /\
                 (v = node \/ path g v node)).
Proof.
  intros Hn Hc Hnd Hcl Hu. unfold duplicate_dependent_subgraph_of_node.
  destruct (ancestors g node) as [anc|e] eqn:Ea.
  2:{ unfold ancestors in Ea. rewrite Hn in Ea. discriminate. }
  unfold subgraph. rewrite Hc.
  set (S := set_add node anc).
  assert (HS : forall n, In n (g_nodes g) ->
                 (In n S <-> n = node \/ path g n node)).
  { intros n Hin. unfold S. rewrite In_set_add. split.
    - intros [->|Ha]; [now left|]. right. eapply ancestors_sound; eauto.
    - intros [->|Hp]; [now left|].
      destruct (N.eq_dec n node) as [->|Hne]; [now left|].
      right. eapply ancestors_complete; eauto. }
  destruct (copy_total H (induced_subgraph g S))
    as (H1 & g1 & E & Hext & Hc1 & Hnd1 & Hnodes & Hedges).
  - simpl. now apply NoDup_filter.
  - intros u v He. simpl in He. apply filter_In in He as [He Hm].
    simpl in Hm. apply andb_true_iff in Hm as [Hmu Hmv].
    destruct (Hcl u v He) as [Hu1 Hv1]. simpl.
    split; apply filter_In; auto.
  - now apply singletons_unique_subgraph.
  - exists H1, g1. split; [exact E|]. split; [exact Hext|].
    split; [exact Hc1|]. split; [exact Hnd1|]. split.
    + intros n. rewrite Hnodes. simpl. rewrite filter_In, mem_In. split.
      * intros [Hin Hs]. split; [assumption|]. now apply HS.
      * intros [Hin Hs]. split; [assumption|]. now apply HS.
    + intros u v. rewrite Hedges. simpl.
      rewrite filter_In. simpl. rewrite andb_true_iff, !mem_In. split.
      * intros [He [Hsu Hsv]]. destruct (Hcl u v He) as [Hu1 Hv1].
        split; [assumption|]. split; [now apply HS|now apply HS].
      * intros [He [Hsu Hsv]]. destruct (Hcl u v He) as [Hu1 Hv1].
        split; [assumption|]. split; [now apply HS|now apply HS].
Qed.

(** X16. [duplicate_dependent_subgraph_of_node(node)] raises
    NetworkXError when [node] is not a node of the graph, and TypeError
    when it is and the graph is an [IRGraphEvaluable], whose view cannot
    be built.  On an [IRGraph] whose node list has no repetition, whose
    edges join its nodes and whose Source and Reference nodes are unique
    by content, it returns for every node of the graph; the graph it
    returns consists of [node] and exactly the nodes that have a path to
    [node], with exactly the edges of the graph between them; the nodes
    are the objects of the graph and no object is changed. *)
Theorem dependent_subgraph_exact :
  forall (H : Heap) (g : IRGraph) (node : UUID),
    (has_node g node = false ->
     duplicate_dependent_subgraph_of_node H g node = (H, Raise NetworkXError)) /\
    (has_node g node = true -> g_class g = cIRGraphEvaluable ->
     duplicate_dependent_subgraph_of_node H g node = (H, Raise TypeError)) /\
    (has_node g node = true -> g_class g = cIRGraph ->
     NoDup (g_nodes g) -> edges_closed g -> singletons_unique H g ->
     exists H1 g1,
       duplicate_dependent_subgraph_of_node H g node = (H1, Ok g1) /\
       (forall n, H1 n = H n) /\
       (forall n, In n (g_nodes g1) <->
                  In n (g_nodes g) /\ (n = node \/ path g n node)) /\
       (forall u v, In (u, v) (g_edges g1) <->
                    In (u, v) (g_edges g) /\
                    (u = node \/ path g u node) /\
                    (v = node \/ path g v node))).
Proof.
  intros H g node. split; [|split].
  - intros Hn. unfold duplicate_dependent_subgraph_of_node, ancestors.
    now rewrite Hn.
  - intros Hn Hc.
    unfold duplicate_dependent_subgraph_of_node, ancestors, subgraph.
    now rewrite Hn, Hc.
  - intros Hn Hc Hnd Hcl Hu.
    destruct (dependent_subgraph_total H g node Hn Hc Hnd Hcl Hu)
      as (H1 & g1 & E & Hext & _ & _ & Hnodes & Hedges).
    exists H1, g1. auto.
Qed.

(** In the graph of S4 the dependent subgraph of the variable [x] is its
    own pipeline. *)
Lemma dependent_subgraph_exact_witness :
  exists H1 g1,
    duplicate_dependent_subgraph_of_node Ex.H0 Ex.g_s4 13%N = (H1, Ok g1) /\
    (forall n, In n (g_nodes g1) <->
               In n (g_nodes Ex.g_s4) /\ (n = 13%N \/ path Ex.g_s4 n 13%N)).
Proof.
  destruct (proj2 (proj2 (dependent_subgraph_exact Ex.H0 Ex.g_s4 13%N)))
    as (H1 & g1 & E & _ & Hn & _).
  - reflexivity.
  - reflexivity.
  - vm_compute. repeat constructor; simpl; intuition discriminate.
  - intros u v Hin. vm_compute in Hin. vm_compute. intuition congruence.
  - intros a b Ha Hb. vm_compute in Ha, Hb.
    destruct Ha as [<-|[<-|[<-|[<-|[<-|[<-|[<-|[]]]]]]]];
      destruct Hb as [<-|[<-|[<-|[<-|[<-|[<-|[<-|[]]]]]]]];
      vm_compute; congruence.
  - exists H1, g1. auto.
Defined.

(** ** The pruned dependent subgraph *)

(** The cut keeps the edges whose target is not cached. *)
Lemma cut_cached_edges {A : Type} (cache : list (UUID * A)) g u v :
  edges_closed g ->
  In (u, v) (g_edges (cut_cached cache g)) <->
  In (u, v) (g_edges g) /\ cached cache v = false.
Proof.
  intros Hcl. split.
  - intros Hin. split.
    + unfold cut_cached, remove_edges_from in Hin. simpl in Hin.
      now apply filter_In in Hin as [Hin _].
    + destruct (cached cache v) eqn:Ec; [|reflexivity].
      exfalso. apply (cut_cached_no_in_edge cache g u v); [|assumption..].
      unfold cut_cached, remove_edges_from in Hin. simpl in Hin.
      apply filter_In in Hin as [Hin _]. now apply (Hcl u v).
  - intros [Hin Hc]. unfold cut_cached, remove_edges_from. simpl.
    apply filter_In. split; [assumption|].
    apply negb_true_iff.
    destruct (mem_edge (u, v) (List.concat (map (in_edges g)
                (filter (cached cache) (g_nodes g))))) eqn:Em; [|reflexivity].
    exfalso. apply mem_edge_In, in_concat in Em as (l & Hl & Hel).
    apply in_map_iff in Hl as (c & <- & Hcin).
    apply filter_In in Hcin as [_ Hcc].
    unfold in_edges in Hel. apply in_map_iff in Hel as (p & Ep & _).
    injection Ep as _ ->. congruence.
Qed.

Lemma path_restrict ga gb t :
  (forall u v, In (u, v) (g_edges ga) -> v = t \/ path ga v t ->
               In (u, v) (g_edges gb)) ->
  forall x, path ga x t -> path gb x t.
Proof.
  intros Hsub x Hp. induction Hp as [u v He|u v t He Hp IH].
  - apply path_edge, Hsub; auto.
  - eapply path_cons; [apply Hsub; eauto|]. now apply IH.
Qed.

(** A path ends with an edge into its target. *)
Lemma path_last_edge g x t : path g x t -> exists u, In (u, t) (g_edges g).
Proof.
  intros Hp. induction Hp as [u v He|u v t He Hp IH]; eauto.
Qed.

Lemma path_step g u v t :
  In (u, v) (g_edges g) -> v = t \/ path g v t -> path g u t.
Proof.
  intros He [->|Hp]; [now apply path_edge|]. eapply path_cons; eauto.
Qed.

Lemma NoDup_only {X : Type} (l : list X) (a : X) :
  NoDup l -> (forall x, In x l <-> x = a) -> l = [a].
Proof.
  intros Hnd Hl. destruct l as [|x l].
  - exfalso. apply (proj2 (Hl a) eq_refl).
  - assert (Ex : x = a) by (apply Hl; now left). subst x.
    destruct l as [|y l]; [reflexivity|]. exfalso.
    assert (Ey : y = a) by (apply Hl; right; now left). subst y.
    inversion Hnd as [|? ? Hnot _]. apply Hnot. now left.
Qed.

(** X18. [find_cached_dependent_subgraph_of_node(node, cache)] raises
    NetworkXError when [node] is not a node of the graph, and TypeError
    when it is and the graph is an [IRGraphEvaluable].  On an [IRGraph]
    whose node list has no repetition, whose edges join its nodes and
    whose Source and Reference nodes are unique by content, it returns
    for every node of the graph and changes no object.  With the cut
    graph being the graph without the edges that enter a cached node, the
    graph it returns consists of [node] and exactly the nodes that have a
    path to [node] in the cut graph, with exactly the edges of the cut
    graph between them.  When [node] itself is cached, the result is
    [node] alone, without an edge. *)
Theorem cached_dependent_subgraph_exact :
  forall (A : Type) (cache : list (UUID * A)) (H : Heap) (g : IRGraph)
         (node : UUID),
    (has_node g node = false ->
     find_cached_dependent_subgraph_of_node cache H g node
     = (H, Raise NetworkXError)) /\
    (has_node g node = true -> g_class g = cIRGraphEvaluable ->
     find_cached_dependent_subgraph_of_node cache H g node
     = (H, Raise TypeError)) /\
    (has_node g node = true -> g_class g = cIRGraph ->
     NoDup (g_nodes g) -> edges_closed g -> singletons_unique H g ->
     exists H2 g3,
       find_cached_dependent_subgraph_of_node cache H g node = (H2, Ok g3) /\
       (forall n, H2 n = H n) /\
       (forall u v, In (u, v) (g_edges (cut_cached cache g)) <->
                    In (u, v) (g_edges g) /\ cached cache v = false) /\
       (forall n, In n (g_nodes g3) <->
                  In n (g_nodes g) /\
                  (n = node \/ path (cut_cached cache g) n node)) /\
       (forall u v, In (u, v) (g_edges g3) <->
                    In (u, v) (g_edges (cut_cached cache g)) /\
                    (v = node \/ path (cut_cached cache g) v node)) /\
       (cached cache node = true -> g_nodes g3 = [node] /\ g_edges g3 = [])).
Proof.
  intros A cache H g node. unfold find_cached_dependent_subgraph_of_node.
  split; [|split].
  { intros Hn. unfold duplicate_dependent_subgraph_of_node, ancestors.
    now rewrite Hn. }
  { intros Hn Hc.
    unfold duplicate_dependent_subgraph_of_node, ancestors, subgraph.
    now rewrite Hn, Hc. }
  intros Hn Hcls Hnd Hcl Hu.
  destruct (dependent_subgraph_total H g node Hn Hcls Hnd Hcl Hu)
    as (H1 & g1 & E1 & Hext1 & Hcls1 & Hnd1 & Hn1 & He1).
  rewrite E1. cbv zeta. fold (cut_cached cache g1).
  assert (Hnode : In node (g_nodes g)) by now apply mem_In.
  assert (Hcl1 : edges_closed g1).
  { intros u v He. apply He1 in He as (He & Hru & Hrv).
    destruct (Hcl u v He) as [Hu0 Hv0]. split; apply Hn1; auto. }
  assert (Hcut : forall u v, In (u, v) (g_edges (cut_cached cache g)) <->
                             In (u, v) (g_edges g) /\ cached cache v = false)
    by (intros u v; now apply cut_cached_edges).
  assert (Hcut1 : forall u v, In (u, v) (g_edges (cut_cached cache g1)) <->
                              In (u, v) (g_edges g1) /\ cached cache v = false)
    by (intros u v; now apply cut_cached_edges).
  (* the paths of the two cut graphs to [node] are the same *)
  assert (Hsub : forall u v, In (u, v) (g_edges (cut_cached cache g)) ->
                   v = node \/ path (cut_cached cache g) v node ->
                   In (u, v) (g_edges (cut_cached cache g1))).
  { intros u v He Hr. apply Hcut in He as [He Hc]. apply Hcut1.
    split; [|assumption]. apply He1. split; [assumption|].
    assert (Hrv : v = node \/ path g v node).
    { destruct Hr as [->|Hp]; [now left|right].
      apply (path_restrict (cut_cached cache g)); [|assumption].
      intros a b Hab _. now apply Hcut in Hab as [Hab _]. }
    split; [|assumption]. right. now apply (path_step g u v). }
  assert (Hsub' : forall u v, In (u, v) (g_edges (cut_cached cache g1)) ->
                              In (u, v) (g_edges (cut_cached cache g))).
  { intros u v He. apply Hcut1 in He as [He Hc]. apply Hcut.
    split; [|assumption]. now apply He1 in He as [He _]. }
  assert (Hpath : forall x, path (cut_cached cache g1) x node <->
                            path (cut_cached cache g) x node).
  { intros x. split; apply path_restrict; auto. }
  destruct (dependent_subgraph_total H1 (cut_cached cache g1) node)
    as (H2 & g3 & E2 & Hext2 & _ & Hnd3 & Hn3 & He3).
  { apply mem_In. change (In node (g_nodes g1)). apply Hn1. auto. }
  { exact Hcls1. }
  { exact Hnd1. }
  { intros u v He. apply Hcut1 in He as [He _]. exact (Hcl1 u v He). }
  { apply (singletons_unique_ext H); [assumption|].
    intros a b Ha Hb. change (In a (g_nodes g1)) in Ha.
    change (In b (g_nodes g1)) in Hb.
    apply Hu; [now apply Hn1 in Ha|now apply Hn1 in Hb]. }
  assert (Hnodes : forall n, In n (g_nodes g3) <->
                     In n (g_nodes g) /\
                     (n = node \/ path (cut_cached cache g) n node)).
  { intros n. rewrite Hn3. change (g_nodes (cut_cached cache g1)) with (g_nodes g1).
    rewrite Hn1, Hpath. split.
    - intros [[Hin _] Hr]. auto.
    - intros [Hin Hr]. split; [|assumption]. split; [assumption|].
      destruct Hr as [->|Hp]; [now left|right].
      apply (path_restrict (cut_cached cache g)); [|assumption].
      intros a b Hab _. now apply Hcut in Hab as [Hab _]. }
  assert (Hedges : forall u v, In (u, v) (g_edges g3) <->
                     In (u, v) (g_edges (cut_cached cache g)) /\
                     (v = node \/ path (cut_cached cache g) v node)).
  { intros u v. rewrite He3, !Hpath. split.
    - intros (He & _ & Hrv). auto.
    - intros [He Hrv]. split; [now apply Hsub|].
      split; [|assumption]. right. now apply (path_step _ u v). }
  exists H2, g3. split; [exact E2|].
  split; [intros n; now rewrite Hext2|].
  split; [exact Hcut|]. split; [exact Hnodes|]. split; [exact Hedges|].
  intros Hc.
  assert (Hno : forall x, ~ path (cut_cached cache g) x node).
  { intros x Hp. apply path_last_edge in Hp as [u He].
    apply Hcut in He as [_ He]. congruence. }
  split.
  - apply NoDup_only; [assumption|]. intros n. rewrite Hnodes. split.
    + intros [_ [->|Hp]]; [reflexivity|]. now apply Hno in Hp.
    + intros ->. auto.
  - destruct (g_edges g3) as [|[u v] l]; [reflexivity|]. exfalso.
    destruct (proj1 (Hedges u v) (or_introl eq_refl)) as [He [->|Hp]].
    + apply Hcut in He as [_ He]. congruence.
    + now apply Hno in Hp.
Qed.

(** The pipeline with its intermediate variable cached: the pruned graph
    of the Return starts at the variable. *)
Lemma cached_dependent_subgraph_exact_witness :
  exists H2 g3,
    find_cached_dependent_subgraph_of_node [(3%N, tt)] Ex.H0 Ex.g_pipeline 4%N
    = (H2, Ok g3) /\
    (forall n, In n (g_nodes g3) <->
               In n (g_nodes Ex.g_pipeline) /\
               (n = 4%N \/ path (cut_cached [(3%N, tt)] Ex.g_pipeline) n 4%N)).
Proof.
  destruct (proj2 (proj2 (cached_dependent_subgraph_exact unit [(3%N, tt)]
                            Ex.H0 Ex.g_pipeline 4%N)))
    as (H2 & g3 & E & _ & _ & Hn & _).
  - reflexivity.
  - reflexivity.
  - vm_compute. repeat constructor; simpl; intuition discriminate.
  - intros u v Hin. vm_compute in Hin. vm_compute. intuition congruence.
  - intros a b Ha Hb. vm_compute in Ha, Hb.
    destruct Ha as [<-|[<-|[<-|[<-|[<-|[]]]]]];
      destruct Hb as [<-|[<-|[<-|[<-|[<-|[]]]]]];
      vm_compute; congruence.
  - exists H2, g3. auto.
Defined.

(** ** [evaluate_graph] with several targets *)

Section EvaluateGraphFacts.
Variable DataFrame : Type.
Variable src : Instruction -> result DataFrame.
Variable trf : Instruction -> DataFrame -> result DataFrame.

Local Abbreviation eval := (_evaluate_instruction_in_graph src trf).
Local Abbreviation Cache := (InMemoryCache DataFrame).

(** One more level of recursion does not change an evaluation that
    returns. *)
Lemma eval_fuel_S H graph : forall fuel ins (c c1 : Cache) df,
  eval fuel H graph ins c = (c1, Ok df) ->
  eval (S fuel) H graph ins c = (c1, Ok df).
Proof.
  induction fuel as [|fuel IH]; intros ins c c1 df E; [discriminate E|].
  rewrite eval_S in E. rewrite eval_S.
  destruct (negb (is_evaluable graph)); [discriminate E|].
  destruct (isinstance (H ins) TReturn).
  { destruct (next_predecessor graph ins) as [p|e]; [|discriminate E].
    now apply IH. }
  destruct (isinstance (H ins) TVariable).
  { destruct (next_predecessor graph ins) as [p|e]; [|discriminate E].
    destruct (eval fuel H graph p c) as [c2 [d|e]] eqn:Ep; [|discriminate E].
    now rewrite (IH _ _ _ _ Ep). }
  destruct (isinstance (H ins) TSourceInstruction); [exact E|].
  destruct (isinstance (H ins) TTransformingInstruction); [|exact E].
  destruct (next_predecessor graph ins) as [p|e]; [|discriminate E].
  destruct (eval fuel H graph p c) as [c2 [d|e]] eqn:Ep; [|discriminate E].
  now rewrite (IH _ _ _ _ Ep).
Qed.

(** After an evaluation each key of the cache is as before, or it holds
    the artifact that the evaluation of its node returns. *)
Lemma eval_entry H graph : forall fuel ins (c c1 : Cache) r,
  eval fuel H graph ins c = (c1, r) ->
  forall k,
    (dict_find (cache_catalog c1) k = dict_find (cache_catalog c) k /\
     dict_find (cache_ c1) k = dict_find (cache_ c) k) \/
    (dict_find (cache_catalog c1) k = Some k /\
     exists df, dict_find (cache_ c1) k = Some df /\
                forall c0, snd (eval fuel H graph k c0) = Ok df).
Proof.
  induction fuel as [|fuel IH]; intros ins c c1 r E k.
  { simpl in E. injection E as <- <-. left. split; reflexivity. }
  assert (Hlift : forall p (ca cb : Cache) rb,
             eval fuel H graph p ca = (cb, rb) ->
             (dict_find (cache_catalog cb) k = dict_find (cache_catalog ca) k /\
              dict_find (cache_ cb) k = dict_find (cache_ ca) k) \/
             (dict_find (cache_catalog cb) k = Some k /\
              exists df, dict_find (cache_ cb) k = Some df /\
                         forall c0, snd (eval (S fuel) H graph k c0) = Ok df)).
  { intros p ca cb rb Ep.
    destruct (IH _ _ _ _ Ep k) as [L|(Hc & df & Hd & Hv)]; [now left|right].
    split; [assumption|]. exists df. split; [assumption|].
    intros c0. specialize (Hv c0).
    destruct (eval fuel H graph k c0) as [cx rx] eqn:Ek.
    simpl in Hv. subst rx.
    now rewrite (eval_fuel_S H graph fuel k c0 cx df Ek). }
  pose proof E as E0. rewrite eval_S in E.
  destruct (negb (is_evaluable graph)).
  { injection E as <- <-. left. split; reflexivity. }
  destruct (isinstance (H ins) TReturn).
  { destruct (next_predecessor graph ins) as [p|e].
    - exact (Hlift _ _ _ _ E).
    - injection E as <- <-. left. split; reflexivity. }
  destruct (isinstance (H ins) TVariable).
  { destruct (next_predecessor graph ins) as [p|e].
    - destruct (eval fuel H graph p c) as [c2 [d|e]] eqn:Ep;
        injection E as <- <-; [|exact (Hlift _ _ _ _ Ep)].
      destruct (N.eq_dec k ins) as [->|Hne].
      + right. unfold setitem. cbn [cache_ cache_catalog].
        rewrite !dict_find_set_same.
        split; [reflexivity|]. exists d. split; [reflexivity|].
        intros c0.
        destruct (eval_ignores_cache DataFrame src trf (S fuel) H graph ins c0 c)
          as (calls & Es & _).
        now rewrite Es, E0.
      + unfold setitem. cbn [cache_ cache_catalog].
        rewrite !dict_find_set_other by assumption.
        exact (Hlift _ _ _ _ Ep).
    - injection E as <- <-. left. split; reflexivity. }
  destruct (isinstance (H ins) TSourceInstruction).
  { injection E as <- <-. left. split; reflexivity. }
  destruct (isinstance (H ins) TTransformingInstruction).
  { destruct (next_predecessor graph ins) as [p|e].
    - destruct (eval fuel H graph p c) as [c2 [d|e]] eqn:Ep;
        injection E as <- <-; exact (Hlift _ _ _ _ Ep).
    - injection E as <- <-. left. split; reflexivity. }
  injection E as <- <-. left. split; reflexivity.
Qed.

(** The loop of [evaluate_graph] keeps, for every key of the mapping, the
    same artifact in the cache. *)
Lemma evaluate_loop_entries fuel H graph :
  forall todo mapping (c c' : Cache) m,
    (forall k df, dict_find mapping k = Some df ->
       dict_find (cache_catalog c) k = Some k /\
       dict_find (cache_ c) k = Some df /\
       forall c0, snd (eval fuel H graph k c0) = Ok df) ->
    evaluate_loop src trf fuel H graph todo mapping c = (c', Ok m) ->
    (forall k df, dict_find m k = Some df ->
       dict_find (cache_catalog c') k = Some k /\
       dict_find (cache_ c') k = Some df /\
       forall c0, snd (eval fuel H graph k c0) = Ok df) /\
    (forall k, dict_find m k <> None <->
               In k todo \/ dict_find mapping k <> None).
Proof.
  induction todo as [|ins todo IH]; intros mapping c c' m Hinv E; simpl in E.
  - injection E as <- <-. split; [exact Hinv|]. intros k. simpl. tauto.
  - destruct (eval fuel H graph ins c) as [c1 [df|e]] eqn:Ei; [|discriminate E].
    apply IH in E as [Hm Hk].
    + split; [exact Hm|]. intros k. rewrite Hk. simpl.
      destruct (N.eq_dec k ins) as [->|Hne].
      * rewrite dict_find_set_same. split; [intros _; now left; left|].
        intros _. right. discriminate.
      * rewrite dict_find_set_other by assumption.
        split; [intros [Hin|Hin]; auto|].
        intros [[Heq|Hin]|Hin]; auto; congruence.
    + intros k d Hd. destruct (N.eq_dec k ins) as [->|Hne].
      * rewrite dict_find_set_same in Hd. injection Hd as <-. simpl.
        rewrite !dict_find_set_same. split; [reflexivity|].
        split; [reflexivity|]. intros c0.
        destruct (eval_ignores_cache DataFrame src trf fuel H graph ins c0 c)
          as (calls & Es & _).
        now rewrite Es, Ei.
      * rewrite dict_find_set_other in Hd by assumption. simpl.
        rewrite !dict_find_set_other by assumption.
        destruct (Hinv k d Hd) as (Hc & Hv & He).
        destruct (eval_entry H graph fuel ins c c1 (Ok df) Ei k)
          as [[L1 L2]|(R1 & d' & R2 & R3)].
        -- rewrite L1, L2. auto.
        -- split; [assumption|]. split; [|assumption].
           rewrite R2. f_equal.
           specialize (He c). specialize (R3 c). rewrite He in R3.
           now injection R3.
Qed.
End EvaluateGraphFacts.

(** X17. When [evaluate_graph] returns, the keys of the mapping are
    exactly the requested instructions, which are the sink nodes of the
    graph when none or an empty list is given.  For every key the cache
    afterwards returns the data frame of the mapping, also when a later
    target was evaluated through that node, and this data frame is what
    the evaluation of the instruction returns from any cache. *)
Theorem evaluate_graph_targets :
  forall (DataFrame : Type) (src : Instruction -> result DataFrame)
         (trf : Instruction -> DataFrame -> result DataFrame)
         (fuel : nat) (H : Heap) (graph : IRGraph)
         (instructions_to_evaluate : option (list UUID))
         (c c' : InMemoryCache DataFrame) (m : list (UUID * DataFrame)),
    evaluate_graph src trf fuel H graph instructions_to_evaluate c = (c', Ok m) ->
    let requested := match instructions_to_evaluate with
                     | None | Some [] => get_sink_nodes graph
                     | Some l => l
                     end in
    (forall k, In k requested <-> exists df, dict_find m k = Some df) /\
    (forall k df, dict_find m k = Some df ->
       getitem c' k = Ok df /\
       forall c0, snd (_evaluate_instruction_in_graph src trf fuel H graph k c0)
                  = Ok df).
Proof.
  intros DataFrame src trf fuel H graph its c c' m E requested.
  unfold evaluate_graph in E. fold requested in E.
  destruct (negb (is_evaluable graph)); [discriminate E|].
  apply (evaluate_loop_entries DataFrame src trf fuel H graph requested [] c c' m)
    in E as [Hm Hk]; [|intros k df; discriminate].
  split.
  - intros k. specialize (Hk k). simpl in Hk. split.
    + intros Hin. destruct (dict_find m k) as [df|]; [eauto|].
      exfalso. apply (proj2 Hk); auto.
    + intros [df Hdf]. destruct (proj1 Hk) as [Hin|Hin];
        [congruence|assumption|congruence].
  - intros k df Hdf. destruct (Hm k df Hdf) as (Hc & Hv & He).
    split; [|exact He]. unfold getitem. now rewrite Hc, Hv.
Qed.

(** The variable of the evaluable pipeline and the Return behind it as
    targets: the second evaluation goes through the variable again, and
    both artifacts are in the cache afterwards. *)
Lemma evaluate_graph_targets_witness :
  exists c' m,
    evaluate_graph Ex.src Ex.trf 10 Ex.H0 Ex.e_pipeline (Some [3; 4]%N)
                   Ex.empty_cache = (c', Ok m) /\
    getitem c' 3%N = Ok 43%nat /\ getitem c' 4%N = Ok 44%nat.
Proof.
  destruct (evaluate_graph Ex.src Ex.trf 10 Ex.H0 Ex.e_pipeline (Some [3; 4]%N)
                           Ex.empty_cache) as [c' r] eqn:E.
  assert (Er : r = Ok [(3%N, 43%nat); (4%N, 44%nat)])
    by (change r with (snd (c', r)); rewrite <- E; vm_compute; reflexivity).
  subst r. exists c', [(3%N, 43%nat); (4%N, 44%nat)]. split; [reflexivity|].
  destruct (evaluate_graph_targets nat Ex.src Ex.trf 10 Ex.H0 Ex.e_pipeline
              (Some [3; 4]%N) Ex.empty_cache c' _ E) as [_ Hv].
  split.
  - exact (proj1 (Hv 3%N 43%nat eq_refl)).
  - exact (proj1 (Hv 4%N 44%nat eq_refl)).
Defined.
